(** * notesAppBackend: storage adapters and the sync protocol

    A shallow embedding of the backend's storage stack
    ([adapters/sqliteAdapter.js], [adapters/fileAdapter.js],
    [adapters/dualAdapter.js]), of the synchronisation routes
    ([routes/sync.js]), of the CRUD routes ([routes/notes.js]), of the
    authorisation middleware ([middleware/auth.js]) and of the way
    [server.js] puts them together, followed by the properties of the
    specification that concern them (C1 to C10) and by further properties
    of the code (X1 onwards).

    Conventions of the embedding:
    - JavaScript strings are [string]s over 8-bit characters.  Where the
      code folds case or trims ([toLowerCase], [trim]) the embedding is
      exact on ASCII text ([JsValue.ascii_text]) and says nothing beyond
      it: a property that depends on either function has the text it
      reads ASCII among its hypotheses.  SQLite's [LOWER] and [LIKE] fold
      the ASCII letters only, on any text, and are embedded on their own
      ([SqliteAdapter.LOWER], [SqliteAdapter.like]).
    - The file adapter keeps the note [id] in the file [<id>.json] of one
      directory; the embedding keys the files by id, which is exact for
      ids that are plain file names ([FileAdapter.plain_id]) on a file
      system with case-sensitive names.
    - Timestamps ([createdAt], [updatedAt], [date], [lastSync]) are [Z].
    - [null] and [undefined] are [None]; the places where JavaScript tells
      them apart ([!==] between a stored owner and the caller) say so.
    - Every asynchronous function is a computation in the monad [Js]: a
      state transformer over [World] that either returns or throws.
    - Input/output can fail: each tier of [World] carries a schedule of
      faults, one boolean per I/O call still to come ([true]: that call
      rejects).  An exhausted schedule means no further fault. *)

From stdpp Require Import gmap strings list fin_maps.
From Stdlib Require Import ZArith Ascii String Sorting.Sorted Sorting.Permutation.

Local Open Scope Z_scope.
Local Open Scope list_scope.

(** ** JavaScript values and string primitives *)

Module JsValue.

(** Truthiness of a possibly missing string: [undefined], [null] and the
    empty string are falsy. *)
Definition truthy_string (o : option string) : option string :=
  match o with
  | Some EmptyString => None
  | Some s => Some s
  | None => None
  end.

(** Truthiness of a possibly missing number: [undefined], [null] and [0]
    are falsy. *)
Definition truthy_number (o : option Z) : option Z :=
  match o with
  | Some z => if Z.eqb z 0 then None else Some z
  | None => None
  end.

(** [x || 0] on a number. *)
Definition or_zero (z : Z) : Z := if Z.eqb z 0 then 0 else z.

(** [s || null] on a string or null. *)
Definition or_null (o : option string) : option string := truthy_string o.

(** The text on which the embedding of [toLowerCase] and [trim] is exact:
    characters 1 to 127. *)
Definition ascii_char (c : ascii) : bool :=
  let n := nat_of_ascii c in (Nat.leb 1 n && Nat.ltb n 128)%bool.

Fixpoint ascii_text (s : string) : bool :=
  match s with
  | EmptyString => true
  | String c s' => (ascii_char c && ascii_text s')%bool
  end.

Definition is_upper (c : ascii) : bool :=
  let n := nat_of_ascii c in (Nat.leb 65 n && Nat.leb n 90)%bool.

Definition lower_char (c : ascii) : ascii :=
  if is_upper c then ascii_of_nat (nat_of_ascii c + 32) else c.

(** [String.prototype.toLowerCase] on ASCII text: the letters A to Z are
    folded and nothing else changes.  On other text JavaScript folds more
    (accented and Cyrillic capitals, for instance), which this function
    does not follow. *)
Fixpoint toLowerCase (s : string) : string :=
  match s with
  | EmptyString => EmptyString
  | String c s' => String (lower_char c) (toLowerCase s')
  end.

(** [String.prototype.startsWith] *)
Fixpoint startsWith (s q : string) {struct q} : bool :=
  match q, s with
  | EmptyString, _ => true
  | String a q', String b s' => if Ascii.eqb a b then startsWith s' q' else false
  | String _ _, EmptyString => false
  end.

(** [String.prototype.includes] *)
Fixpoint includes (s q : string) : bool :=
  if startsWith s q then true
  else match s with
       | EmptyString => false
       | String _ s' => includes s' q
       end.

(** [Array.prototype.includes] on an array of strings. *)
Definition array_includes (l : list string) (t : string) : bool :=
  existsb (String.eqb t) l.

(** The white space of ASCII text: the space and the characters 9 to 13.
    JavaScript counts further characters outside ASCII as white space
    (U+00A0, U+FEFF, the Unicode space separators and line terminators),
    which [trim] below does not follow. *)
Definition is_space (c : ascii) : bool :=
  let n := nat_of_ascii c in
  (Nat.eqb n 32 || (Nat.leb 9 n && Nat.leb n 13))%bool.

Fixpoint trimStart (s : string) : string :=
  match s with
  | EmptyString => EmptyString
  | String c s' => if is_space c then trimStart s' else s
  end.

Fixpoint trimEnd (s : string) : string :=
  match s with
  | EmptyString => EmptyString
  | String c s' =>
      match trimEnd s' with
      | EmptyString => if is_space c then EmptyString else String c EmptyString
      | t => String c t
      end
  end.

(** [String.prototype.trim] on ASCII text. *)
Definition trim (s : string) : string := trimEnd (trimStart s).

(** [String.prototype.split] with a one-character separator. *)
Fixpoint split (sep : ascii) (s : string) : list string :=
  match s with
  | EmptyString => [EmptyString]
  | String c s' =>
      if Ascii.eqb c sep then EmptyString :: split sep s'
      else match split sep s' with
           | x :: xs => String c x :: xs
           | [] => [String c EmptyString]
           end
  end.

Definition nonempty (s : string) : bool :=
  match s with EmptyString => false | _ => true end.

Definition comma : ascii := ascii_of_nat 44.
Definition dquote : ascii := ascii_of_nat 34.
Definition backslash : ascii := ascii_of_nat 92.
Definition percent : ascii := ascii_of_nat 37.
Definition underscore : ascii := ascii_of_nat 95.

(** [String(v).split(',').map(t => t.trim()).filter(Boolean)] *)
Definition csv_tags (s : string) : list string :=
  List.filter nonempty (List.map trim (split comma s)).

Definition hex_digit (n : nat) : ascii :=
  if Nat.ltb n 10 then ascii_of_nat (48 + n) else ascii_of_nat (87 + n).

(** The escape [JSON.stringify] writes for one character of a string. *)
Definition json_escape_char (c : ascii) : string :=
  let n := nat_of_ascii c in
  if Ascii.eqb c dquote then String backslash (String dquote EmptyString)
  else if Ascii.eqb c backslash then String backslash (String backslash EmptyString)
  else if Nat.eqb n 8 then String backslash "b"
  else if Nat.eqb n 9 then String backslash "t"
  else if Nat.eqb n 10 then String backslash "n"
  else if Nat.eqb n 12 then String backslash "f"
  else if Nat.eqb n 13 then String backslash "r"
  else if Nat.ltb n 32 then
    String backslash
      (String.append "u00"
         (String (hex_digit (Nat.div n 16)) (String (hex_digit (Nat.modulo n 16)) EmptyString)))
  else String c EmptyString.

Fixpoint json_escape (s : string) : string :=
  match s with
  | EmptyString => EmptyString
  | String c s' => String.append (json_escape_char c) (json_escape s')
  end.

Definition json_string (s : string) : string :=
  String dquote (String.append (json_escape s) (String dquote EmptyString)).

Fixpoint json_join (l : list string) : string :=
  match l with
  | [] => EmptyString
  | [x] => json_string x
  | x :: rest => String.append (json_string x) (String comma (json_join rest))
  end.

(** [JSON.stringify] of an array of strings. *)
Definition json_of_tags (l : list string) : string :=
  String.append "[" (String.append (json_join l) "]").

End JsValue.

(** ** The record model *)

(** A note as the adapters exchange it. *)
Record Note := mkNote {
  id : string;
  uid : option string;
  title : string;
  body : string;
  createdAt : Z;
  updatedAt : Z;
  date : option Z;
  time : option string;
  tags : list string;
  isDeleted : bool
}.

(** The [tags] field of a client-supplied note: an array, a string, or
    nothing. *)
Inductive RawTags :=
| TagsArray (l : list string)
| TagsScalar (s : string)
| TagsMissing.

(** A note as a client submits it; every field may be missing.
    [raw_isDeleted] is the truthiness of the submitted value. *)
Record RawNote := mkRawNote {
  raw_id : option string;
  raw_uid : option string;
  raw_title : option string;
  raw_body : option string;
  raw_createdAt : option Z;
  raw_updatedAt : option Z;
  raw_date : option Z;
  raw_time : option string;
  raw_tags : RawTags;
  raw_isDeleted : bool
}.

(** The decoded identity token placed in [req.user]. *)
Record User := mkUser { user_uid : option string }.

(** The filter object taken by every [find]. [f_includeDeleted] is the
    truthiness of the supplied value. *)
Record Filters := mkFilters {
  f_includeDeleted : bool;
  f_uid : option string;
  f_q : option string;
  f_updatedAfter : option Z;
  f_dateFrom : option Z;
  f_dateTo : option Z;
  f_time : option string;
  f_tags : option (list string)
}.

Definition no_filters : Filters :=
  mkFilters false None None None None None None None.

#[global] Instance Note_eq_dec : EqDecision Note.
Proof. solve_decision. Defined.

(** ** Sorting with a JavaScript comparator

    [Array.prototype.sort] is stable; with a consistent comparator its
    result is the one of any stable sort.  The embedding uses insertion
    into the already sorted tail: an element moves past those it must
    follow ([cmp x y > 0]) and stops in front of the first other one. *)

Section Sort.
Context {A : Type} (cmp : A → A → Z).

Fixpoint insert_sorted (x : A) (l : list A) : list A :=
  match l with
  | [] => [x]
  | y :: l' => if Z.leb (cmp x y) 0 then x :: l else y :: insert_sorted x l'
  end.

Definition sort (l : list A) : list A := foldr insert_sorted [] l.

End Sort.

(** ** The world: three storage tiers and the sources of nondeterminism *)

(** A row of the table [notes]; the column [id] is the primary key and
    indexes the table.  The column [tags] holds [JSON.stringify] of the
    tag list and [isDeleted] holds 0 or 1: the row keeps the decoded
    values, and [JsValue.json_of_tags] renders the text where SQL looks at
    it. *)
Record Row := mkRow {
  row_uid : option string;
  row_title : string;
  row_body : string;
  row_createdAt : Z;
  row_updatedAt : Z;
  row_date : option Z;
  row_time : option string;
  row_tags : list string;
  row_isDeleted : bool
}.

Record World := mkWorld {
  sqlite : gmap string Row;               (* notes.db, table notes *)
  files : gmap string Note;               (* notes_files/<id>.json *)
  firestore : option (gmap string Note);  (* collection notes, when admin is initialised *)
  sql_faults : list bool;
  file_faults : list bool;
  cloud_faults : list bool;
  nanoid_src : nat → string;              (* the values nanoid() returns, call by call *)
  nanoid_calls : nat;
  clock : nat → Z;                        (* the values Date.now() returns, call by call *)
  clock_reads : nat
}.

Definition with_sqlite (t : gmap string Row) (w : World) : World :=
  mkWorld t (files w) (firestore w) (sql_faults w) (file_faults w) (cloud_faults w)
          (nanoid_src w) (nanoid_calls w) (clock w) (clock_reads w).

Definition with_files (t : gmap string Note) (w : World) : World :=
  mkWorld (sqlite w) t (firestore w) (sql_faults w) (file_faults w) (cloud_faults w)
          (nanoid_src w) (nanoid_calls w) (clock w) (clock_reads w).

Definition with_firestore (t : option (gmap string Note)) (w : World) : World :=
  mkWorld (sqlite w) (files w) t (sql_faults w) (file_faults w) (cloud_faults w)
          (nanoid_src w) (nanoid_calls w) (clock w) (clock_reads w).

Definition with_sql_faults (l : list bool) (w : World) : World :=
  mkWorld (sqlite w) (files w) (firestore w) l (file_faults w) (cloud_faults w)
          (nanoid_src w) (nanoid_calls w) (clock w) (clock_reads w).

Definition with_file_faults (l : list bool) (w : World) : World :=
  mkWorld (sqlite w) (files w) (firestore w) (sql_faults w) l (cloud_faults w)
          (nanoid_src w) (nanoid_calls w) (clock w) (clock_reads w).

Definition with_cloud_faults (l : list bool) (w : World) : World :=
  mkWorld (sqlite w) (files w) (firestore w) (sql_faults w) (file_faults w) l
          (nanoid_src w) (nanoid_calls w) (clock w) (clock_reads w).

Definition with_nanoid_calls (n : nat) (w : World) : World :=
  mkWorld (sqlite w) (files w) (firestore w) (sql_faults w) (file_faults w) (cloud_faults w)
          (nanoid_src w) n (clock w) (clock_reads w).

Definition with_clock_reads (n : nat) (w : World) : World :=
  mkWorld (sqlite w) (files w) (firestore w) (sql_faults w) (file_faults w) (cloud_faults w)
          (nanoid_src w) (nanoid_calls w) (clock w) n.

(** ** The monad of JavaScript computations *)

Inductive Exn := SqlError | FileError | FirestoreError | TypeError.

Inductive Completion (A : Type) :=
| Normal (a : A)
| Throw (e : Exn).
Arguments Normal {A} a.
Arguments Throw {A} e.

Definition Js (A : Type) : Type := World → Completion A * World.

Definition ret {A} (a : A) : Js A := fun w => (Normal a, w).

Definition throw {A} (e : Exn) : Js A := fun w => (Throw e, w).

Definition bind {A B} (m : Js A) (k : A → Js B) : Js B :=
  fun w => match m w with
           | (Normal a, w') => k a w'
           | (Throw e, w') => (Throw e, w')
           end.

(** [try { m } catch (e) { h e }]: the state reached when [m] threw is the
    one the handler starts from. *)
Definition try_catch {A} (m : Js A) (h : Exn → Js A) : Js A :=
  fun w => match m w with
           | (Normal a, w') => (Normal a, w')
           | (Throw e, w') => h e w'
           end.

Definition read {A} (f : World → A) : Js A := fun w => (Normal (f w), w).

Definition write (f : World → World) : Js unit := fun w => (Normal tt, f w).

Notation "'await' x ':=' m 'in' k" := (bind m (fun x => k))
  (at level 10, x name, m at level 100, k at level 200).

(** One I/O call against a tier: it consumes the next entry of the tier's
    fault schedule and rejects when that entry is [true]. *)
Definition io_call (faults : World → list bool) (rest : list bool → World → World)
    (e : Exn) : Js unit :=
  fun w => match faults w with
           | [] => (Normal tt, w)
           | true :: l => (Throw e, rest l w)
           | false :: l => (Normal tt, rest l w)
           end.

Definition db_call : Js unit := io_call sql_faults with_sql_faults SqlError.
Definition fs_call : Js unit := io_call file_faults with_file_faults FileError.
Definition cloud_call : Js unit := io_call cloud_faults with_cloud_faults FirestoreError.

(** [Date.now()] *)
Definition Date_now : Js Z :=
  fun w => (Normal (clock w (clock_reads w)), with_clock_reads (S (clock_reads w)) w).

(** [nanoid()] *)
Definition nanoid : Js string :=
  fun w => (Normal (nanoid_src w (nanoid_calls w)), with_nanoid_calls (S (nanoid_calls w)) w).

(** [a ?? b], with [b] evaluated only when [a] is nullish. *)
Definition nullish_or {A} (a : option A) (b : Js A) : Js A :=
  match a with
  | Some v => ret v
  | None => b
  end.

(** ** adapters/sqliteAdapter.js *)

Module SqliteAdapter.

Definition row_of_note (n : Note) : Row :=
  mkRow (JsValue.or_null (uid n)) (title n) (body n) (createdAt n) (updatedAt n)
        (date n) (time n) (tags n) (isDeleted n).

(** [{ ...row, tags: JSON.parse(row.tags), isDeleted: !!row.isDeleted }] *)
Definition note_of_row (i : string) (r : Row) : Note :=
  mkNote i (row_uid r) (row_title r) (row_body r) (row_createdAt r) (row_updatedAt r)
         (row_date r) (row_time r) (row_tags r) (row_isDeleted r).

(** [SELECT * FROM notes WHERE id = ?]; a failing statement is logged and
    thrown again. *)
Definition get (i : string) : Js (option Note) :=
  await _ := db_call in
  read (fun w => note_of_row i <$> sqlite w !! i).

(** [UPDATE notes SET ... WHERE id=?] *)
Definition sql_update (n : Note) : Js unit :=
  await _ := db_call in
  write (fun w => with_sqlite (alter (fun _ => row_of_note n) (id n) (sqlite w)) w).

(** [INSERT INTO notes (...) VALUES (...)] *)
Definition sql_insert (n : Note) : Js unit :=
  await _ := db_call in
  write (fun w => with_sqlite (<[id n := row_of_note n]> (sqlite w)) w).

Definition upsert (note : Note) : Js unit :=
  await existing := get (id note) in
  match existing with
  | Some _ => sql_update note
  | None => sql_insert note
  end.

(** The conditions [find] pushes onto [where]. *)
Inductive Cond :=
| UidEq (u : string)          (* uid = ? *)
| NotDeleted                  (* isDeleted = 0 *)
| TextLike (p : string)       (* (LOWER(title) LIKE ? OR LOWER(body) LIKE ?), both ? the same *)
| UpdatedGt (t : Z)           (* updatedAt > ? *)
| DateGe (d : Z)              (* date >= ? *)
| DateLe (d : Z)              (* date <= ? *)
| TimeEq (s : string)         (* time = ? *)
| TagsLike (p : string).      (* tags LIKE ? *)

(** SQLite's [LOWER]: the ASCII letters are folded, every other character
    is left as it is. *)
Fixpoint LOWER (s : string) : string :=
  match s with
  | EmptyString => EmptyString
  | String c s' => String (JsValue.lower_char c) (LOWER s')
  end.

(** SQLite's [LIKE]: [%] matches any run of characters, [_] any one
    character, and letters match without regard to ASCII case. *)
Fixpoint like (p : string) : string → bool :=
  match p with
  | EmptyString => fun s => match s with EmptyString => true | _ => false end
  | String c p' =>
      if Ascii.eqb c JsValue.percent then
        fix star (s : string) : bool :=
          if like p' s then true
          else match s with
               | EmptyString => false
               | String _ s' => star s'
               end
      else if Ascii.eqb c JsValue.underscore then
        fun s => match s with
                 | EmptyString => false
                 | String _ s' => like p' s'
                 end
      else
        fun s => match s with
                 | EmptyString => false
                 | String d s' =>
                     if Ascii.eqb (JsValue.lower_char c) (JsValue.lower_char d)
                     then like p' s' else false
                 end
  end.

Definition wrap (pre : string) (s : string) (post : string) : string :=
  String.append pre (String.append s post).

Definition opt_list {A B} (o : option A) (f : A → list B) : list B :=
  match o with
  | Some a => f a
  | None => []
  end.

Definition where_clauses (filters : Filters) : list Cond :=
  opt_list (JsValue.truthy_string (f_uid filters)) (fun u => [UidEq u])
  ++ (if f_includeDeleted filters then [] else [NotDeleted])
  ++ opt_list (JsValue.truthy_string (f_q filters))
       (fun q => [TextLike (wrap "%" (JsValue.toLowerCase q) "%")])
  ++ opt_list (JsValue.truthy_number (f_updatedAfter filters)) (fun t => [UpdatedGt t])
  ++ opt_list (JsValue.truthy_number (f_dateFrom filters)) (fun d => [DateGe d])
  ++ opt_list (JsValue.truthy_number (f_dateTo filters)) (fun d => [DateLe d])
  ++ opt_list (JsValue.truthy_string (f_time filters)) (fun s => [TimeEq s])
  ++ opt_list (f_tags filters)
       (List.map (fun t => TagsLike (wrap (String "%" (String JsValue.dquote EmptyString)) t
                                          (String JsValue.dquote "%")))).

(** A comparison with [NULL] selects nothing. *)
Definition holds (r : Row) (c : Cond) : bool :=
  match c with
  | UidEq u => match row_uid r with Some v => String.eqb v u | None => false end
  | NotDeleted => negb (row_isDeleted r)
  | TextLike p => like p (LOWER (row_title r)) || like p (LOWER (row_body r))
  | UpdatedGt t => Z.ltb t (row_updatedAt r)
  | DateGe d => match row_date r with Some v => Z.leb d v | None => false end
  | DateLe d => match row_date r with Some v => Z.leb v d | None => false end
  | TimeEq s => match row_time r with Some v => String.eqb v s | None => false end
  | TagsLike p => like p (JsValue.json_of_tags (row_tags r))
  end.

(** [SELECT * FROM notes WHERE c1 AND ... ORDER BY updatedAt DESC] on a
    table: rows with equal [updatedAt] stay in scan order. *)
Definition select (conds : list Cond) (t : gmap string Row) : list Note :=
  List.map (fun ir => note_of_row ir.1 ir.2)
    (sort (fun a b => row_updatedAt b.2 - row_updatedAt a.2)
       (List.filter (fun ir => forallb (holds ir.2) conds) (map_to_list t))).

Definition find (filters : Filters) : Js (list Note) :=
  await _ := db_call in
  read (fun w => select (where_clauses filters) (sqlite w)).

End SqliteAdapter.

(** ** adapters/fileAdapter.js *)

Module FileAdapter.

(** [filePathFor(id)] is [path.join(DATA_DIR, id + '.json')].  For an id
    that is a plain file name (ASCII text without [/], of at most 250
    characters) this is the file of that name in the data directory, and
    two such ids name two files; the functions below are keyed by id and
    are the code's on such ids.  An id with a [/] in it resolves to
    another place, possibly to the file of another id, which the embedding
    does not follow. *)
Definition slash : ascii := ascii_of_nat 47.

Definition plain_id (i : string) : bool :=
  (JsValue.ascii_text i
   && forallb (fun c => negb (Ascii.eqb c slash)) (list_ascii_of_string i)
   && Nat.leb (String.length i) 250)%bool.

(** [fs.writeFile(filePathFor(note.id), JSON.stringify(note, null, 2))]
    inside [try]/[catch]: a failed write is logged and not thrown again. *)
Definition upsert (note : Note) : Js unit :=
  try_catch
    (await _ := fs_call in
     write (fun w => with_files (<[id note := note]> (files w)) w))
    (fun _ => ret tt).

(** [fs.readFile] and [JSON.parse] inside [try]/[catch]: any failure, a
    missing file included, is logged and answered with [null]. *)
Definition get (i : string) : Js (option Note) :=
  try_catch
    (await _ := fs_call in
     await txt := read (fun w => files w !! i) in
     match txt with
     | Some n => ret (Some n)
     | None => throw FileError
     end)
    (fun _ => ret None).

(** The loop of [find] over the directory listing: a file that cannot be
    read is logged and skipped.  The world holds the [.json] files only,
    under the id they are named after. *)
Fixpoint read_all (names : list string) (notes : list Note) : Js (list Note) :=
  match names with
  | [] => ret notes
  | f :: rest =>
      await notes' :=
        try_catch
          (await _ := fs_call in
           await txt := read (fun w => files w !! f) in
           match txt with
           | Some n => ret (notes ++ [n])
           | None => throw FileError
           end)
          (fun _ => ret notes) in
      read_all rest notes'
  end.

Definition when {A} (o : option A) (f : A → list Note → list Note) (l : list Note)
    : list Note :=
  match o with
  | Some a => f a l
  | None => l
  end.

(** The passes of [find] over the notes read, one [filter] per supplied
    field, in the order of the source. *)
Definition narrow (filters : Filters) (notes : list Note) : list Note :=
  let result :=
    List.filter (fun n => if f_includeDeleted filters then true else negb (isDeleted n)) notes in
  let result :=
    when (JsValue.truthy_string (f_uid filters))
      (fun u => List.filter (fun n => bool_decide (uid n = Some u))) result in
  let result :=
    when (JsValue.truthy_string (f_q filters))
      (fun s =>
         let q := JsValue.toLowerCase s in
         List.filter (fun n => JsValue.includes (JsValue.toLowerCase (title n)) q
                               || JsValue.includes (JsValue.toLowerCase (body n)) q)) result in
  let result :=
    when (JsValue.truthy_number (f_updatedAfter filters))
      (fun t => List.filter (fun n => Z.ltb t (JsValue.or_zero (updatedAt n)))) result in
  let result :=
    when (JsValue.truthy_number (f_dateFrom filters))
      (fun d => List.filter (fun n => match JsValue.truthy_number (date n) with
                                      | Some v => Z.leb d v
                                      | None => false
                                      end)) result in
  let result :=
    when (JsValue.truthy_number (f_dateTo filters))
      (fun d => List.filter (fun n => match JsValue.truthy_number (date n) with
                                      | Some v => Z.leb v d
                                      | None => false
                                      end)) result in
  let result :=
    when (JsValue.truthy_string (f_time filters))
      (fun s => List.filter (fun n => bool_decide (time n = Some s))) result in
  match f_tags filters with
  | Some (t :: ts) =>
      List.filter (fun n => forallb (JsValue.array_includes (tags n)) (t :: ts)) result
  | _ => result
  end.

(** The comparator of [result.sort]. *)
Definition by_updatedAt_desc (a b : Note) : Z :=
  JsValue.or_zero (updatedAt b) - JsValue.or_zero (updatedAt a).

(** [fs.readdir] is outside any [try]: its failure is thrown. *)
Definition find (filters : Filters) : Js (list Note) :=
  await _ := fs_call in
  await names := read (fun w => List.map fst (map_to_list (files w))) in
  await notes := read_all names [] in
  ret (sort by_updatedAt_desc (narrow filters notes)).

(** [fs.unlink] inside [try]/[catch]: the error of a missing file
    ([ENOENT]) is dropped, any other one is thrown again. *)
Definition deleteFile (i : string) : Js unit :=
  await _ := fs_call in
  await txt := read (fun w => files w !! i) in
  match txt with
  | Some _ => write (fun w => with_files (delete i (files w)) w)
  | None => ret tt
  end.

End FileAdapter.

(** ** The Firestore collection [notes]

    A document is addressed by its name and holds the fields of a note.
    The order in which a query snapshot lists documents is the one of
    [map_to_list]. *)

Module Firestore.

(** [firestore.collection('notes').doc(id).get()], then [snap.exists] and
    [snap.data()]. *)
Definition doc_get (i : string) : Js (option Note) :=
  await _ := cloud_call in
  read (fun w => match firestore w with
                 | Some docs => docs !! i
                 | None => None
                 end).

(** [doc(note.id).set(note, { merge: true })]: every field of the document
    is written, under the name [note.id]. *)
Definition doc_set (note : Note) : Js unit :=
  await _ := cloud_call in
  write (fun w => with_firestore (insert (id note) note <$> firestore w) w).

(** [q.get()] with [q] the collection, narrowed by [where('uid', '==', u)]
    when the filter has an owner; then [snap.docs.map(d => d.data())]. *)
Definition narrowed (owner : option string) (docs : gmap string Note) : list Note :=
  List.filter
    (fun n => match owner with
              | Some u => bool_decide (uid n = Some u)
              | None => true
              end)
    (List.map snd (map_to_list docs)).

Definition query (owner : option string) : Js (list Note) :=
  await _ := cloud_call in
  read (fun w => match firestore w with
                 | Some docs => narrowed owner docs
                 | None => []
                 end).

End Firestore.

(** ** adapters/dualAdapter.js *)

Module DualAdapter.

(** [admin.firestore()] throws until the admin SDK is initialised; the
    handle it returns otherwise is the one [Firestore] works on. *)
Definition getFirestoreSafe : Js bool :=
  read (fun w => match firestore w with Some _ => true | None => false end).

Definition matchesFilters (note : Note) (filters : Filters) : bool :=
  if negb (f_includeDeleted filters) && isDeleted note then false
  else if match JsValue.truthy_string (f_uid filters) with
          | Some u => negb (bool_decide (uid note = Some u))
          | None => false
          end then false
  else if match JsValue.truthy_string (f_q filters) with
          | Some s =>
              let q := JsValue.toLowerCase s in
              negb (JsValue.includes (JsValue.toLowerCase (title note)) q
                    || JsValue.includes (JsValue.toLowerCase (body note)) q)
          | None => false
          end then false
  else if match JsValue.truthy_number (f_updatedAfter filters) with
          | Some t => Z.leb (JsValue.or_zero (updatedAt note)) t
          | None => false
          end then false
  else if match JsValue.truthy_number (f_dateFrom filters) with
          | Some d => negb (match JsValue.truthy_number (date note) with
                            | Some v => Z.leb d v
                            | None => false
                            end)
          | None => false
          end then false
  else if match JsValue.truthy_number (f_dateTo filters) with
          | Some d => negb (match JsValue.truthy_number (date note) with
                            | Some v => Z.leb v d
                            | None => false
                            end)
          | None => false
          end then false
  else if match JsValue.truthy_string (f_time filters) with
          | Some s => negb (bool_decide (time note = Some s))
          | None => false
          end then false
  else match f_tags filters with
       | Some (t :: ts) => forallb (JsValue.array_includes (tags note)) (t :: ts)
       | _ => true
       end.

(** The local copy made of a note found in Firestore: SQLite first, the
    file after it, any failure logged and dropped. *)
Definition cache_locally (note : Note) : Js unit :=
  try_catch
    (await _ := SqliteAdapter.upsert note in
     FileAdapter.upsert note)
    (fun _ => ret tt).

Definition get (i : string) : Js (option Note) :=
  await local := SqliteAdapter.get i in
  match local with
  | Some n => ret (Some n)
  | None =>
      await firestore := getFirestoreSafe in
      if negb firestore then ret None
      else
        try_catch
          (await snap := Firestore.doc_get i in
           match snap with
           | None => ret None
           | Some note =>
               await _ := cache_locally note in
               ret (Some note)
           end)
          (fun _ => ret None)
  end.

(** [await Promise.all([a, b])]: both computations run to their end; the
    result rejects when one of them did.  The two writes of [upsert] touch
    different tiers, so the order in which they are run here is not
    observable. *)
Definition Promise_all2 (a b : Js unit) : Js unit :=
  fun w => match a w with
           | (ra, w1) =>
               match b w1 with
               | (rb, w2) =>
                   match ra, rb with
                   | Throw e, _ => (Throw e, w2)
                   | Normal _, Throw e => (Throw e, w2)
                   | Normal _, Normal _ => (Normal tt, w2)
                   end
               end
           end.

Definition upsert (note : Note) : Js unit :=
  await _ := Promise_all2 (SqliteAdapter.upsert note) (FileAdapter.upsert note) in
  await firestore := getFirestoreSafe in
  if negb firestore then ret tt
  else try_catch (Firestore.doc_set note) (fun _ => ret tt).

(** The loop of [find] over the filtered remote notes: a note whose id is
    not among the local ones is appended to [merged] and cached. *)
Fixpoint merge_remote (mapLocal : gset string) (filteredRemote : list Note)
    (merged : list Note) : Js (list Note) :=
  match filteredRemote with
  | [] => ret merged
  | rn :: rest =>
      if bool_decide (id rn ∈ mapLocal) then merge_remote mapLocal rest merged
      else
        await _ := cache_locally rn in
        merge_remote mapLocal rest (merged ++ [rn])
  end.

(** The comparator of [merged.sort]. *)
Definition by_updatedAt_desc (a b : Note) : Z :=
  JsValue.or_zero (updatedAt b) - JsValue.or_zero (updatedAt a).

Definition find (filters : Filters) : Js (list Note) :=
  await localNotes := SqliteAdapter.find filters in
  await firestore := getFirestoreSafe in
  if negb firestore then ret localNotes
  else
    try_catch
      (await remoteNotes := Firestore.query (JsValue.truthy_string (f_uid filters)) in
       let filteredRemote := List.filter (fun n => matchesFilters n filters) remoteNotes in
       let mapLocal : gset string := list_to_set (List.map id localNotes) in
       await merged := merge_remote mapLocal filteredRemote localNotes in
       ret (sort by_updatedAt_desc merged))
      (fun _ => ret localNotes).

End DualAdapter.

(** ** routes/sync.js *)

Module Sync.

Inductive Status :=
| created
| updated
| skipped_server_newer
| forbidden_owner_mismatch.

Record PushResult := mkResult { res_id : string; res_status : Status }.

(** [req.body.notes]: missing, an array of notes, or any other value. *)
Inductive NotesField :=
| NotesMissing
| NotesOther (v : string)
| NotesArray (l : list RawNote).

Record PushRequest := mkPushRequest {
  push_user : option User;
  push_notes : NotesField
}.

(** [res.json({ ok: true, results })] or
    [res.status(500).json({ error: 'server_error' })]. *)
Inductive PushResponse :=
| PushOk (results : list PushResult)
| PushServerError.

Record PullRequest := mkPullRequest {
  pull_user : option User;
  pull_lastSync : option Z
}.

Inductive PullResponse :=
| PullOk (notes : list Note)
| PullServerError.

Definition default {A} (o : option A) (d : A) : A :=
  match o with
  | Some a => a
  | None => d
  end.

(** [user?.uid ?? body.uid ?? null] *)
Definition owner_of (body : RawNote) (user : option User) : option string :=
  match user with
  | Some u =>
      match user_uid u with
      | Some c => Some c
      | None => raw_uid body
      end
  | None => raw_uid body
  end.

Definition normalizeNoteInput (body : RawNote) (user : option User) : Js Note :=
  await i := nullish_or (raw_id body) nanoid in
  await c := nullish_or (raw_createdAt body) Date_now in
  await u := nullish_or (raw_updatedAt body) Date_now in
  ret {| id := i;
         uid := owner_of body user;
         title := default (raw_title body) EmptyString;
         body := default (raw_body body) EmptyString;
         createdAt := c;
         updatedAt := u;
         date := raw_date body;
         time := raw_time body;
         tags := match raw_tags body with
                 | TagsArray l => l
                 | TagsScalar s => if JsValue.nonempty s then JsValue.csv_tags s else []
                 | TagsMissing => []
                 end;
         isDeleted := raw_isDeleted body |}.

(** [existing.uid !== req.user.uid]: a stored owner is a string or [null],
    the caller's uid a string or [undefined], and [null !== undefined]. *)
Definition strict_ne (stored caller : option string) : bool :=
  match stored, caller with
  | Some a, Some b => negb (String.eqb a b)
  | _, _ => true
  end.

(** The body of the loop of [/push] for one submitted note. *)
Definition push_note (user : User) (raw : RawNote) : Js PushResult :=
  await note := normalizeNoteInput raw (Some user) in
  await existing := DualAdapter.get (id note) in
  match existing with
  | None =>
      await _ := DualAdapter.upsert note in
      ret (mkResult (id note) created)
  | Some ex =>
      if strict_ne (uid ex) (user_uid user) then
        ret (mkResult (id note) forbidden_owner_mismatch)
      else if Z.ltb (updatedAt ex) (updatedAt note) then
        await _ := DualAdapter.upsert note in
        ret (mkResult (id note) updated)
      else
        ret (mkResult (id note) skipped_server_newer)
  end.

Fixpoint push_loop (user : User) (notes : list RawNote) (results : list PushResult)
    : Js (list PushResult) :=
  match notes with
  | [] => ret results
  | raw :: rest =>
      await r := push_note user raw in
      push_loop user rest (results ++ [r])
  end.

(** [req.user.uid], a [TypeError] when [req.user] is undefined. *)
Definition the_user (u : option User) : Js User :=
  match u with
  | Some v => ret v
  | None => throw TypeError
  end.

(** [router.post('/push', ...)] *)
Definition push (req : PushRequest) : Js PushResponse :=
  try_catch
    (let notes := match push_notes req with
                  | NotesArray l => l
                  | _ => []
                  end in
     await user := the_user (push_user req) in
     await results := push_loop user notes [] in
     ret (PushOk results))
    (fun _ => ret PushServerError).

(** [router.get('/pull', ...)] *)
Definition pull (req : PullRequest) : Js PullResponse :=
  try_catch
    (let lastSync := default (JsValue.truthy_number (pull_lastSync req)) 0 in
     await user := the_user (pull_user req) in
     await notes := DualAdapter.find
                      {| f_includeDeleted := true;
                         f_uid := user_uid user;
                         f_q := None;
                         f_updatedAfter := Some lastSync;
                         f_dateFrom := None;
                         f_dateTo := None;
                         f_time := None;
                         f_tags := None |} in
     ret (PullOk notes))
    (fun _ => ret PullServerError).

End Sync.

(** ** routes/notes.js *)

Module Notes.

(** The answers of the handlers: the status code and what the body
    carries. *)
Inductive Response :=
| Unauthorized                 (* 401 { error: 'unauthorized' } *)
| NotFound                     (* 404 { error: 'not_found' } *)
| Forbidden                    (* 403 { error: 'forbidden' } *)
| OkNote (n : Note)            (* 200, the note *)
| OkNotes (l : list Note)      (* 200, the notes *)
| Created (n : Note)           (* 201, the note *)
| OkTrue                       (* 200 { ok: true } *)
| ServerError.                 (* 500 { error: 'server_error' } *)

(** [!req.user || !req.user.uid] fails exactly for a user with a
    non-empty uid, which is then [req.user.uid]. *)
Definition caller (user : option User) : option string :=
  match user with
  | Some u => JsValue.truthy_string (user_uid u)
  | None => None
  end.

(** The same function as in routes/sync.js ([isDeleted] is written
    [body.isDeleted ? true : false] here). *)
Definition normalizeNoteInput : RawNote → option User → Js Note :=
  Sync.normalizeNoteInput.

(** The query string of [GET /notes].  [q_updatedAfter] is the number
    that [Number] reads from the parameter: nothing when the parameter is
    missing or empty or is not a number ([NaN] is falsy for every
    adapter). *)
Record Query := mkQuery {
  q_q : option string;
  q_dateFrom : option string;
  q_dateTo : option string;
  q_time : option string;
  q_tags : option string;
  q_updatedAfter : option Z;
  q_includeDeleted : option string
}.

Section List.

(** [new Date(day + 'T00:00:00').getTime()] and
    [new Date(day + 'T23:59:59').getTime()], read in the time zone of the
    server; nothing for an invalid date ([NaN]). *)
Variables start_of_day end_of_day : string → option Z.

(** The filter object [GET /notes] builds from the query and the caller. *)
Definition filters_of (query : Query) (c : string) : Filters :=
  {| f_includeDeleted :=
       match q_includeDeleted query with
       | Some v => String.eqb v "1" || String.eqb v "true"
       | None => false
       end;
     f_uid := Some c;
     f_q := q_q query;
     f_updatedAfter := q_updatedAfter query;
     f_dateFrom := match JsValue.truthy_string (q_dateFrom query) with
                   | Some day => start_of_day day
                   | None => None
                   end;
     f_dateTo := match JsValue.truthy_string (q_dateTo query) with
                 | Some day => end_of_day day
                 | None => None
                 end;
     f_time := q_time query;
     f_tags := match JsValue.truthy_string (q_tags query) with
               | Some v => Some (JsValue.csv_tags v)
               | None => None
               end |}.

(** [router.get('/', ...)] *)
Definition get_list (user : option User) (query : Query) : Js Response :=
  try_catch
    (match caller user with
     | None => ret Unauthorized
     | Some c =>
         await notes := DualAdapter.find (filters_of query c) in
         ret (OkNotes notes)
     end)
    (fun _ => ret ServerError).

End List.

(** [router.get('/:id', ...)] *)
Definition get_by_id (user : option User) (i : string) : Js Response :=
  try_catch
    (match caller user with
     | None => ret Unauthorized
     | Some c =>
         await note := DualAdapter.get i in
         match note with
         | None => ret NotFound
         | Some n =>
             if Sync.strict_ne (uid n) (Some c) then ret Forbidden
             else ret (OkNote n)
         end
     end)
    (fun _ => ret ServerError).

(** [router.post('/', ...)] *)
Definition post (user : option User) (body : RawNote) : Js Response :=
  try_catch
    (match caller user with
     | None => ret Unauthorized
     | Some _ =>
         await note := normalizeNoteInput body user in
         await _ := DualAdapter.upsert note in
         ret (Created note)
     end)
    (fun _ => ret ServerError).

(** The fields of a note a [PUT] body may carry, each with a value of the
    note's type; [date] and [time] may be sent as [null].  The fields
    [id], [uid] and [updatedAt] of a body are overwritten by the handler
    and are left out. *)
Record Patch := mkPatch {
  p_title : option string;
  p_body : option string;
  p_createdAt : option Z;
  p_date : option (option Z);
  p_time : option (option string);
  p_tags : option (list string);
  p_isDeleted : option bool
}.

(** [{ ...existing, ...req.body, id, uid: req.user.uid, updatedAt: now }] *)
Definition merged (existing : Note) (patch : Patch) (i c : string) (now : Z) : Note :=
  {| id := i;
     uid := Some c;
     title := Sync.default (p_title patch) (title existing);
     body := Sync.default (p_body patch) (body existing);
     createdAt := Sync.default (p_createdAt patch) (createdAt existing);
     updatedAt := now;
     date := Sync.default (p_date patch) (date existing);
     time := Sync.default (p_time patch) (time existing);
     tags := Sync.default (p_tags patch) (tags existing);
     isDeleted := Sync.default (p_isDeleted patch) (isDeleted existing) |}.

(** [router.put('/:id', ...)] *)
Definition put (user : option User) (i : string) (patch : Patch) : Js Response :=
  try_catch
    (match caller user with
     | None => ret Unauthorized
     | Some c =>
         await existing := DualAdapter.get i in
         match existing with
         | None => ret NotFound
         | Some ex =>
             if Sync.strict_ne (uid ex) (Some c) then ret Forbidden
             else
               await now := Date_now in
               await _ := DualAdapter.upsert (merged ex patch i c now) in
               ret (OkNote (merged ex patch i c now))
         end
     end)
    (fun _ => ret ServerError).

(** [existing.isDeleted = true; existing.updatedAt = Date.now()] *)
Definition tombstone (existing : Note) (now : Z) : Note :=
  {| id := id existing;
     uid := uid existing;
     title := title existing;
     body := body existing;
     createdAt := createdAt existing;
     updatedAt := now;
     date := date existing;
     time := time existing;
     tags := tags existing;
     isDeleted := true |}.

(** [router.delete('/:id', ...)] *)
Definition delete (user : option User) (i : string) : Js Response :=
  try_catch
    (match caller user with
     | None => ret Unauthorized
     | Some c =>
         await existing := DualAdapter.get i in
         match existing with
         | None => ret NotFound
         | Some ex =>
             if Sync.strict_ne (uid ex) (Some c) then ret Forbidden
             else
               await now := Date_now in
               await _ := DualAdapter.upsert (tombstone ex now) in
               ret OkTrue
         end
     end)
    (fun _ => ret ServerError).

End Notes.

(** ** middleware/auth.js *)

Module Auth.

Inductive Verdict :=
| Next (user : User)                (* req.user = decoded; next() *)
| NoAuthorizationHeader             (* 401, reason no_authorization_header *)
| BadAuthorizationFormat            (* 401, reason bad_authorization_format *)
| InvalidToken.                     (* 401 { error: 'invalid_token' } *)

Definition space : ascii := ascii_of_nat 32.

Section Middleware.

(** [admin.auth().verifyIdToken]: the decoded token, or nothing when the
    call rejects. *)
Variable verifyIdToken : string → option User.

(** [authMiddleware], on the value of the [Authorization] header. *)
Definition authMiddleware (header : option string) : Verdict :=
  match JsValue.truthy_string header with
  | None => NoAuthorizationHeader
  | Some h =>
      match JsValue.split space h with
      | [scheme; token] =>
          if String.eqb (JsValue.toLowerCase scheme) "bearer" then
            match verifyIdToken token with
            | Some decoded => Next decoded
            | None => InvalidToken
            end
          else BadAuthorizationFormat
      | _ => BadAuthorizationFormat
      end
  end.

End Middleware.

End Auth.

(** ** server.js: the middleware in front of the two routers *)

Module Server.

Inductive Route :=
| ListNotes (query : Notes.Query)                 (* GET /notes *)
| GetNote (i : string)                            (* GET /notes/:id *)
| PostNote (body : RawNote)                       (* POST /notes *)
| PutNote (i : string) (patch : Notes.Patch)      (* PUT /notes/:id *)
| DeleteNote (i : string)                         (* DELETE /notes/:id *)
| SyncPush (notes : Sync.NotesField)              (* POST /sync/push *)
| SyncPull (lastSync : option Z).                 (* GET /sync/pull *)

Record Request := mkRequest {
  authorization : option string;
  route : Route
}.

Inductive Answer :=
| Rejected (v : Auth.Verdict)          (* the 401 of the middleware *)
| NotesAnswer (r : Notes.Response)
| PushAnswer (r : Sync.PushResponse)
| PullAnswer (r : Sync.PullResponse).

Section Handle.

Variable verifyIdToken : string → option User.
Variables start_of_day end_of_day : string → option Z.

(** [app.use('/notes', registerNotesRoutes(...))] and
    [app.use('/sync', registerSyncRoutes(...))], with [req.user] set. *)
Definition dispatch (user : User) (r : Route) : Js Answer :=
  match r with
  | ListNotes query =>
      await a := Notes.get_list start_of_day end_of_day (Some user) query in
      ret (NotesAnswer a)
  | GetNote i => await a := Notes.get_by_id (Some user) i in ret (NotesAnswer a)
  | PostNote body => await a := Notes.post (Some user) body in ret (NotesAnswer a)
  | PutNote i patch => await a := Notes.put (Some user) i patch in ret (NotesAnswer a)
  | DeleteNote i => await a := Notes.delete (Some user) i in ret (NotesAnswer a)
  | SyncPush notes =>
      await a := Sync.push (Sync.mkPushRequest (Some user) notes) in ret (PushAnswer a)
  | SyncPull lastSync =>
      await a := Sync.pull (Sync.mkPullRequest (Some user) lastSync) in ret (PullAnswer a)
  end.

(** [app.use('/notes', authMiddleware)] and [app.use('/sync', authMiddleware)]
    in front of the routers: a request the middleware answers never
    reaches a route. *)
Definition handle (req : Request) : Js Answer :=
  match Auth.authMiddleware verifyIdToken (authorization req) with
  | Auth.Next user => dispatch user (route req)
  | v => ret (Rejected v)
  end.

(** Requests served one after the other: the answers, and the world they
    leave. *)
Fixpoint run (reqs : list Request) (w : World) : list (Completion Answer) * World :=
  match reqs with
  | [] => ([], w)
  | req :: rest =>
      ((handle req w).1 :: (run rest (handle req w).2).1, (run rest (handle req w).2).2)
  end.

End Handle.

End Server.

(** ** Worked runs *)

Module Runs.
Import Sync.

Definition quiet (cloud : option (gmap string Note)) : World :=
  {| sqlite := ∅; files := ∅; firestore := cloud;
     sql_faults := []; file_faults := []; cloud_faults := [];
     nanoid_src := fun _ => "fresh"; nanoid_calls := 0;
     clock := fun n => 1000 + Z.of_nat n; clock_reads := 0 |}.

Definition raw (i t : string) (u : Z) : RawNote :=
  {| raw_id := Some i; raw_uid := None; raw_title := Some t; raw_body := None;
     raw_createdAt := Some 1; raw_updatedAt := Some u; raw_date := None;
     raw_time := None; raw_tags := TagsMissing; raw_isDeleted := false |}.

Definition u1 : User := mkUser (Some "u1").
Definition u2 : User := mkUser (Some "u2").

(** The filter of a plain [GET /notes] by [u1]. *)
Definition mine : Filters :=
  mkFilters false (Some "u1") None None None None None None.

Definition note (i o t : string) (u : Z) (gone : bool) : Note :=
  {| id := i; uid := Some o; title := t; body := EmptyString; createdAt := 1;
     updatedAt := u; date := None; time := None; tags := []; isDeleted := gone |}.

(** A world whose next file write fails. *)
Definition mirror_down : World := with_file_faults [true] (quiet None).

(** The primary store holds one note of owner [u1], deleted, updated at 0. *)
Definition buried : World :=
  with_sqlite {[ "n0" := SqliteAdapter.row_of_note (note "n0" "u1" "old" 0 true) ]}
    (quiet None).

(** The primary store holds note [n1] of owner [u1]. *)
Definition owned_by_u1 : World :=
  with_sqlite {[ "n1" := SqliteAdapter.row_of_note (note "n1" "u1" "A" 100 false) ]}
    (quiet None).

(** A world whose fourth SQLite statement fails. *)
Definition flaky : World := with_sql_faults [false; false; false; true] (quiet None).

(** The primary store holds note [n1] deleted at 200; the replica still
    holds the copy of [n1] updated at 100, not deleted. *)
Definition stale_replica : World :=
  with_sqlite {[ "n1" := SqliteAdapter.row_of_note (note "n1" "u1" "A" 200 true) ]}
    (quiet (Some {[ "n1" := note "n1" "u1" "A" 100 false ]})).

(** The replica alone holds note [n1]. *)
Definition replica_only : World :=
  quiet (Some {[ "n1" := note "n1" "u1" "A" 100 false ]}).

(** The primary store holds note [b], the replica holds note [a], both of
    owner [u1] and both updated at 5. *)
Definition tied : World :=
  with_sqlite {[ "b" := SqliteAdapter.row_of_note (note "b" "u1" "B" 5 false) ]}
    (quiet (Some {[ "a" := note "a" "u1" "A" 5 false ]})).

(** The world two requests of [u1] leave behind, [POST /notes] with note
    [n1] and then [DELETE /notes/n1], when the write to the replica fails
    during the second: the primary store holds [n1] deleted, the replica
    still holds [n1] as it was posted. *)
Definition interrupted_delete : World :=
  (Notes.delete (Some u1) "n1"
     (Notes.post (Some u1) (raw "n1" "A" 100)
        (with_cloud_faults [false; true] (quiet (Some ∅)))).2).2.

End Runs.

(** ** Observations of a world *)

(** A computation that changed at most the schedule of SQLite faults. *)
Definition SqlOnly (w w' : World) : Prop := ∃ l, w' = with_sql_faults l w.


(** The record the primary store holds under an id. *)
Definition local_record (w : World) (i : string) : option Note :=
  SqliteAdapter.note_of_row i <$> sqlite w !! i.

(** The document the remote replica holds under a name. *)
Definition remote_doc (w : World) (i : string) : option Note :=
  match firestore w with
  | Some docs => docs !! i
  | None => None
  end.

(** What the next read of the remote replica answers for a name: nothing
    when the replica is not configured or the read is due to fail. *)
Definition remote_record (w : World) (i : string) : option Note :=
  match cloud_faults w with
  | true :: _ => None
  | _ => remote_doc w i
  end.

(** The server record of an id: the primary store's, else the replica's. *)
Definition server_record (w : World) (i : string) : option Note :=
  match local_record w i with
  | Some n => Some n
  | None => remote_record w i
  end.

(** Every document of the replica is named by the id it holds, as
    [Firestore.doc_set] writes them. *)
Definition remote_keyed (w : World) : Prop :=
  ∀ k n, remote_doc w k = Some n → id n = k.

(** No SQLite statement is due to fail. *)
Definition sql_quiet (w : World) : Prop := sql_faults w = [].

(** ** The filter semantics in the specification's words *)

(** Case-insensitive containment, on ASCII text: the lower-cased query
    occurs somewhere in the lower-cased text. *)
Definition ci_substring (q text : string) : Prop :=
  ∃ pre post,
    JsValue.toLowerCase text
    = String.append pre (String.append (JsValue.toLowerCase q) post).

Section Satisfies.

(** Which values of an optional filter field count as a supplied
    predicate. *)
Variable supplied_string : option string → option string.
Variable supplied_number : option Z → option Z.

(** A note satisfies every supplied predicate of a filter. *)
Definition satisfies (note : Note) (filters : Filters) : Prop :=
  (f_includeDeleted filters = false → isDeleted note = false)
  ∧ (∀ x, supplied_string (f_uid filters) = Some x → uid note = Some x)
  ∧ (∀ s, supplied_string (f_q filters) = Some s →
       ci_substring s (title note) ∨ ci_substring s (body note))
  ∧ (∀ t, supplied_number (f_updatedAfter filters) = Some t → t < updatedAt note)
  ∧ (∀ d, supplied_number (f_dateFrom filters) = Some d →
       ∃ v, date note = Some v ∧ d ≤ v)
  ∧ (∀ d, supplied_number (f_dateTo filters) = Some d →
       ∃ v, date note = Some v ∧ v ≤ d)
  ∧ (∀ s, supplied_string (f_time filters) = Some s → time note = Some s)
  ∧ (∀ ts, f_tags filters = Some ts → ∀ t, t ∈ ts → t ∈ tags note).

End Satisfies.

(** Every field present in the filter is a supplied predicate. *)
Definition satisfies_supplied : Note → Filters → Prop :=
  satisfies (fun o => o) (fun o => o).

(** Only a truthy field (a non-empty string, a non-zero number) is a
    supplied predicate. *)
Definition satisfies_truthy : Note → Filters → Prop :=
  satisfies JsValue.truthy_string JsValue.truthy_number.

(** ** The result sets a search merges *)

(** What the primary store answers to a filter. *)
Definition local_matches (f : Filters) (w : World) : list Note :=
  SqliteAdapter.select (SqliteAdapter.where_clauses f) (sqlite w).

(** What the replica holds that passes the filter. *)
Definition remote_matches (f : Filters) (w : World) : list Note :=
  List.filter (fun n => DualAdapter.matchesFilters n f)
    (match firestore w with
     | Some docs => Firestore.narrowed (JsValue.truthy_string (f_uid f)) docs
     | None => []
     end).

Definition local_ids (f : Filters) (w : World) : gset string :=
  list_to_set (List.map id (local_matches f w)).

(** The remote matches whose id no local match has. *)
Definition remote_only (f : Filters) (w : World) : list Note :=
  List.filter (fun rn => negb (bool_decide (id rn ∈ local_ids f w))) (remote_matches f w).

(** The merged list before it is sorted. *)
Definition merge_order (f : Filters) (w : World) : list Note :=
  local_matches f w ++ remote_only f w.

(** The order the specification states for a merged result: [updatedAt]
    descending, and [id] ascending among equal [updatedAt]. *)
Definition spec_order (a b : Note) : Prop :=
  updatedAt b < updatedAt a
  ∨ (updatedAt a = updatedAt b ∧ String.compare (id a) (id b) ≠ Gt).

Definition same_time (t : Z) (n : Note) : bool := Z.eqb (updatedAt n) t.

(** Whether the next query of the replica is answered: the replica is
    configured and the query is not due to fail. *)
Definition remote_answers (w : World) : bool :=
  match firestore w, cloud_faults w with
  | Some _, true :: _ => false
  | Some _, _ => true
  | None, _ => false
  end.

(** The filter [/pull] hands to [find]. *)
Definition pull_filters (caller : option string) (lastSync : Z) : Filters :=
  {| f_includeDeleted := true;
     f_uid := caller;
     f_q := None;
     f_updatedAfter := Some lastSync;
     f_dateFrom := None;
     f_dateTo := None;
     f_time := None;
     f_tags := None |}.

(** ** The merge in the specification's words *)

(** Whenever both tiers hold a record of an id, the local copy is the one
    of that id in the result of a search. *)
Definition local_copy_wins (f : Filters) (w : World) : Prop :=
  ∀ l, (DualAdapter.find f w).1 = Normal l →
    ∀ n d, local_record w (id n) = Some n → remote_doc w (id n) = Some d →
      ∀ m, m ∈ l → id m = id n → m = n.

(** ** Pushes *)

(** After a push that stores nothing, the replica is as before, and so is
    the table, unless the server record [ex] came from the replica and
    its local copy was made. *)
Definition retained (i : string) (ex : Note) (w w' : World) : Prop :=
  firestore w' = firestore w
  ∧ (sqlite w' = sqlite w
     ∨ (sqlite w !! i = None
        ∧ sqlite w' = <[i := SqliteAdapter.row_of_note ex]> (sqlite w))).

(** The body a client submits for a complete note. *)
Definition raw_of_note (n : Note) : RawNote :=
  {| raw_id := Some (id n); raw_uid := uid n; raw_title := Some (title n);
     raw_body := Some (body n); raw_createdAt := Some (createdAt n);
     raw_updatedAt := Some (updatedAt n); raw_date := date n; raw_time := time n;
     raw_tags := TagsArray (tags n); raw_isDeleted := isDeleted n |}.

(** One push request carrying the given notes. *)
Definition push_batch (user : User) (notes : list RawNote) : Js Sync.PushResponse :=
  Sync.push (Sync.mkPushRequest (Some user) (Sync.NotesArray notes)).

(** The notes pushed one request at a time, in order; the results of the
    requests answered [ok] are collected. *)
Fixpoint push_singly (user : User) (notes : list RawNote) (w : World)
    : list Sync.PushResult * World :=
  match notes with
  | [] => ([], w)
  | raw :: rest =>
      match push_batch user [raw] w with
      | (Normal (Sync.PushOk rs), w1) =>
          (rs ++ (push_singly user rest w1).1, (push_singly user rest w1).2)
      | (_, w1) => push_singly user rest w1
      end
  end.

(** The processing of one pushed note is cut short by SQLite: the
    statement that looks the note up in the primary store fails, or the
    lookup answers, the note is to be stored (there is no server record,
    or one of the caller that is older) and a statement that stores it in
    the primary store fails. *)
Definition cut_short (user : User) (raw : RawNote) (w : World) : Prop :=
  ∃ note w0,
    Sync.normalizeNoteInput raw (Some user) w = (Normal note, w0)
    ∧ ((SqliteAdapter.get (id note) w0).1 = Throw SqlError
       ∨ ∃ existing w2,
           DualAdapter.get (id note) w0 = (Normal existing, w2)
           ∧ (∀ ex, existing = Some ex →
                Sync.strict_ne (uid ex) (user_uid user) = false
                ∧ updatedAt ex < updatedAt note)
           ∧ (SqliteAdapter.upsert note w2).1 = Throw SqlError).

(** A batch answered in full: one result per note, in the order of the
    input, each the result of pushing that note alone after the notes
    before it. *)
Definition answered_in_full (user : User) (notes : list RawNote) (w : World) : Prop :=
  ∃ results,
    (push_batch user notes w).1 = Normal (Sync.PushOk results)
    ∧ List.length results = List.length notes
    ∧ Forall2 (fun raw x => ∀ i, raw_id raw = Some i → Sync.res_id x = i) notes results
    ∧ (results, (push_batch user notes w).2) = push_singly user notes w.

(** A batch ended at its note number [k] (from 0): the notes before it
    were processed as a batch of their own is, leaving the world [w1]; the
    processing of note [k] is cut short there; the answer is
    [server_error]; the world is the one note [k] leaves, which is the
    world the batch without the notes after [k] leaves; and in that world
    the replica is as in [w1] and every row the table held in [w1] is
    still there, when the replica is keyed by id. *)
Definition ended_at (user : User) (notes : list RawNote) (w : World) (k : nat) : Prop :=
  ∃ raw results w1,
    notes !! k = Some raw
    ∧ push_batch user (take k notes) w = (Normal (Sync.PushOk results), w1)
    ∧ List.length results = k
    ∧ (results, w1) = push_singly user (take k notes) w
    ∧ cut_short user raw w1
    ∧ ¬ sql_quiet w1
    ∧ push_batch user notes w
      = (Normal Sync.PushServerError, (Sync.push_note user raw w1).2)
    ∧ push_batch user (take (S k) notes) w = push_batch user notes w
    ∧ (remote_keyed w →
       firestore (push_batch user notes w).2 = firestore w1
       ∧ ∀ j r, sqlite w1 !! j = Some r →
                sqlite (push_batch user notes w).2 !! j = Some r).

(** A sequence of push requests by one caller: the responses, and the
    world they leave. *)
Fixpoint push_sequence (user : User) (batches : list (list RawNote)) (w : World)
    : list (Completion Sync.PushResponse) * World :=
  match batches with
  | [] => ([], w)
  | notes :: rest =>
      ((push_batch user notes w).1 :: (push_sequence user rest (push_batch user notes w).2).1,
       (push_sequence user rest (push_batch user notes w).2).2)
  end.

(** Every result a response holds for the id [i] is a refusal. *)
Definition refuses (i : string) (r : Completion Sync.PushResponse) : Prop :=
  ∀ results, r = Normal (Sync.PushOk results) →
    ∀ x, x ∈ results → Sync.res_id x = i →
         Sync.res_status x = Sync.forbidden_owner_mismatch.

(** Two worlds with the same table, the same replica and the same faults
    to come on both. *)
Definition same_stores (w w0 : World) : Prop :=
  sqlite w0 = sqlite w
  ∧ firestore w0 = firestore w
  ∧ sql_faults w0 = sql_faults w
  ∧ cloud_faults w0 = cloud_faults w.

(** The primary store holds row [r] under [i], the replica holds [d]
    under [i], and the replica is keyed. *)
Definition holds_record (i : string) (r : Row) (d : option Note) (w : World) : Prop :=
  sqlite w !! i = Some r ∧ remote_doc w i = d ∧ remote_keyed w.

(** The table after the rows of the given notes were written in order. *)
Definition cached (l : list Note) (t : gmap string Row) : gmap string Row :=
  foldl (fun t rn => <[id rn := SqliteAdapter.row_of_note rn]> t) t l.

(** ** Tags in normal form, refusals *)

(** Whether a character occurs in a string. *)
Fixpoint mentions (c : ascii) (s : string) : bool :=
  match s with
  | EmptyString => false
  | String d s' => Ascii.eqb d c || mentions c s'
  end.

(** [Array.prototype.join] with a one-character separator. *)
Fixpoint join (sep : ascii) (l : list string) : string :=
  match l with
  | [] => EmptyString
  | [x] => x
  | x :: rest => String.append x (String sep (join sep rest))
  end.

(** A tag in normal form: ASCII text, not empty, no white space at either
    end, no comma. *)
Definition clean_tag (t : string) : Prop :=
  JsValue.ascii_text t = true
  ∧ t ≠ EmptyString ∧ JsValue.trim t = t ∧ mentions JsValue.comma t = false.

(** A handler of [/notes] turned the request down: 401, 403 or 500. *)
Definition denied (r : Completion Notes.Response) : Prop :=
  r = Normal Notes.Unauthorized ∨ r = Normal Notes.Forbidden ∨ r = Normal Notes.ServerError.

(** ** Invariants of the stores *)

(** A computation that keeps an invariant of the world, whether it
    returns or throws. *)
Definition preserves {A} (P : World → Prop) (m : Js A) : Prop :=
  ∀ w, P w → P (m w).2.

(** The three tiers hold the notes [docs], named after their ids, and no
    I/O operation is due to fail: the replica and the files hold [docs],
    the table holds their rows. *)
Definition mirrors (docs : gmap string Note) (w : World) : Prop :=
  sql_faults w = [] ∧ file_faults w = [] ∧ cloud_faults w = []
  ∧ firestore w = Some docs
  ∧ files w = docs
  ∧ sqlite w = SqliteAdapter.row_of_note <$> docs
  ∧ ∀ k n, docs !! k = Some n → id n = k.

(** The three tiers are in step. *)
Definition in_step (w : World) : Prop := ∃ docs, mirrors docs w.

(** A computation that, from a world satisfying [P], returns a value
    satisfying [Q] in a world satisfying [P]. *)
Definition steady {A} (P : World → Prop) (m : Js A) (Q : A → Prop) : Prop :=
  ∀ w, P w → ∃ a w', m w = (Normal a, w') ∧ P w' ∧ Q a.

(** An answer other than a 500. *)
Definition served (a : Completion Server.Answer) : Prop :=
  ∃ x, a = Normal x
       ∧ x ≠ Server.NotesAnswer Notes.ServerError
       ∧ x ≠ Server.PushAnswer Sync.PushServerError
       ∧ x ≠ Server.PullAnswer Sync.PullServerError.

(** * Properties *)

(** ** The monad and the I/O primitives *)

Lemma bind_ret {A B} (a : A) (k : A → Js B) (w : World) : bind (ret a) k w = k a w.
Proof. reflexivity. Qed.

Lemma bind_read {A B} (f : World → A) (k : A → Js B) (w : World) :
  bind (read f) k w = k (f w) w.
Proof. reflexivity. Qed.

Lemma bind_normal {A B} (m : Js A) (k : A → Js B) (w w1 : World) (a : A) :
  m w = (Normal a, w1) → bind m k w = k a w1.
Proof. intros H. unfold bind. now rewrite H. Qed.

Lemma bind_throw {A B} (m : Js A) (k : A → Js B) (w w1 : World) (e : Exn) :
  m w = (Throw e, w1) → bind m k w = (Throw e, w1).
Proof. intros H. unfold bind. now rewrite H. Qed.

Lemma try_throw {A} (m : Js A) (h : Exn → Js A) (w w1 : World) (e : Exn) :
  m w = (Throw e, w1) → try_catch m h w = h e w1.
Proof. intros H. unfold try_catch. now rewrite H. Qed.

Ltac unfold_with :=
  unfold with_sqlite, with_files, with_firestore, with_sql_faults, with_file_faults,
    with_cloud_faults, with_nanoid_calls, with_clock_reads in *; simpl in *.

Lemma world_eta (w : World) :
  mkWorld (sqlite w) (files w) (firestore w) (sql_faults w) (file_faults w)
          (cloud_faults w) (nanoid_src w) (nanoid_calls w) (clock w) (clock_reads w) = w.
Proof. now destruct w. Qed.

Lemma SqlOnly_refl (w : World) : SqlOnly w w.
Proof. exists (sql_faults w). unfold with_sql_faults. now rewrite world_eta. Qed.

Lemma db_call_spec (w : World) :
  (sql_faults w = [] ∧ db_call w = (Normal tt, w))
  ∨ (∃ l, sql_faults w = false :: l ∧ db_call w = (Normal tt, with_sql_faults l w))
  ∨ (∃ l, sql_faults w = true :: l ∧ db_call w = (Throw SqlError, with_sql_faults l w)).
Proof.
  unfold db_call, io_call. destruct (sql_faults w) as [|[] l]; eauto 6.
Qed.

Lemma db_call_quiet (w : World) : sql_faults w = [] → db_call w = (Normal tt, w).
Proof. intros H. unfold db_call, io_call. now rewrite H. Qed.

Lemma db_call_frame (w w' : World) (r : Completion unit) :
  db_call w = (r, w') → SqlOnly w w' ∧ (r = Normal tt ∨ r = Throw SqlError).
Proof.
  destruct (db_call_spec w) as [[_ H]|[(l & _ & H)|(l & _ & H)]];
    rewrite H; intros [= <- <-]; eauto using SqlOnly_refl.
  - split; [now exists l | now left].
  - split; [now exists l | now right].
Qed.

Lemma cloud_call_spec (w : World) :
  (cloud_faults w = [] ∧ cloud_call w = (Normal tt, w))
  ∨ (∃ l, cloud_faults w = false :: l ∧ cloud_call w = (Normal tt, with_cloud_faults l w))
  ∨ (∃ l, cloud_faults w = true :: l ∧ cloud_call w = (Throw FirestoreError, with_cloud_faults l w)).
Proof.
  unfold cloud_call, io_call. destruct (cloud_faults w) as [|[] l]; eauto 6.
Qed.

(** ** The SQLite adapter *)

Lemma alter_is_insert (t : gmap string Row) (k : string) (r : Row) :
  is_Some (t !! k) → alter (fun _ => r) k t = <[k := r]> t.
Proof.
  intros [r0 Hr0]. apply map_eq. intros j.
  destruct (decide (k = j)) as [->|Hne].
  - rewrite lookup_alter_eq, lookup_insert_eq, Hr0. reflexivity.
  - rewrite lookup_alter_ne, lookup_insert_ne; auto.
Qed.

Lemma sqlite_get_quiet (i : string) (w : World) :
  sql_faults w = [] →
  SqliteAdapter.get i w = (Normal (SqliteAdapter.note_of_row i <$> sqlite w !! i), w).
Proof.
  intros H. unfold SqliteAdapter.get. now rewrite (bind_normal _ _ _ _ _ (db_call_quiet w H)).
Qed.

Lemma sqlite_get_frame (i : string) (w w' : World) (r : Completion (option Note)) :
  SqliteAdapter.get i w = (r, w') →
  SqlOnly w w'
  ∧ (r = Throw SqlError ∨ r = Normal (SqliteAdapter.note_of_row i <$> sqlite w !! i)).
Proof.
  unfold SqliteAdapter.get, bind.
  destruct (db_call w) as [[[]|e] w1] eqn:E; apply db_call_frame in E as [[l ->] HE].
  - unfold read. intros [= <- <-]. split; [now exists l | now right].
  - intros [= <- <-]. split; [now exists l|]. left. destruct HE as [?|?]; congruence.
Qed.

Lemma sqlite_upsert_quiet (n : Note) (w : World) :
  sql_faults w = [] →
  SqliteAdapter.upsert n w
  = (Normal tt, with_sqlite (<[id n := SqliteAdapter.row_of_note n]> (sqlite w)) w).
Proof.
  intros H. unfold SqliteAdapter.upsert.
  rewrite (bind_normal _ _ _ _ _ (sqlite_get_quiet (id n) w H)).
  destruct (sqlite w !! id n) as [r|] eqn:E; simpl.
  - unfold SqliteAdapter.sql_update. rewrite (bind_normal _ _ _ _ _ (db_call_quiet w H)).
    unfold write. rewrite alter_is_insert; eauto.
  - unfold SqliteAdapter.sql_insert. now rewrite (bind_normal _ _ _ _ _ (db_call_quiet w H)).
Qed.

(** Whatever the faults, the SQLite upsert either leaves the table as it
    was or holds the note's row under the note's id; it returns exactly
    when the row was written. *)
Lemma sqlite_upsert_frame (n : Note) (w w' : World) (r : Completion unit) :
  SqliteAdapter.upsert n w = (r, w') →
  ∃ l, (r = Throw SqlError ∧ w' = with_sql_faults l w)
       ∨ (r = Normal tt
          ∧ w' = with_sqlite (<[id n := SqliteAdapter.row_of_note n]> (sqlite w))
                   (with_sql_faults l w)).
Proof.
  unfold SqliteAdapter.upsert, bind.
  destruct (SqliteAdapter.get (id n) w) as [[o|e] w1] eqn:E;
    apply sqlite_get_frame in E as [[l ->] HE].
  2:{ intros [= <- <-]. exists l. left. split; auto. destruct HE; congruence. }
  destruct HE as [?|HE]; [congruence|]. injection HE as ->.
  simpl. destruct (sqlite w !! id n) as [r0|] eqn:E0; simpl.
  - unfold SqliteAdapter.sql_update, bind.
    destruct (db_call (with_sql_faults l w)) as [[[]|e] w2] eqn:E2;
      apply db_call_frame in E2 as [[l2 ->] HE2].
    + unfold write; simpl. intros [= <- <-]. exists l2. right. split; auto.
      rewrite alter_is_insert; eauto.
    + intros [= <- <-]. exists l2. left. split; auto. destruct HE2; congruence.
  - unfold SqliteAdapter.sql_insert, bind.
    destruct (db_call (with_sql_faults l w)) as [[[]|e] w2] eqn:E2;
      apply db_call_frame in E2 as [[l2 ->] HE2].
    + unfold write; simpl. intros [= <- <-]. exists l2. right. split; auto.
    + intros [= <- <-]. exists l2. left. split; auto. destruct HE2; congruence.
Qed.

(** ** The file adapter: its upsert never throws *)

Lemma file_upsert_frame (n : Note) (w : World) :
  ∃ t l, FileAdapter.upsert n w = (Normal tt, with_file_faults l (with_files t w))
         ∧ (t = files w ∨ t = <[id n := n]> (files w)).
Proof.
  unfold FileAdapter.upsert, try_catch, bind, fs_call, io_call.
  destruct (file_faults w) as [|[] l] eqn:E; simpl.
  - exists (<[id n := n]> (files w)), []. split; auto.
    unfold write, with_file_faults, with_files; simpl. now rewrite E.
  - exists (files w), l. split; auto.
  - exists (<[id n := n]> (files w)), l. split; auto.
Qed.

(** ** Sorting *)

Section SortFacts.
Context {A : Type} (key : A → Z).

(** The comparators of the code all have the shape [key b - key a]. *)
Let cmp : A → A → Z := fun a b => key b - key a.

Lemma insert_sorted_perm (x : A) (l : list A) : insert_sorted cmp x l ≡ₚ x :: l.
Proof.
  induction l as [|y l IH]; simpl; [reflexivity|].
  destruct (Z.leb (cmp x y) 0); [reflexivity|].
  rewrite IH. apply perm_swap.
Qed.

Lemma sort_perm (l : list A) : sort cmp l ≡ₚ l.
Proof.
  induction l as [|x l IH]; simpl; [reflexivity|].
  unfold sort in *. simpl. rewrite insert_sorted_perm. now rewrite IH.
Qed.

Lemma insert_sorted_sorted (x : A) (l : list A) :
  StronglySorted (fun a b => key b ≤ key a) l →
  StronglySorted (fun a b => key b ≤ key a) (insert_sorted cmp x l).
Proof.
  induction 1 as [|y l Hs IH Hall]; simpl.
  - repeat constructor.
  - destruct (Z.leb (cmp x y) 0) eqn:E.
    + apply Z.leb_le in E. unfold cmp in E.
      constructor; [now constructor|].
      constructor; [lia|].
      eapply Forall_impl; [exact Hall|]. simpl. intros; lia.
    + apply Z.leb_gt in E. unfold cmp in E.
      constructor; [exact IH|].
      rewrite insert_sorted_perm. constructor; [lia | exact Hall].
Qed.

Lemma sort_sorted (l : list A) : StronglySorted (fun a b => key b ≤ key a) (sort cmp l).
Proof.
  induction l as [|x l IH]; [constructor|].
  unfold sort in *. simpl. now apply insert_sorted_sorted.
Qed.

Lemma insert_sorted_stable (t : Z) (x : A) (l : list A) :
  List.filter (fun a => Z.eqb (key a) t) (insert_sorted cmp x l)
  = List.filter (fun a => Z.eqb (key a) t) (x :: l).
Proof.
  induction l as [|y l IH]; [reflexivity|].
  simpl insert_sorted. destruct (Z.leb (cmp x y) 0) eqn:E; [reflexivity|].
  apply Z.leb_gt in E. unfold cmp in E.
  simpl in *. rewrite IH.
  destruct (Z.eqb (key x) t) eqn:Ex, (Z.eqb (key y) t) eqn:Ey; try reflexivity.
  apply Z.eqb_eq in Ex, Ey. lia.
Qed.

(** Stability: the elements of one key come out in the order they went in. *)
Lemma sort_stable (t : Z) (l : list A) :
  List.filter (fun a => Z.eqb (key a) t) (sort cmp l)
  = List.filter (fun a => Z.eqb (key a) t) l.
Proof.
  induction l as [|x l IH]; [reflexivity|].
  unfold sort in *. simpl foldr. rewrite insert_sorted_stable. simpl. now rewrite IH.
Qed.

End SortFacts.

Lemma or_zero_id (z : Z) : JsValue.or_zero z = z.
Proof. unfold JsValue.or_zero. destruct (Z.eqb_spec z 0); congruence. Qed.

Lemma sort_ext {A} (c1 c2 : A → A → Z) (l : list A) :
  (∀ a b, c1 a b = c2 a b) → sort c1 l = sort c2 l.
Proof.
  intros H. induction l as [|x l IH]; [reflexivity|].
  unfold sort in *. simpl. rewrite IH.
  generalize (foldr (insert_sorted c2) [] l). intros m.
  induction m as [|y m IHm]; [reflexivity|]. simpl. now rewrite H, IHm.
Qed.

Lemma sort_by_updatedAt (l : list Note) :
  sort DualAdapter.by_updatedAt_desc l = sort (fun a b => updatedAt b - updatedAt a) l.
Proof.
  apply sort_ext. intros a b. unfold DualAdapter.by_updatedAt_desc.
  now rewrite !or_zero_id.
Qed.

(** ** The dual adapter *)

(** Caching never throws.  It leaves the replica alone and changes the
    table at most under the cached note's id. *)
Lemma cache_locally_frame (n : Note) (w : World) :
  ∃ l t fl,
    (DualAdapter.cache_locally n w
     = (Normal tt, with_file_faults fl (with_files t (with_sql_faults l w)))
     ∧ sql_faults w ≠ [])
    ∨ DualAdapter.cache_locally n w
      = (Normal tt, with_file_faults fl (with_files t
           (with_sqlite (<[id n := SqliteAdapter.row_of_note n]> (sqlite w))
              (with_sql_faults l w)))).
Proof.
  unfold DualAdapter.cache_locally, try_catch, bind.
  destruct (SqliteAdapter.upsert n w) as [r w1] eqn:E.
  destruct (sqlite_upsert_frame _ _ _ _ E) as [l [[-> ->]|[-> ->]]].
  - exists l, (files w), (file_faults w). left. split.
    + unfold ret, with_file_faults, with_files, with_sql_faults; simpl. reflexivity.
    + intros Hq. rewrite (sqlite_upsert_quiet n w Hq) in E. discriminate.
  - destruct (file_upsert_frame n
                (with_sqlite (<[id n := SqliteAdapter.row_of_note n]> (sqlite w))
                   (with_sql_faults l w))) as (t & fl & -> & _).
    exists l, t, fl. now right.
Qed.

Lemma cache_locally_quiet (n : Note) (w : World) :
  sql_quiet w →
  ∃ t fl,
    DualAdapter.cache_locally n w
    = (Normal tt, with_file_faults fl (with_files t
         (with_sqlite (<[id n := SqliteAdapter.row_of_note n]> (sqlite w)) w))).
Proof.
  intros Hq. unfold DualAdapter.cache_locally, try_catch, bind.
  rewrite (sqlite_upsert_quiet n w Hq).
  destruct (file_upsert_frame n
              (with_sqlite (<[id n := SqliteAdapter.row_of_note n]> (sqlite w)) w))
    as (t & fl & -> & _).
  now exists t, fl.
Qed.

(** The fan-out upsert completes as the SQLite upsert does. *)
Lemma dual_upsert_frame (n : Note) (w : World) :
  ∃ l t fl d cl,
    (DualAdapter.upsert n w
     = (Throw SqlError,
        with_file_faults fl (with_files t (with_sql_faults l w)))
     ∧ (SqliteAdapter.upsert n w).1 = Throw SqlError)
    ∨ (DualAdapter.upsert n w
       = (Normal tt,
          with_cloud_faults cl (with_firestore d
            (with_file_faults fl (with_files t
               (with_sqlite (<[id n := SqliteAdapter.row_of_note n]> (sqlite w))
                  (with_sql_faults l w))))))
       ∧ (SqliteAdapter.upsert n w).1 = Normal tt
       ∧ (d = firestore w ∨ d = insert (id n) n <$> firestore w)).
Proof.
  unfold DualAdapter.upsert, bind, DualAdapter.Promise_all2.
  destruct (SqliteAdapter.upsert n w) as [r w1] eqn:E.
  destruct (sqlite_upsert_frame _ _ _ _ E) as [l [[-> ->]|[-> ->]]].
  - destruct (file_upsert_frame n (with_sql_faults l w)) as (t & fl & -> & _).
    exists l, t, fl, (firestore w), (cloud_faults w). left. split; reflexivity.
  - destruct (file_upsert_frame n
                (with_sqlite (<[id n := SqliteAdapter.row_of_note n]> (sqlite w))
                   (with_sql_faults l w))) as (t & fl & -> & _).
    unfold DualAdapter.getFirestoreSafe, read. simpl.
    destruct (firestore w) as [docs|] eqn:Ef; simpl.
    + unfold try_catch, Firestore.doc_set, bind, cloud_call, io_call. simpl.
      destruct (cloud_faults w) as [|[] cl] eqn:Ec; simpl.
      * exists l, t, fl, (Some (<[id n := n]> docs)), []. right.
        unfold write, ret, with_cloud_faults, with_firestore; simpl.
        rewrite ?Ef, ?Ec; simpl. repeat split; auto.
      * exists l, t, fl, (Some docs), cl. right.
        unfold write, ret, with_cloud_faults, with_firestore; simpl.
        rewrite ?Ef, ?Ec; simpl. repeat split; auto.
      * exists l, t, fl, (Some (<[id n := n]> docs)), cl. right.
        unfold write, ret, with_cloud_faults, with_firestore; simpl.
        rewrite ?Ef, ?Ec; simpl. repeat split; auto.
    + exists l, t, fl, None, (cloud_faults w). right.
      unfold ret. unfold_with. rewrite ?Ef. repeat split; auto.
Qed.

(** ** C3: which failures the fan-out upsert reports *)

(** C3, as the specification words it, is refuted: a world whose next file
    write fails still sees the fan-out upsert of a note return normally,
    with no file holding the note. *)
Lemma mirror_failure_is_swallowed :
  ¬ (∀ (n : Note) (w w' : World),
       DualAdapter.upsert n w = (Normal tt, w') →
       sqlite w' !! id n = Some (SqliteAdapter.row_of_note n)
       ∧ files w' !! id n = Some n).
Proof.
  intros H.
  destruct (H (Runs.note "n1" "u1" "A" 100 false) Runs.mirror_down
              (DualAdapter.upsert (Runs.note "n1" "u1" "A" 100 false) Runs.mirror_down).2)
    as [_ Hfile].
  - vm_compute. reflexivity.
  - vm_compute in Hfile. discriminate.
Qed.

(** C3, amended: the fan-out upsert completes exactly as the write to the
    primary store (SQLite) does, so it fails if and only if that write
    fails; when it returns, the table holds the note's row.  Faults of the
    file mirror and of the remote replica never change the completion. *)
Theorem upsert_fails_exactly_when_primary_fails (n : Note) (w : World) :
  (DualAdapter.upsert n w).1 = (SqliteAdapter.upsert n w).1
  ∧ ((DualAdapter.upsert n w).1 = Normal tt →
     sqlite (DualAdapter.upsert n w).2 !! id n = Some (SqliteAdapter.row_of_note n)).
Proof.
  destruct (dual_upsert_frame n w) as (l & t & fl & d & cl & [[-> ->]|(-> & -> & _)]);
    simpl; split; auto; try discriminate.
  intros _. apply lookup_insert_eq.
Qed.

(** ** C10: a push without an array of notes *)

(** C10: when the body of a push has no [notes] field, or a [notes] field
    that is not an array, the endpoint answers [ok: true] with no results
    and leaves every store as it was. *)
Theorem push_without_array_is_empty_batch (u : User) (w : World) :
  Sync.push (Sync.mkPushRequest (Some u) Sync.NotesMissing) w
  = (Normal (Sync.PushOk []), w)
  ∧ ∀ v, Sync.push (Sync.mkPushRequest (Some u) (Sync.NotesOther v)) w
         = (Normal (Sync.PushOk []), w).
Proof. split; [|intros v]; reflexivity. Qed.

(** ** C9: the filter predicate *)

Lemma append_nil (t : string) : String.append EmptyString t = t.
Proof. reflexivity. Qed.

Lemma append_cons (a : ascii) (s t : string) :
  String.append (String a s) t = String a (String.append s t).
Proof. reflexivity. Qed.

Lemma startsWith_spec (s q : string) :
  JsValue.startsWith s q = true ↔ ∃ post, s = String.append q post.
Proof.
  revert s. induction q as [|a q IH]; intros s; simpl.
  - split; [intros _; now exists s | reflexivity].
  - destruct s as [|b s].
    + split; [discriminate | intros [post H]; discriminate].
    + destruct (Ascii.eqb_spec a b) as [->|Hne].
      * rewrite IH. split; intros [post H]; exists post;
          rewrite append_cons in *; congruence.
      * split; [discriminate | intros [post H]; rewrite append_cons in H; congruence].
Qed.

Lemma includes_unfold (s q : string) :
  JsValue.includes s q
  = if JsValue.startsWith s q then true
    else match s with
         | EmptyString => false
         | String _ s' => JsValue.includes s' q
         end.
Proof. destruct s; reflexivity. Qed.

Lemma includes_spec (s q : string) :
  JsValue.includes s q = true
  ↔ ∃ pre post, s = String.append pre (String.append q post).
Proof.
  induction s as [|b s IH]; rewrite includes_unfold.
  - destruct (JsValue.startsWith EmptyString q) eqn:E.
    + apply startsWith_spec in E as [post H]. split; auto.
      intros _. exists EmptyString, post. rewrite append_nil. exact H.
    + split; [discriminate|]. intros (pre & post & H).
      destruct pre; [rewrite append_nil in H | rewrite append_cons in H; discriminate].
      assert (JsValue.startsWith EmptyString q = true) by (apply startsWith_spec; eauto).
      congruence.
  - destruct (JsValue.startsWith (String b s) q) eqn:E.
    + apply startsWith_spec in E as [post H]. split; auto.
      intros _. exists EmptyString, post. rewrite append_nil. exact H.
    + rewrite IH. split.
      * intros (pre & post & H). exists (String b pre), post.
        rewrite append_cons. now rewrite H.
      * intros (pre & post & H). destruct pre as [|c pre].
        -- rewrite append_nil in H.
           assert (JsValue.startsWith (String b s) q = true)
             by (apply startsWith_spec; eauto).
           congruence.
        -- rewrite append_cons in H. injection H as _ H. eauto.
Qed.

Lemma array_includes_spec (l : list string) (t : string) :
  JsValue.array_includes l t = true ↔ t ∈ l.
Proof.
  unfold JsValue.array_includes. rewrite existsb_exists, list_elem_of_In.
  split.
  - intros (x & Hx & E). apply String.eqb_eq in E. now subst.
  - intros H. exists t. split; auto. apply String.eqb_refl.
Qed.

Lemma if_false_chain (c r : bool) : (if c then false else r) = true ↔ c = false ∧ r = true.
Proof. destruct c, r; intuition discriminate. Qed.

Lemma guard_deleted (inc gone : bool) :
  negb inc && gone = false ↔ (inc = false → gone = false).
Proof. destruct inc, gone; simpl; intuition discriminate. Qed.

Lemma guard_string (o : option string) (v : option string) :
  match o with
  | Some u => negb (bool_decide (v = Some u))
  | None => false
  end = false ↔ ∀ x, o = Some x → v = Some x.
Proof.
  destruct o as [u|].
  - rewrite negb_false_iff, bool_decide_eq_true. split.
    + intros H x [= <-]. exact H.
    + intros H. now apply H.
  - split; [intros _ x; discriminate | reflexivity].
Qed.

Lemma guard_text (o : option string) (n : Note) :
  match o with
  | Some s =>
      negb (JsValue.includes (JsValue.toLowerCase (title n)) (JsValue.toLowerCase s)
            || JsValue.includes (JsValue.toLowerCase (body n)) (JsValue.toLowerCase s))
  | None => false
  end = false
  ↔ ∀ s, o = Some s → ci_substring s (title n) ∨ ci_substring s (body n).
Proof.
  unfold ci_substring. destruct o as [s|].
  - rewrite negb_false_iff, orb_true_iff, !includes_spec. split.
    + intros H x [= <-]. exact H.
    + intros H. now apply H.
  - split; [intros _ x; discriminate | reflexivity].
Qed.

Lemma guard_after (o : option Z) (u : Z) :
  match o with
  | Some t => Z.leb (JsValue.or_zero u) t
  | None => false
  end = false ↔ ∀ t, o = Some t → t < u.
Proof.
  destruct o as [t|].
  - rewrite or_zero_id, Z.leb_gt. split.
    + intros H x [= <-]. exact H.
    + intros H. now apply H.
  - split; [intros _ x; discriminate | reflexivity].
Qed.

Lemma guard_date (o : option Z) (d : option Z) (R : Z → Z → bool) (P : Z → Z → Prop) :
  (∀ a b, R a b = true ↔ P a b) →
  d ≠ Some 0 →
  match o with
  | Some b => negb (match JsValue.truthy_number d with
                    | Some v => R b v
                    | None => false
                    end)
  | None => false
  end = false ↔ ∀ b, o = Some b → ∃ v, d = Some v ∧ P b v.
Proof.
  intros HR Hd. destruct o as [b|].
  - rewrite negb_false_iff. destruct d as [v|]; simpl.
    + destruct (Z.eqb_spec v 0) as [->|_]; [congruence|]. rewrite HR. split.
      * intros H x [= <-]. eauto.
      * intros H. destruct (H b eq_refl) as (v' & [= <-] & Hv). exact Hv.
    + split; [discriminate|]. intros H. destruct (H b eq_refl) as (v' & Hv & _). discriminate.
  - split; [intros _ x; discriminate | reflexivity].
Qed.

Lemma guard_tags (o : option (list string)) (l : list string) :
  match o with
  | Some (t :: ts) => forallb (JsValue.array_includes l) (t :: ts)
  | _ => true
  end = true ↔ ∀ ts, o = Some ts → ∀ t, t ∈ ts → t ∈ l.
Proof.
  assert (Hall : ∀ ts, forallb (JsValue.array_includes l) ts = true ↔ ∀ t, t ∈ ts → t ∈ l).
  { intros ts. rewrite forallb_forall. split.
    - intros H t Ht. apply array_includes_spec, H, list_elem_of_In, Ht.
    - intros H t Ht. apply array_includes_spec, H, list_elem_of_In, Ht. }
  destruct o as [[|t ts]|].
  - split; auto. intros _ ts [= <-] t Ht. inversion Ht.
  - rewrite Hall. split.
    + intros H x [= <-]. exact H.
    + intros H. now apply H.
  - split; auto. intros _ ts; discriminate.
Qed.

(** C9, as the specification words it, is refuted: a filter that supplies
    [updatedAfter = 0] is matched by a note whose [updatedAt] is 0, which
    is not strictly greater. *)
Lemma zero_threshold_is_ignored :
  ¬ (∀ (n : Note) (f : Filters),
       DualAdapter.matchesFilters n f = true ↔ satisfies_supplied n f).
Proof.
  intros H.
  destruct (H (Runs.note "n1" "u1" "A" 0 false)
              (mkFilters false None None (Some 0) None None None None)) as [H1 _].
  destruct (H1 eq_refl) as (_ & _ & _ & Hafter & _).
  specialize (Hafter 0 eq_refl). simpl in Hafter. lia.
Qed.

(** C9, amended: for every note whose title and body are ASCII text and
    whose [date] is not the number 0, and every filter whose text query,
    if there is one, is ASCII text, the note matches if and only if it
    satisfies, conjunctively, every predicate the filter supplies with a
    truthy value (a non-empty string, a non-zero number): a tags filter
    demands every listed tag, a text query demands a case-insensitive
    occurrence in the title or in the body, and a predicate supplied as
    the empty string or as 0 is ignored. *)
Theorem matchesFilters_conjunctive (n : Note) (f : Filters) :
  JsValue.ascii_text (title n) = true →
  JsValue.ascii_text (body n) = true →
  (∀ q, f_q f = Some q → JsValue.ascii_text q = true) →
  date n ≠ Some 0 →
  DualAdapter.matchesFilters n f = true ↔ satisfies_truthy n f.
Proof.
  intros _ _ _ Hd. unfold DualAdapter.matchesFilters, satisfies_truthy, satisfies.
  rewrite !if_false_chain.
  rewrite guard_deleted, guard_string, guard_text, guard_after, guard_string, guard_tags.
  rewrite (guard_date _ _ Z.leb Z.le Z.leb_le Hd).
  rewrite (guard_date _ _ (fun d v => Z.leb v d) (fun d v => v ≤ d)
             (fun a b => Z.leb_le b a) Hd).
  tauto.
Qed.

Lemma matchesFilters_conjunctive_witness :
  JsValue.ascii_text (title (Runs.note "n1" "u1" "Shopping list" 100 false)) = true
  ∧ JsValue.ascii_text (body (Runs.note "n1" "u1" "Shopping list" 100 false)) = true
  ∧ (∀ q, Some "LIST" = Some q → JsValue.ascii_text q = true)
  ∧ date (Runs.note "n1" "u1" "Shopping list" 100 false) ≠ Some 0
  ∧ (DualAdapter.matchesFilters (Runs.note "n1" "u1" "Shopping list" 100 false)
       (mkFilters false (Some "u1") (Some "LIST") (Some 50) None None None (Some [])) = true
     ↔ satisfies_truthy (Runs.note "n1" "u1" "Shopping list" 100 false)
         (mkFilters false (Some "u1") (Some "LIST") (Some 50) None None None (Some []))).
Proof.
  assert (Hq : ∀ q, Some "LIST" = Some q → JsValue.ascii_text q = true)
    by (intros q [= <-]; reflexivity).
  split; [reflexivity|]. split; [reflexivity|]. split; [exact Hq|].
  split; [discriminate|].
  apply (matchesFilters_conjunctive (Runs.note "n1" "u1" "Shopping list" 100 false)
           (mkFilters false (Some "u1") (Some "LIST") (Some 50) None None None (Some []))
           eq_refl eq_refl Hq).
  discriminate.
Defined.

(** ** Searching through the dual adapter *)

Lemma cache_locally_normal (n : Note) (w : World) :
  ∃ w', DualAdapter.cache_locally n w = (Normal tt, w').
Proof.
  destruct (cache_locally_frame n w) as (l & t & fl & [[H _]|H]); rewrite H; eauto.
Qed.

Lemma merge_remote_result (S : gset string) (fr merged : list Note) (w : World) :
  ∃ w', DualAdapter.merge_remote S fr merged w
        = (Normal (merged ++ List.filter (fun rn => negb (bool_decide (id rn ∈ S))) fr), w').
Proof.
  revert merged w. induction fr as [|rn fr IH]; intros merged w; simpl.
  - exists w. unfold ret. now rewrite app_nil_r.
  - destruct (bool_decide (id rn ∈ S)); simpl.
    + apply IH.
    + destruct (cache_locally_normal rn w) as [w1 H1].
      rewrite (bind_normal _ _ _ _ _ H1).
      destruct (IH (merged ++ [rn]) w1) as [w2 H2]. exists w2.
      rewrite H2. now rewrite <- app_assoc.
Qed.

Lemma sqlite_find_frame (f : Filters) (w w' : World) (r : Completion (list Note)) :
  SqliteAdapter.find f w = (r, w') →
  SqlOnly w w'
  ∧ ((r = Throw SqlError ∧ ¬ sql_quiet w) ∨ r = Normal (local_matches f w)).
Proof.
  unfold SqliteAdapter.find, bind, sql_quiet.
  destruct (db_call_spec w) as [[Hq H]|[(l & Hq & H)|(l & Hq & H)]]; rewrite H.
  - intros [= <- <-]. split; [apply SqlOnly_refl | now right].
  - intros [= <- <-]. split; [now exists l | now right].
  - intros [= <- <-]. split; [now exists l|]. left. split; congruence.
Qed.

(** How a search ends: it throws when the SQLite query fails, and
    otherwise returns the merged and sorted list when the replica answers,
    the local matches when it does not. *)
Lemma find_exact (f : Filters) (w : World) :
  ((DualAdapter.find f w).1 = Throw SqlError ∧ ¬ sql_quiet w)
  ∨ (DualAdapter.find f w).1
    = Normal (if remote_answers w
              then sort DualAdapter.by_updatedAt_desc (merge_order f w)
              else local_matches f w).
Proof.
  unfold DualAdapter.find, bind, remote_answers.
  destruct (SqliteAdapter.find f w) as [r w1] eqn:E.
  apply sqlite_find_frame in E as [[l ->] [[-> Hq]| ->]]; [now left|].
  unfold DualAdapter.getFirestoreSafe, read. simpl.
  destruct (firestore w) as [docs|] eqn:Ef; simpl; [|now right].
  unfold try_catch, Firestore.query, bind, cloud_call, io_call. simpl.
  assert (Hm : ∀ w2, firestore w2 = Some docs →
            ∃ w3, DualAdapter.merge_remote
                    (list_to_set (List.map id (local_matches f w)))
                    (List.filter (fun n => DualAdapter.matchesFilters n f)
                       (Firestore.narrowed (JsValue.truthy_string (f_uid f)) docs))
                    (local_matches f w) w2
                  = (Normal (merge_order f w), w3)).
  { intros w2 _. unfold merge_order, remote_only, remote_matches, local_ids.
    rewrite Ef. apply merge_remote_result. }
  destruct (cloud_faults w) as [|[] cl] eqn:Ec; simpl.
  - unfold read. simpl. rewrite Ef.
    destruct (Hm (with_sql_faults l w) Ef) as [w3 ->]. now right.
  - now right.
  - unfold read. simpl. rewrite Ef.
    destruct (Hm (with_cloud_faults cl (with_sql_faults l w)) Ef) as [w3 ->]. now right.
Qed.

(** The three ways a search can end. *)
Lemma find_result (f : Filters) (w : World) :
  ((DualAdapter.find f w).1 = Throw SqlError ∧ ¬ sql_quiet w)
  ∨ (DualAdapter.find f w).1 = Normal (local_matches f w)
  ∨ (DualAdapter.find f w).1 = Normal (sort DualAdapter.by_updatedAt_desc (merge_order f w)).
Proof.
  destruct (find_exact f w) as [H|H]; [now left|].
  destruct (remote_answers w); auto.
Qed.

Lemma find_quiet (f : Filters) (w : World) :
  sql_quiet w → ∃ l, (DualAdapter.find f w).1 = Normal l.
Proof.
  intros Hq. destruct (find_result f w) as [[_ H]|[H|H]]; eauto. contradiction.
Qed.

(** ** C7: the order of a search result *)

Lemma select_sorted (conds : list SqliteAdapter.Cond) (t : gmap string Row) :
  StronglySorted (fun a b => updatedAt b ≤ updatedAt a) (SqliteAdapter.select conds t).
Proof.
  unfold SqliteAdapter.select.
  generalize (List.filter (fun ir : string * Row => forallb (SqliteAdapter.holds ir.2) conds)
                (map_to_list t)).
  intros rows.
  pose proof (sort_sorted (fun ir : string * Row => row_updatedAt ir.2) rows) as H.
  simpl in H. induction H as [|x l Hs IH Hall]; simpl; constructor; auto.
  rewrite Forall_map. simpl. exact Hall.
Qed.

Lemma merged_sorted (l : list Note) :
  StronglySorted (fun a b => updatedAt b ≤ updatedAt a) (sort DualAdapter.by_updatedAt_desc l).
Proof. rewrite sort_by_updatedAt. apply (sort_sorted updatedAt). Qed.

Lemma merged_stable (t : Z) (l : list Note) :
  List.filter (same_time t) (sort DualAdapter.by_updatedAt_desc l)
  = List.filter (same_time t) l.
Proof. rewrite sort_by_updatedAt. apply (sort_stable updatedAt). Qed.

Lemma merged_perm (l : list Note) : sort DualAdapter.by_updatedAt_desc l ≡ₚ l.
Proof. rewrite sort_by_updatedAt. apply (sort_perm updatedAt). Qed.

(** C7, as the specification words it, is refuted: with note [b] in the
    primary store and note [a] only in the replica, both updated at 5, the
    merged result lists [b] before [a]; equal [updatedAt] are not ordered
    by ascending [id]. *)
Lemma ties_are_not_ordered_by_id :
  ¬ (∀ (f : Filters) (w : World) (l : list Note),
       (DualAdapter.find f w).1 = Normal l → StronglySorted spec_order l).
Proof.
  intros H.
  assert (E : (DualAdapter.find Runs.mine Runs.tied).1
              = Normal [Runs.note "b" "u1" "B" 5 false; Runs.note "a" "u1" "A" 5 false])
    by (vm_compute; reflexivity).
  apply H in E. inversion E as [|? ? _ Hall]; subst.
  inversion Hall as [|? ? [Hlt|[_ Hid]] _]; subst.
  - simpl in Hlt. lia.
  - apply Hid. reflexivity.
Qed.

(** C7, amended: a search returns whenever no SQLite statement fails, and
    every result it returns is sorted by [updatedAt] descending, records
    with equal [updatedAt] staying in the order in which they were merged:
    the matches of the primary store in the order it returned them, then
    the matches found only in the replica.  No comparison of ids takes
    place. *)
Theorem find_sorted_by_updatedAt (f : Filters) (w : World) :
  (sql_quiet w → ∃ l, (DualAdapter.find f w).1 = Normal l)
  ∧ ∀ l, (DualAdapter.find f w).1 = Normal l →
      StronglySorted (fun a b => updatedAt b ≤ updatedAt a) l
      ∧ ∃ m, (m = local_matches f w ∨ m = merge_order f w)
             ∧ l ≡ₚ m
             ∧ ∀ t, List.filter (same_time t) l = List.filter (same_time t) m.
Proof.
  split; [apply find_quiet|].
  intros l Hl. destruct (find_result f w) as [[H _]|[H|H]]; rewrite H in Hl;
    [discriminate| |]; injection Hl as <-.
  - split; [apply select_sorted|]. exists (local_matches f w). auto.
  - split; [apply merged_sorted|]. exists (merge_order f w).
    split; [now right|]. split; [apply merged_perm|]. intros t. apply merged_stable.
Qed.

Lemma find_sorted_by_updatedAt_witness :
  (DualAdapter.find Runs.mine Runs.tied).1
  = Normal [Runs.note "b" "u1" "B" 5 false; Runs.note "a" "u1" "A" 5 false]
  ∧ StronglySorted (fun a b => updatedAt b ≤ updatedAt a)
      [Runs.note "b" "u1" "B" 5 false; Runs.note "a" "u1" "A" 5 false]
  ∧ ∃ m, (m = local_matches Runs.mine Runs.tied ∨ m = merge_order Runs.mine Runs.tied)
         ∧ [Runs.note "b" "u1" "B" 5 false; Runs.note "a" "u1" "A" 5 false] ≡ₚ m
         ∧ ∀ t, List.filter (same_time t)
                  [Runs.note "b" "u1" "B" 5 false; Runs.note "a" "u1" "A" 5 false]
                = List.filter (same_time t) m.
Proof.
  split; [vm_compute; reflexivity|].
  apply (proj2 (find_sorted_by_updatedAt Runs.mine Runs.tied)).
  vm_compute. reflexivity.
Defined.

(** ** C4: one record per id, and the local copy of a record of both tiers *)

Lemma NoDup_map_filter {A B} (g : A → B) (P : A → bool) (l : list A) :
  NoDup (List.map g l) → NoDup (List.map g (List.filter P l)).
Proof.
  induction l as [|x l IH]; simpl; [auto|].
  rewrite NoDup_cons. intros [Hx Hl]. destruct (P x); simpl; [|auto].
  apply NoDup_cons. split; [|auto].
  intros Hin. apply Hx. apply list_elem_of_In in Hin. apply list_elem_of_In.
  apply in_map_iff in Hin as (y & <- & Hy). apply filter_In in Hy as [Hy _].
  apply in_map. exact Hy.
Qed.

Lemma NoDup_map_inj {A B} (g : A → B) (l : list A) (x y : A) :
  NoDup (List.map g l) → x ∈ l → y ∈ l → g x = g y → x = y.
Proof.
  induction l as [|a l IH]; simpl; [intros _ Hx; inversion Hx|].
  rewrite NoDup_cons. intros [Ha Hl] Hx Hy E.
  apply elem_of_cons in Hx as [->|Hx]; apply elem_of_cons in Hy as [->|Hy]; auto.
  - exfalso. apply Ha. rewrite E. apply list_elem_of_In, in_map, list_elem_of_In, Hy.
  - exfalso. apply Ha. rewrite <- E. apply list_elem_of_In, in_map, list_elem_of_In, Hx.
Qed.

Lemma select_ids (conds : list SqliteAdapter.Cond) (t : gmap string Row) :
  List.map id (SqliteAdapter.select conds t)
  = List.map fst
      (sort (fun a b : string * Row => row_updatedAt b.2 - row_updatedAt a.2)
         (List.filter (fun ir : string * Row => forallb (SqliteAdapter.holds ir.2) conds)
            (map_to_list t))).
Proof. unfold SqliteAdapter.select. rewrite List.map_map. reflexivity. Qed.

Lemma fmap_is_map {A B} (g : A → B) (l : list A) : g <$> l = List.map g l.
Proof. reflexivity. Qed.

Lemma local_matches_NoDup (f : Filters) (w : World) :
  NoDup (List.map id (local_matches f w)).
Proof.
  unfold local_matches. rewrite select_ids.
  rewrite (Permutation_map fst (sort_perm (fun ir : string * Row => row_updatedAt ir.2) _)).
  apply NoDup_map_filter. rewrite <- fmap_is_map. apply NoDup_fst_map_to_list.
Qed.

Lemma narrowed_NoDup (owner : option string) (docs : gmap string Note) :
  (∀ k n, docs !! k = Some n → id n = k) →
  NoDup (List.map id (Firestore.narrowed owner docs)).
Proof.
  intros Hkeyed. unfold Firestore.narrowed. apply NoDup_map_filter.
  rewrite List.map_map.
  assert (E : List.map (fun x : string * Note => id x.2) (map_to_list docs)
              = List.map fst (map_to_list docs)).
  { apply map_ext_in. intros [k n] Hin. simpl.
    apply Hkeyed. apply elem_of_map_to_list, list_elem_of_In, Hin. }
  rewrite E, <- fmap_is_map. apply NoDup_fst_map_to_list.
Qed.

Lemma merge_order_NoDup (f : Filters) (w : World) :
  remote_keyed w → NoDup (List.map id (merge_order f w)).
Proof.
  intros Hk. unfold merge_order. rewrite List.map_app. apply NoDup_app.
  split; [apply local_matches_NoDup|]. split.
  - intros i Hloc Hrem. apply list_elem_of_In, in_map_iff in Hrem as (rn & <- & Hrn).
    unfold remote_only in Hrn. apply filter_In in Hrn as [_ Hrn].
    apply negb_true_iff, bool_decide_eq_false in Hrn. apply Hrn.
    unfold local_ids. apply elem_of_list_to_set. exact Hloc.
  - unfold remote_only, remote_matches. do 2 apply NoDup_map_filter.
    destruct (firestore w) as [docs|] eqn:Ef; [|constructor].
    apply narrowed_NoDup. intros k n Hkn. apply Hk. unfold remote_doc. now rewrite Ef.
Qed.

(** X25: for every filter, a search returns whenever no SQLite statement
    fails, and every result it returns holds at most one record per id,
    with every record the primary store returned for the filter in it as
    the only record of its id: a copy in the replica never takes the
    place of a record the primary store returned, whatever its
    [updatedAt].  (Each store holds one record per id: the table by its
    primary key, the replica by naming documents after the id.) *)
Theorem merged_unique_local_wins (f : Filters) (w : World) :
  remote_keyed w →
  (sql_quiet w → ∃ l, (DualAdapter.find f w).1 = Normal l)
  ∧ ∀ l, (DualAdapter.find f w).1 = Normal l →
      NoDup (List.map id l)
      ∧ ∀ n, n ∈ local_matches f w → n ∈ l ∧ ∀ m, m ∈ l → id m = id n → m = n.
Proof.
  intros Hk. split; [apply find_quiet|]. intros l Hl.
  assert (H : NoDup (List.map id l) ∧ ∀ n, n ∈ local_matches f w → n ∈ l).
  { destruct (find_result f w) as [[H _]|[H|H]]; rewrite H in Hl;
      [discriminate| |]; injection Hl as <-.
    - split; [apply local_matches_NoDup | auto].
    - split.
      + rewrite (Permutation_map id (merged_perm _)). now apply merge_order_NoDup.
      + intros n Hn. rewrite merged_perm. unfold merge_order. apply elem_of_app. now left. }
  destruct H as [Hnd Hin]. split; [exact Hnd|].
  intros n Hn. split; [auto|]. intros m Hm E.
  eapply NoDup_map_inj; eauto.
Qed.

Lemma merged_unique_local_wins_witness :
  remote_keyed Runs.tied
  ∧ (DualAdapter.find Runs.mine Runs.tied).1
    = Normal [Runs.note "b" "u1" "B" 5 false; Runs.note "a" "u1" "A" 5 false]
  ∧ NoDup (List.map id [Runs.note "b" "u1" "B" 5 false; Runs.note "a" "u1" "A" 5 false])
  ∧ ∀ n, n ∈ local_matches Runs.mine Runs.tied →
         n ∈ [Runs.note "b" "u1" "B" 5 false; Runs.note "a" "u1" "A" 5 false]
         ∧ ∀ m, m ∈ [Runs.note "b" "u1" "B" 5 false; Runs.note "a" "u1" "A" 5 false] →
                id m = id n → m = n.
Proof.
  assert (Hk : remote_keyed Runs.tied).
  { intros k n. unfold remote_doc. simpl. intros H.
    apply lookup_singleton_Some in H as [<- <-]. reflexivity. }
  split; [exact Hk|]. split; [vm_compute; reflexivity|].
  apply (proj2 (merged_unique_local_wins Runs.mine Runs.tied Hk)).
  vm_compute. reflexivity.
Defined.

(** C4: the code does not do what the claim says.  After [POST /notes]
    with note [n1] and [DELETE /notes/n1] by its owner, the write to the
    replica having failed during the deletion, both tiers hold a record
    of [n1]: the primary store the deleted one, the replica the one
    posted.  The search of a plain [GET /notes] by the owner leaves
    deleted notes out, so the primary store returns nothing for it, and
    the set of local ids [find] checks the replica's records against is
    empty: the replica's copy of [n1] is the record of the result, and it
    is written over the local one.  The note is back as not deleted, in
    the answer and in the primary store. *)
Theorem search_replaces_hidden_local_record :
  local_record Runs.interrupted_delete "n1" = Some (Runs.note "n1" "u1" "A" 1000 true)
  ∧ remote_doc Runs.interrupted_delete "n1" = Some (Runs.note "n1" "u1" "A" 100 false)
  ∧ local_matches Runs.mine Runs.interrupted_delete = []
  ∧ (DualAdapter.find Runs.mine Runs.interrupted_delete).1
    = Normal [Runs.note "n1" "u1" "A" 100 false]
  ∧ local_record (DualAdapter.find Runs.mine Runs.interrupted_delete).2 "n1"
    = Some (Runs.note "n1" "u1" "A" 100 false)
  ∧ (Notes.get_list (fun _ => None) (fun _ => None) (Some Runs.u1)
       (Notes.mkQuery None None None None None None None) Runs.interrupted_delete).1
    = Normal (Notes.OkNotes [Runs.note "n1" "u1" "A" 100 false])
  ∧ ¬ local_copy_wins Runs.mine Runs.interrupted_delete.
Proof.
  assert (H1 : local_record Runs.interrupted_delete "n1"
               = Some (Runs.note "n1" "u1" "A" 1000 true)) by (vm_compute; reflexivity).
  assert (H2 : remote_doc Runs.interrupted_delete "n1"
               = Some (Runs.note "n1" "u1" "A" 100 false)) by (vm_compute; reflexivity).
  assert (H3 : (DualAdapter.find Runs.mine Runs.interrupted_delete).1
               = Normal [Runs.note "n1" "u1" "A" 100 false]) by (vm_compute; reflexivity).
  split; [exact H1|]. split; [exact H2|]. split; [vm_compute; reflexivity|].
  split; [exact H3|]. split; [vm_compute; reflexivity|]. split; [vm_compute; reflexivity|].
  intros H.
  specialize (H _ H3 (Runs.note "n1" "u1" "A" 1000 true) _ H1 H2
                (Runs.note "n1" "u1" "A" 100 false) (list_elem_of_here _ _) eq_refl).
  discriminate H.
Qed.

(** ** C5: what a pull returns *)

Lemma elem_of_select (conds : list SqliteAdapter.Cond) (t : gmap string Row) (n : Note) :
  n ∈ SqliteAdapter.select conds t
  ↔ ∃ r, t !! id n = Some r
         ∧ n = SqliteAdapter.note_of_row (id n) r
         ∧ forallb (SqliteAdapter.holds r) conds = true.
Proof.
  unfold SqliteAdapter.select.
  rewrite list_elem_of_In, in_map_iff. split.
  - intros ([i r] & <- & Hin). simpl. exists r.
    apply list_elem_of_In in Hin.
    rewrite (sort_perm (fun ir : string * Row => row_updatedAt ir.2)) in Hin.
    apply list_elem_of_In, filter_In in Hin as [Hin Hc]. simpl in Hc.
    apply list_elem_of_In, elem_of_map_to_list in Hin. auto.
  - intros (r & Hr & -> & Hc). exists (id n, r). split; [reflexivity|].
    apply list_elem_of_In.
    rewrite (sort_perm (fun ir : string * Row => row_updatedAt ir.2)).
    apply list_elem_of_In, filter_In. split; [|exact Hc].
    apply list_elem_of_In, elem_of_map_to_list. exact Hr.
Qed.

Lemma local_record_row (w : World) (n : Note) :
  local_record w (id n) = Some n
  ↔ ∃ r, sqlite w !! id n = Some r ∧ n = SqliteAdapter.note_of_row (id n) r.
Proof.
  unfold local_record. destruct (sqlite w !! id n) as [r|]; simpl.
  - split; [intros [= H]; eauto | intros (r' & [= <-] & H); congruence].
  - split; [discriminate | intros (r' & H & _); discriminate].
Qed.

Lemma truthy_nonempty (c : string) :
  c ≠ EmptyString → JsValue.truthy_string (Some c) = Some c.
Proof. destruct c; [congruence | reflexivity]. Qed.

Lemma local_matches_pull (w : World) (c : string) (t : Z) (n : Note) :
  c ≠ EmptyString →
  n ∈ local_matches (pull_filters (Some c) t) w
  ↔ local_record w (id n) = Some n ∧ uid n = Some c ∧ (t = 0 ∨ t < updatedAt n).
Proof.
  intros Hc. unfold local_matches. rewrite elem_of_select, local_record_row.
  unfold SqliteAdapter.where_clauses, pull_filters;
    cbn [f_uid f_includeDeleted f_q f_updatedAfter f_dateFrom f_dateTo f_time f_tags].
  rewrite (truthy_nonempty c Hc). simpl.
  split.
  - intros (r & Hr & Hn & Hconds). split; [eauto|].
    apply andb_true_iff in Hconds as [Hu Hrest].
    assert (Hu' : uid n = Some c).
    { rewrite Hn. simpl. destruct (row_uid r) as [v|]; [|discriminate].
      apply String.eqb_eq in Hu. now subst. }
    split; [exact Hu'|].
    destruct (Z.eqb_spec t 0) as [->|Ht]; [now left|]. right.
    simpl in Hrest. apply andb_true_iff in Hrest as [Hlt _].
    apply Z.ltb_lt in Hlt. rewrite Hn. exact Hlt.
  - intros ((r & Hr & Hn) & Hu & Ht). exists r. split; [exact Hr|]. split; [exact Hn|].
    apply andb_true_iff. split.
    + rewrite Hn in Hu. simpl in Hu. rewrite Hu. apply String.eqb_refl.
    + destruct (Z.eqb_spec t 0) as [->|Hne]; [reflexivity|]. simpl.
      apply andb_true_iff. split; [|reflexivity]. apply Z.ltb_lt.
      destruct Ht as [?|Ht]; [contradiction|]. rewrite Hn in Ht. exact Ht.
Qed.

Lemma matches_pull (c : string) (t : Z) (n : Note) :
  c ≠ EmptyString →
  DualAdapter.matchesFilters n (pull_filters (Some c) t) = true
  ↔ uid n = Some c ∧ (t = 0 ∨ t < updatedAt n).
Proof.
  intros Hc. unfold DualAdapter.matchesFilters, pull_filters;
    cbn [f_uid f_includeDeleted f_q f_updatedAfter f_dateFrom f_dateTo f_time f_tags].
  rewrite (truthy_nonempty c Hc). rewrite or_zero_id. simpl.
  destruct (bool_decide_reflect (uid n = Some c)) as [Hu|Hu]; simpl.
  - destruct (Z.eqb_spec t 0) as [->|Ht]; simpl.
    + split; auto.
    + destruct (Z.leb_spec (updatedAt n) t); simpl.
      * split; [discriminate|]. intros [_ [?|?]]; [contradiction | lia].
      * split; auto.
  - split; [discriminate | intros [? _]; contradiction].
Qed.

Lemma remote_matches_pull (w : World) (c : string) (t : Z) (n : Note) :
  c ≠ EmptyString →
  n ∈ remote_matches (pull_filters (Some c) t) w
  ↔ (∃ k, remote_doc w k = Some n) ∧ uid n = Some c ∧ (t = 0 ∨ t < updatedAt n).
Proof.
  intros Hc. unfold remote_matches, remote_doc.
  rewrite list_elem_of_In, filter_In, (matches_pull c t n Hc).
  destruct (firestore w) as [docs|].
  - unfold Firestore.narrowed, pull_filters. cbn [f_uid]. rewrite (truthy_nonempty c Hc).
    rewrite filter_In, in_map_iff, bool_decide_eq_true. split.
    + intros [[([k n'] & <- & Hin) Hu] Hm]. simpl in *.
      apply list_elem_of_In, elem_of_map_to_list in Hin. eauto.
    + intros [[k Hk] [Hu Ht]]. repeat split; auto.
      exists (k, n). split; [reflexivity|].
      apply list_elem_of_In, elem_of_map_to_list. exact Hk.
  - split; [intros [[] _] | intros [[k Hk] _]; discriminate].
Qed.

Lemma pull_as_find (uo : option string) (o : option Z) (w : World) :
  Sync.pull (Sync.mkPullRequest (Some (mkUser uo)) o) w
  = (match (DualAdapter.find
              (pull_filters uo (Sync.default (JsValue.truthy_number o) 0)) w).1 with
     | Normal l => Normal (Sync.PullOk l)
     | Throw _ => Normal Sync.PullServerError
     end,
     (DualAdapter.find (pull_filters uo (Sync.default (JsValue.truthy_number o) 0)) w).2).
Proof.
  unfold Sync.pull, try_catch, bind, Sync.the_user, ret, pull_filters. simpl.
  destruct (DualAdapter.find _ w) as [[l|e] w']; reflexivity.
Qed.




(** ** Normalisation and lookup *)

Lemma normalize_frame (raw : RawNote) (u : option User) (w : World) :
  ∃ note w0,
    Sync.normalizeNoteInput raw u w = (Normal note, w0)
    ∧ same_stores w w0
    ∧ uid note = Sync.owner_of raw u
    ∧ (∀ i, raw_id raw = Some i → id note = i).
Proof.
  unfold Sync.normalizeNoteInput, bind, nullish_or, nanoid, Date_now, ret, same_stores.
  destruct (raw_id raw) as [i|], (raw_createdAt raw) as [c|], (raw_updatedAt raw) as [t|];
    simpl; eexists _, _; (split; [reflexivity|]); simpl; repeat split; auto;
    try (intros ? [= <-]; reflexivity); try (intros ?; discriminate).
Qed.

Lemma normalize_complete (n : Note) (c : string) (w : World) :
  uid n = Some c →
  Sync.normalizeNoteInput (raw_of_note n) (Some (mkUser (Some c))) w = (Normal n, w).
Proof.
  intros Hu. unfold Sync.normalizeNoteInput, raw_of_note, bind, nullish_or, ret; simpl.
  destruct n; simpl in *; subst. reflexivity.
Qed.

Lemma row_round_trip (n : Note) (c : string) :
  uid n = Some c → c ≠ EmptyString →
  SqliteAdapter.note_of_row (id n) (SqliteAdapter.row_of_note n) = n.
Proof.
  intros Hu Hc. destruct n; simpl in *; subst.
  unfold SqliteAdapter.note_of_row, SqliteAdapter.row_of_note; simpl.
  destruct c; [congruence | reflexivity].
Qed.

(** The lookup of the dual adapter when no SQLite statement fails. *)
Lemma dual_get_quiet (i : string) (w : World) :
  sql_quiet w →
  ∃ w1, DualAdapter.get i w = (Normal (server_record w i), w1)
        ∧ sql_quiet w1
        ∧ firestore w1 = firestore w
        ∧ (is_Some (sqlite w !! i) → w1 = w)
        ∧ (sqlite w1 = sqlite w
           ∨ (sqlite w !! i = None
              ∧ ∃ ex, server_record w i = Some ex
                      ∧ remote_doc w i = Some ex
                      ∧ sqlite w1 = <[id ex := SqliteAdapter.row_of_note ex]> (sqlite w))).
Proof.
  intros Hq. unfold DualAdapter.get.
  rewrite (bind_normal _ _ _ _ _ (sqlite_get_quiet i w Hq)).
  unfold server_record, local_record.
  destruct (sqlite w !! i) as [r|] eqn:El; simpl.
  { exists w. unfold ret. repeat split; auto. }
  assert (Hno : is_Some (@None Row) → ∀ w1 : World, w1 = w)
    by (intros [? ?]; discriminate).
  unfold DualAdapter.getFirestoreSafe, read, bind, remote_record, remote_doc. simpl.
  destruct (firestore w) as [docs|] eqn:Ef; simpl.
  2:{ exists w. unfold ret.
      destruct (cloud_faults w) as [|[] ?]; (split; [reflexivity|]); auto 6. }
  unfold try_catch, Firestore.doc_get, bind, cloud_call, io_call.
  destruct (cloud_faults w) as [|[] cl] eqn:Ec; simpl.
  - unfold read. simpl. rewrite Ef.
    destruct (docs !! i) as [ex|] eqn:Ed.
    + destruct (cache_locally_quiet ex w Hq) as (t & fl & ->). simpl.
      eexists. split; [reflexivity|]. simpl.
      split; [exact Hq|]. split; [exact Ef|]. split; [auto|].
      right. split; [reflexivity|]. exists ex. auto.
    + exists w. unfold ret. split; [reflexivity|]. auto 6.
  - eexists. split; [reflexivity|]. simpl.
    split; [exact Hq|]. split; [exact Ef|]. split; [auto|]. now left.
  - unfold read. simpl. rewrite Ef.
    destruct (docs !! i) as [ex|] eqn:Ed.
    + destruct (cache_locally_quiet ex (with_cloud_faults cl w) Hq) as (t & fl & ->). simpl.
      eexists. split; [reflexivity|]. simpl.
      split; [exact Hq|]. split; [exact Ef|]. split; [auto|].
      right. split; [reflexivity|]. exists ex. auto.
    + eexists. split; [reflexivity|]. simpl.
      split; [exact Hq|]. split; [exact Ef|]. split; [auto|]. now left.
Qed.

(** The fan-out upsert when no SQLite statement fails. *)
Lemma dual_upsert_quiet (n : Note) (w : World) :
  sql_quiet w →
  ∃ w', DualAdapter.upsert n w = (Normal tt, w')
        ∧ sql_quiet w'
        ∧ sqlite w' = <[id n := SqliteAdapter.row_of_note n]> (sqlite w)
        ∧ (firestore w' = firestore w ∨ firestore w' = insert (id n) n <$> firestore w).
Proof.
  intros Hq. unfold DualAdapter.upsert, bind, DualAdapter.Promise_all2.
  rewrite (sqlite_upsert_quiet n w Hq).
  destruct (file_upsert_frame n
              (with_sqlite (<[id n := SqliteAdapter.row_of_note n]> (sqlite w)) w))
    as (t & fl & -> & _).
  unfold DualAdapter.getFirestoreSafe, read. simpl.
  destruct (firestore w) as [docs|] eqn:Ef; simpl.
  - unfold try_catch, Firestore.doc_set, bind, cloud_call, io_call. simpl.
    destruct (cloud_faults w) as [|[] cl]; simpl;
      (eexists; split; [reflexivity|]); simpl; rewrite ?Ef; auto.
  - eexists. split; [reflexivity|]. simpl. auto.
Qed.

(** ** C1: the classification of a pushed note *)

Lemma push_single (user : User) (raw : RawNote) (w : World) :
  push_batch user [raw] w
  = (match (Sync.push_note user raw w).1 with
     | Normal r => Normal (Sync.PushOk [r])
     | Throw _ => Normal Sync.PushServerError
     end,
     (Sync.push_note user raw w).2).
Proof.
  unfold push_batch, Sync.push, try_catch, bind, Sync.the_user, ret. simpl.
  unfold bind, ret. destruct (Sync.push_note user raw w) as [[r|e] w']; reflexivity.
Qed.

Lemma server_record_same (w w0 : World) (i : string) :
  same_stores w w0 → server_record w0 i = server_record w i.
Proof.
  intros (Hs & Hf & _ & Hc).
  unfold server_record, local_record, remote_record, remote_doc. now rewrite Hs, Hf, Hc.
Qed.

Lemma strict_ne_owner (o : option string) (c : string) :
  Sync.strict_ne o (Some c) = false ↔ o = Some c.
Proof.
  unfold Sync.strict_ne. destruct o as [a|]; [|split; discriminate].
  rewrite negb_false_iff, String.eqb_eq. split; congruence.
Qed.

(** C1: a push of one note by an authenticated caller is classified by the
    server record of the note's id.  Without a server record the note is
    stored with the caller as owner and the outcome is [created]; with a
    server record of another owner the outcome is
    [forbidden_owner_mismatch] and nothing is stored; with a server record
    of the caller the note is stored and the outcome is [updated] when its
    [updatedAt] is strictly greater, and otherwise the record is retained
    and the outcome is [skipped_server_newer]. *)
Theorem push_classified (w w0 : World) (user : User) (c : string) (raw : RawNote)
    (note : Note) :
  user_uid user = Some c →
  c ≠ EmptyString →
  sql_quiet w →
  remote_keyed w →
  Sync.normalizeNoteInput raw (Some user) w = (Normal note, w0) →
  ∃ st w',
    push_batch user [raw] w = (Normal (Sync.PushOk [Sync.mkResult (id note) st]), w')
    ∧ uid note = Some c
    ∧ match server_record w (id note) with
      | None => st = Sync.created ∧ local_record w' (id note) = Some note
      | Some ex =>
          if decide (uid ex = Some c) then
            if decide (updatedAt ex < updatedAt note)
            then st = Sync.updated ∧ local_record w' (id note) = Some note
            else st = Sync.skipped_server_newer ∧ retained (id note) ex w w'
          else st = Sync.forbidden_owner_mismatch ∧ retained (id note) ex w w'
      end.
Proof.
  intros Hu Hc Hq Hk Hn.
  destruct (normalize_frame raw (Some user) w) as (note' & w0' & Hn' & Hsame & Hown & _).
  rewrite Hn in Hn'. injection Hn' as <- <-.
  assert (Huid : uid note = Some c).
  { rewrite Hown. unfold Sync.owner_of. now rewrite Hu. }
  assert (Hq0 : sql_quiet w0) by (unfold sql_quiet; destruct Hsame as (_ & _ & -> & _); exact Hq).
  destruct (dual_get_quiet (id note) w0 Hq0) as (w1 & Hget & Hq1 & Hf1 & _ & Hs1).
  rewrite (server_record_same w w0 _ Hsame) in Hget, Hs1.
  assert (Hret : ∀ ex, server_record w (id note) = Some ex → retained (id note) ex w w1).
  { intros ex Hex. destruct Hsame as (Hs & Hf & _ & _). split; [congruence|].
    rewrite Hs in Hs1. destruct Hs1 as [E|(Hnone & ex' & Hex' & Hdoc & E)];
      [left; congruence|].
    right. split; [exact Hnone|].
    assert (ex' = ex) as -> by congruence.
    assert (id ex = id note) as <-; [|congruence].
    apply Hk. unfold remote_doc in *. now rewrite <- Hf. }
  rewrite push_single. unfold Sync.push_note.
  rewrite (bind_normal _ _ _ _ _ Hn), (bind_normal _ _ _ _ _ Hget).
  destruct (dual_upsert_quiet note w1 Hq1) as (w2 & Hup & _ & Hs2 & _).
  assert (Hstored : local_record w2 (id note) = Some note).
  { unfold local_record. rewrite Hs2, lookup_insert_eq. simpl.
    f_equal. eapply row_round_trip; eauto. }
  destruct (server_record w (id note)) as [ex|] eqn:Eex.
  - destruct (decide (uid ex = Some c)) as [Ho|Ho].
    + rewrite Hu. rewrite (proj2 (strict_ne_owner _ _) Ho).
      destruct (decide (updatedAt ex < updatedAt note)) as [Hlt|Hge].
      * rewrite (proj2 (Z.ltb_lt _ _) Hlt). rewrite (bind_normal _ _ _ _ _ Hup).
        simpl. eauto 6.
      * rewrite (proj2 (Z.ltb_ge _ _)) by lia. simpl. eauto 7.
    + rewrite Hu. destruct (Sync.strict_ne (uid ex) (Some c)) eqn:Es.
      * simpl. eauto 7.
      * apply strict_ne_owner in Es. contradiction.
  - rewrite (bind_normal _ _ _ _ _ Hup). simpl. eauto 6.
Qed.

Lemma push_classified_witness :
  user_uid Runs.u1 = Some "u1"
  ∧ "u1" ≠ EmptyString
  ∧ sql_quiet (Runs.quiet None)
  ∧ remote_keyed (Runs.quiet None)
  ∧ Sync.normalizeNoteInput (Runs.raw "n1" "A" 100) (Some Runs.u1) (Runs.quiet None)
    = (Normal (Runs.note "n1" "u1" "A" 100 false), Runs.quiet None)
  ∧ ∃ st w',
      push_batch Runs.u1 [Runs.raw "n1" "A" 100] (Runs.quiet None)
      = (Normal (Sync.PushOk [Sync.mkResult "n1" st]), w')
      ∧ (server_record (Runs.quiet None) "n1" = None → st = Sync.created).
Proof.
  assert (H1 : user_uid Runs.u1 = Some "u1") by reflexivity.
  assert (H2 : "u1" ≠ EmptyString) by discriminate.
  assert (H3 : sql_quiet (Runs.quiet None)) by reflexivity.
  assert (H4 : remote_keyed (Runs.quiet None)) by (intros k n H; discriminate H).
  assert (H5 : Sync.normalizeNoteInput (Runs.raw "n1" "A" 100) (Some Runs.u1) (Runs.quiet None)
               = (Normal (Runs.note "n1" "u1" "A" 100 false), Runs.quiet None))
    by reflexivity.
  repeat (split; [assumption|]).
  destruct (push_classified _ _ _ _ _ _ H1 H2 H3 H4 H5) as (st & w' & Hp & _ & Hm).
  exists st, w'. split; [exact Hp|].
  intros Hnone. simpl id in Hm. rewrite Hnone in Hm. exact (proj1 Hm).
Defined.

(** The scenario of the specification: [n1] is created by [u1], a staler
    push by [u1] is skipped, a push by [u2] is refused, a newer push by
    [u1] updates the record, and a pull from 0 returns the final record. *)
Example scenario :
  let s1 := push_batch Runs.u1 [Runs.raw "n1" "A" 100] (Runs.quiet None) in
  let s2 := push_batch Runs.u1 [Runs.raw "n1" "B" 50] s1.2 in
  let s3 := push_batch Runs.u2 [Runs.raw "n1" "C" 200] s2.2 in
  let s4 := push_batch Runs.u1 [Runs.raw "n1" "D" 200] s3.2 in
  s1.1 = Normal (Sync.PushOk [Sync.mkResult "n1" Sync.created])
  ∧ s2.1 = Normal (Sync.PushOk [Sync.mkResult "n1" Sync.skipped_server_newer])
  ∧ local_record s2.2 "n1" = Some (Runs.note "n1" "u1" "A" 100 false)
  ∧ s3.1 = Normal (Sync.PushOk [Sync.mkResult "n1" Sync.forbidden_owner_mismatch])
  ∧ s4.1 = Normal (Sync.PushOk [Sync.mkResult "n1" Sync.updated])
  ∧ local_record s4.2 "n1" = Some (Runs.note "n1" "u1" "D" 200 false)
  ∧ (Sync.pull (Sync.mkPullRequest (Some Runs.u1) (Some 0)) s4.2).1
    = Normal (Sync.PullOk [Runs.note "n1" "u1" "D" 200 false]).
Proof. vm_compute. repeat split. Qed.

(** ** C8: two notes of one id, pushed in either order *)

Lemma push_first (w : World) (c : string) (x : Note) :
  c ≠ EmptyString → sql_quiet w → uid x = Some c → server_record w (id x) = None →
  sql_quiet (push_batch (mkUser (Some c)) [raw_of_note x] w).2
  ∧ sqlite (push_batch (mkUser (Some c)) [raw_of_note x] w).2 !! id x
    = Some (SqliteAdapter.row_of_note x).
Proof.
  intros Hc Hq Hu Hnone. rewrite push_single. unfold Sync.push_note.
  rewrite (bind_normal _ _ _ _ _ (normalize_complete x c w Hu)).
  destruct (dual_get_quiet (id x) w Hq) as (w1 & Hget & Hq1 & _).
  rewrite Hnone in Hget. rewrite (bind_normal _ _ _ _ _ Hget).
  destruct (dual_upsert_quiet x w1 Hq1) as (w2 & Hup & Hq2 & Hs2 & _).
  rewrite (bind_normal _ _ _ _ _ Hup). simpl. split; [exact Hq2|].
  rewrite Hs2. apply lookup_insert_eq.
Qed.

Lemma push_second (w : World) (c : string) (x y : Note) :
  c ≠ EmptyString → sql_quiet w → id x = id y → uid x = Some c → uid y = Some c →
  sqlite w !! id x = Some (SqliteAdapter.row_of_note x) →
  local_record (push_batch (mkUser (Some c)) [raw_of_note y] w).2 (id x)
  = Some (if Z.ltb (updatedAt x) (updatedAt y) then y else x).
Proof.
  intros Hc Hq Hid Hux Huy Hrow. rewrite push_single. unfold Sync.push_note.
  rewrite (bind_normal _ _ _ _ _ (normalize_complete y c w Huy)).
  destruct (dual_get_quiet (id y) w Hq) as (w1 & Hget & Hq1 & _ & Hsame & _).
  assert (Hrec : server_record w (id y) = Some x).
  { unfold server_record, local_record. rewrite <- Hid, Hrow. simpl.
    now rewrite (row_round_trip x c Hux Hc). }
  rewrite Hrec in Hget. rewrite (bind_normal _ _ _ _ _ Hget).
  rewrite (Hsame ltac:(rewrite <- Hid, Hrow; eauto)) in *.
  cbn [user_uid]. rewrite (proj2 (strict_ne_owner _ _) Hux).
  destruct (Z.ltb (updatedAt x) (updatedAt y)).
  - destruct (dual_upsert_quiet y w Hq) as (w2 & Hup & _ & Hs2 & _).
    rewrite (bind_normal _ _ _ _ _ Hup). simpl.
    unfold local_record. rewrite Hs2, Hid, lookup_insert_eq. simpl.
    now rewrite (row_round_trip y c Huy Hc).
  - simpl. unfold local_record. rewrite Hrow. simpl.
    now rewrite (row_round_trip x c Hux Hc).
Qed.

(** C8, as the specification words it, is refuted: two notes of one id and
    one [updatedAt], titled A and B, leave A in the store when A is pushed
    first and B when B is pushed first. *)
Lemma equal_timestamps_keep_first :
  ¬ (∀ (w : World) (c : string) (a b : Note),
       c ≠ EmptyString → sql_quiet w → id a = id b →
       uid a = Some c → uid b = Some c → server_record w (id a) = None →
       local_record (push_batch (mkUser (Some c)) [raw_of_note b]
                       (push_batch (mkUser (Some c)) [raw_of_note a] w).2).2 (id a)
       = local_record (push_batch (mkUser (Some c)) [raw_of_note a]
                         (push_batch (mkUser (Some c)) [raw_of_note b] w).2).2 (id a)).
Proof.
  intros H.
  specialize (H (Runs.quiet None) "u1" (Runs.note "n1" "u1" "A" 100 false)
                (Runs.note "n1" "u1" "B" 100 false)
                ltac:(discriminate) eq_refl eq_refl eq_refl eq_refl eq_refl).
  vm_compute in H. discriminate H.
Qed.

(** C8, amended: two notes of one id, both of the caller, pushed from a
    state with no server record of that id.  When their [updatedAt]
    differ, both orders leave the note with the strictly larger
    [updatedAt] in the store; when they are equal, the note already
    stored, that is the one pushed first, is kept, so the final record
    depends on the order. *)
Theorem last_write_wins (w : World) (c : string) (a b : Note) :
  c ≠ EmptyString →
  sql_quiet w →
  id a = id b →
  uid a = Some c →
  uid b = Some c →
  server_record w (id a) = None →
  (updatedAt a < updatedAt b →
   local_record (push_batch (mkUser (Some c)) [raw_of_note b]
                   (push_batch (mkUser (Some c)) [raw_of_note a] w).2).2 (id a) = Some b
   ∧ local_record (push_batch (mkUser (Some c)) [raw_of_note a]
                     (push_batch (mkUser (Some c)) [raw_of_note b] w).2).2 (id a) = Some b)
  ∧ (updatedAt b < updatedAt a →
     local_record (push_batch (mkUser (Some c)) [raw_of_note b]
                     (push_batch (mkUser (Some c)) [raw_of_note a] w).2).2 (id a) = Some a
     ∧ local_record (push_batch (mkUser (Some c)) [raw_of_note a]
                       (push_batch (mkUser (Some c)) [raw_of_note b] w).2).2 (id a) = Some a)
  ∧ (updatedAt a = updatedAt b →
     local_record (push_batch (mkUser (Some c)) [raw_of_note b]
                     (push_batch (mkUser (Some c)) [raw_of_note a] w).2).2 (id a) = Some a
     ∧ local_record (push_batch (mkUser (Some c)) [raw_of_note a]
                       (push_batch (mkUser (Some c)) [raw_of_note b] w).2).2 (id a) = Some b).
Proof.
  intros Hc Hq Hid Hua Hub Hnone.
  destruct (push_first w c a Hc Hq Hua Hnone) as [Hqa Hrowa].
  assert (Hnone' : server_record w (id b) = None) by (now rewrite <- Hid).
  destruct (push_first w c b Hc Hq Hub Hnone') as [Hqb Hrowb].
  pose proof (push_second _ c a b Hc Hqa Hid Hua Hub Hrowa) as Hab.
  pose proof (push_second _ c b a Hc Hqb (eq_sym Hid) Hub Hua Hrowb) as Hba.
  rewrite <- Hid in Hba. rewrite Hab, Hba.
  split; [|split]; intros Ht; split.
  - now rewrite (proj2 (Z.ltb_lt _ _) Ht).
  - now rewrite (proj2 (Z.ltb_ge _ _)) by lia.
  - now rewrite (proj2 (Z.ltb_ge _ _)) by lia.
  - now rewrite (proj2 (Z.ltb_lt _ _) Ht).
  - now rewrite (proj2 (Z.ltb_ge _ _)) by lia.
  - now rewrite (proj2 (Z.ltb_ge _ _)) by lia.
Qed.

Lemma last_write_wins_witness :
  "u1" ≠ EmptyString
  ∧ sql_quiet (Runs.quiet None)
  ∧ id (Runs.note "n1" "u1" "A" 100 false) = id (Runs.note "n1" "u1" "B" 200 false)
  ∧ uid (Runs.note "n1" "u1" "A" 100 false) = Some "u1"
  ∧ uid (Runs.note "n1" "u1" "B" 200 false) = Some "u1"
  ∧ server_record (Runs.quiet None) "n1" = None
  ∧ local_record
      (push_batch Runs.u1 [raw_of_note (Runs.note "n1" "u1" "B" 200 false)]
         (push_batch Runs.u1 [raw_of_note (Runs.note "n1" "u1" "A" 100 false)]
            (Runs.quiet None)).2).2 "n1"
    = Some (Runs.note "n1" "u1" "B" 200 false)
  ∧ local_record
      (push_batch Runs.u1 [raw_of_note (Runs.note "n1" "u1" "A" 100 false)]
         (push_batch Runs.u1 [raw_of_note (Runs.note "n1" "u1" "B" 200 false)]
            (Runs.quiet None)).2).2 "n1"
    = Some (Runs.note "n1" "u1" "B" 200 false).
Proof.
  assert (H1 : "u1" ≠ EmptyString) by discriminate.
  assert (H2 : sql_quiet (Runs.quiet None)) by reflexivity.
  assert (H3 : id (Runs.note "n1" "u1" "A" 100 false) = id (Runs.note "n1" "u1" "B" 200 false))
    by reflexivity.
  assert (H4 : uid (Runs.note "n1" "u1" "A" 100 false) = Some "u1") by reflexivity.
  assert (H5 : uid (Runs.note "n1" "u1" "B" 200 false) = Some "u1") by reflexivity.
  assert (H6 : server_record (Runs.quiet None) (id (Runs.note "n1" "u1" "A" 100 false)) = None)
    by reflexivity.
  repeat (split; [assumption|]).
  apply (proj1 (last_write_wins (Runs.quiet None) "u1" _ _ H1 H2 H3 H4 H5 H6)).
  simpl. lia.
Defined.

(** ** C2: pushes by another principal *)

(** Caching, whatever the faults. *)
Lemma cache_locally_any (ex : Note) (w w' : World) (r : Completion unit) :
  DualAdapter.cache_locally ex w = (r, w') →
  r = Normal tt
  ∧ firestore w' = firestore w
  ∧ (∀ k, k ≠ id ex → sqlite w' !! k = sqlite w !! k).
Proof.
  destruct (cache_locally_frame ex w) as (l & t & fl & [[-> _]| ->]);
    intros [= <- <-]; simpl; (split; [reflexivity|]); (split; [reflexivity|]).
  - reflexivity.
  - intros k Hne. now rewrite lookup_insert_ne.
Qed.

Lemma doc_get_any (j : string) (w : World) :
  ∃ w0, firestore w0 = firestore w
        ∧ sqlite w0 = sqlite w
        ∧ (Firestore.doc_get j w = (Throw FirestoreError, w0)
           ∨ Firestore.doc_get j w = (Normal (remote_doc w j), w0)).
Proof.
  unfold Firestore.doc_get.
  destruct (cloud_call_spec w) as [[_ H]|[(cl & _ & H)|(cl & _ & H)]].
  - exists w. rewrite (bind_normal _ _ _ _ _ H). auto.
  - exists (with_cloud_faults cl w). rewrite (bind_normal _ _ _ _ _ H). auto.
  - exists (with_cloud_faults cl w). rewrite (bind_throw _ _ _ _ _ H). auto.
Qed.

(** The fallback of the lookup to the replica, whatever the faults. *)
Lemma fetch_remote_any (j : string) (w w1 : World) (rg : Completion (option Note)) :
  remote_keyed w →
  try_catch
    (await snap := Firestore.doc_get j in
     match snap with
     | None => ret None
     | Some note => await _ := DualAdapter.cache_locally note in ret (Some note)
     end)
    (fun _ => ret None) w = (rg, w1) →
  firestore w1 = firestore w ∧ (∀ k, k ≠ j → sqlite w1 !! k = sqlite w !! k).
Proof.
  intros Hk.
  destruct (doc_get_any j w) as (w0 & Hf0 & Hs0 & [H|H]).
  - rewrite (try_throw _ _ _ _ _ (bind_throw _ _ _ _ _ H)).
    unfold ret. intros [= <- <-]. split; [exact Hf0 | intros; now rewrite Hs0].
  - unfold try_catch. rewrite (bind_normal _ _ _ _ _ H).
    destruct (remote_doc w j) as [ex|] eqn:Ed.
    + assert (Hid : id ex = j) by (now apply Hk).
      unfold bind. destruct (DualAdapter.cache_locally ex w0) as [rc wc] eqn:Ec.
      apply cache_locally_any in Ec as (-> & Hf & Hs). rewrite Hid in Hs.
      unfold ret. intros [= <- <-]. split; [congruence|].
      intros k Hne. rewrite Hs by exact Hne. now rewrite Hs0.
    + unfold ret. intros [= <- <-]. split; [exact Hf0 | intros; now rewrite Hs0].
Qed.

(** The lookup, whatever the faults: the replica is not written, the table
    changes at most under the id looked up, and a row already there is
    returned as it is, unless the query throws. *)
Lemma dual_get_any (j : string) (w w1 : World) (rg : Completion (option Note)) :
  remote_keyed w →
  DualAdapter.get j w = (rg, w1) →
  firestore w1 = firestore w
  ∧ (∀ k, k ≠ j → sqlite w1 !! k = sqlite w !! k)
  ∧ (∀ row, sqlite w !! j = Some row →
       sqlite w1 = sqlite w
       ∧ (rg = Throw SqlError ∨ rg = Normal (Some (SqliteAdapter.note_of_row j row)))).
Proof.
  intros Hk. unfold DualAdapter.get. unfold bind at 1.
  destruct (SqliteAdapter.get j w) as [r0 w0] eqn:E0.
  apply sqlite_get_frame in E0 as [[l ->] [->| ->]].
  { intros [= <- <-]. simpl. split; [reflexivity|]. split; [reflexivity|].
    intros row _. split; [reflexivity | now left]. }
  destruct (sqlite w !! j) as [row|] eqn:El; simpl.
  { unfold ret. intros [= <- <-]. simpl. split; [reflexivity|]. split; [reflexivity|].
    intros row' [= <-]. split; [reflexivity | now right]. }
  unfold DualAdapter.getFirestoreSafe. rewrite bind_read. simpl.
  assert (Hk' : remote_keyed (with_sql_faults l w)) by exact Hk.
  destruct (firestore w) as [docs|] eqn:Ef; simpl.
  - intros H. apply (fetch_remote_any j _ _ _ Hk') in H as [Hf Hs]. simpl in *.
    split; [congruence|]. split; [exact Hs|]. intros row H; discriminate H.
  - unfold ret. intros [= <- <-]. simpl.
    split; [congruence|]. split; [reflexivity|]. intros row H; discriminate H.
Qed.

(** The fan-out upsert, whatever the faults: both stores change at most
    under the note's id, and the replica stays keyed. *)
Lemma dual_upsert_any (n : Note) (w w' : World) (r : Completion unit) :
  DualAdapter.upsert n w = (r, w') →
  (∀ k, k ≠ id n → sqlite w' !! k = sqlite w !! k)
  ∧ (∀ k, k ≠ id n → remote_doc w' k = remote_doc w k)
  ∧ (remote_keyed w → remote_keyed w').
Proof.
  destruct (dual_upsert_frame n w) as (l & t & fl & d & cl & [[-> _]|(-> & _ & Hd)]);
    intros [= <- <-]; unfold remote_keyed, remote_doc; simpl; repeat split; auto.
  - intros k Hne. now rewrite lookup_insert_ne.
  - intros k Hne. destruct Hd as [->| ->]; [reflexivity|].
    destruct (firestore w); simpl; [|reflexivity]. now rewrite lookup_insert_ne.
  - intros Hk k m. destruct Hd as [->| ->]; [apply Hk|].
    specialize (Hk k m). destruct (firestore w); simpl in *; [|discriminate].
    destruct (decide (id n = k)) as [<-|Hne].
    + rewrite lookup_insert_eq. now intros [= <-].
    + rewrite lookup_insert_ne; auto.
Qed.

Lemma strict_ne_other (a b : string) : a ≠ b → Sync.strict_ne (Some a) (Some b) = true.
Proof.
  intros H. unfold Sync.strict_ne. apply negb_true_iff. now apply String.eqb_neq.
Qed.

(** One note pushed by [b] against a record of [a]. *)
Lemma push_note_foreign (i : string) (r : Row) (d : option Note) (a b : string)
    (user : User) (raw : RawNote) (w w' : World) (res : Completion Sync.PushResult) :
  row_uid r = Some a → user_uid user = Some b → a ≠ b →
  holds_record i r d w →
  Sync.push_note user raw w = (res, w') →
  holds_record i r d w'
  ∧ ∀ x, res = Normal x → Sync.res_id x = i →
         Sync.res_status x = Sync.forbidden_owner_mismatch.
Proof.
  intros Ha Hb Hab (Hrow & Hdoc & Hk). unfold Sync.push_note.
  destruct (normalize_frame raw (Some user) w) as (note & w0 & Hn & (Hs0 & Hf0 & _) & _).
  rewrite (bind_normal _ _ _ _ _ Hn).
  assert (Hk0 : remote_keyed w0) by (unfold remote_keyed, remote_doc in *; now rewrite Hf0).
  unfold bind at 1. destruct (DualAdapter.get (id note) w0) as [rg w1] eqn:Eg.
  destruct (dual_get_any _ _ _ _ Hk0 Eg) as (Hf1 & Hother & Hhit).
  assert (Hk1 : remote_keyed w1) by (unfold remote_keyed, remote_doc in *; now rewrite Hf1).
  assert (Hd1 : remote_doc w1 i = d) by (unfold remote_doc in *; now rewrite Hf1, Hf0).
  destruct (decide (id note = i)) as [Ei|Ni].
  - rewrite Ei in *. rewrite <- Hs0 in Hrow. destruct (Hhit r Hrow) as [Hs1 [->| ->]].
    + intros [= <- <-]. split; [|discriminate].
      split; [congruence|]. auto.
    + simpl. rewrite Ha, Hb, (strict_ne_other a b Hab).
      unfold ret. intros [= <- <-]. split.
      * split; [congruence|]. auto.
      * intros x [= <-] _. reflexivity.
  - assert (Hrow1 : sqlite w1 !! i = Some r) by (rewrite Hother; congruence).
    assert (Hup : ∀ res' w2, (await _ := DualAdapter.upsert note
                              in ret (Sync.mkResult (id note) Sync.created)) w1 = (res', w2)
                 ∨ (await _ := DualAdapter.upsert note
                    in ret (Sync.mkResult (id note) Sync.updated)) w1 = (res', w2) →
                 holds_record i r d w2 ∧ ∀ x, res' = Normal x → Sync.res_id x = i →
                   Sync.res_status x = Sync.forbidden_owner_mismatch).
    { intros res' w2 H. unfold bind in H.
      destruct (DualAdapter.upsert note w1) as [ru wu] eqn:Eu.
      destruct (dual_upsert_any _ _ _ _ Eu) as (Hs & Hr & Hkk).
      assert (Hh : holds_record i r d wu).
      { split; [rewrite Hs; auto|]. split; [rewrite Hr; auto | auto]. }
      destruct ru; unfold ret in H; destruct H as [H|H]; injection H as <- <-;
        (split; [exact Hh|]); try discriminate; intros x [= <-] Hx; simpl in Hx; contradiction. }
    destruct rg as [[ex|]|e].
    + destruct (Sync.strict_ne (uid ex) (user_uid user)).
      * unfold ret. intros [= <- <-]. split; [repeat split; auto|].
        intros x [= <-] Hx. simpl in Hx. contradiction.
      * destruct (Z.ltb (updatedAt ex) (updatedAt note)).
        -- intros H. eapply Hup; eauto.
        -- unfold ret. intros [= <- <-]. split; [repeat split; auto|].
           intros x [= <-] Hx. simpl in Hx. contradiction.
    + intros H. eapply Hup; eauto.
    + intros [= <- <-]. split; [repeat split; auto | discriminate].
Qed.

Lemma push_loop_foreign (i : string) (r : Row) (d : option Note) (a b : string)
    (user : User) (notes : list RawNote) :
  row_uid r = Some a → user_uid user = Some b → a ≠ b →
  ∀ (acc : list Sync.PushResult) (w w' : World) (res : Completion (list Sync.PushResult)),
    holds_record i r d w →
    (∀ x, x ∈ acc → Sync.res_id x = i → Sync.res_status x = Sync.forbidden_owner_mismatch) →
    Sync.push_loop user notes acc w = (res, w') →
    holds_record i r d w'
    ∧ ∀ results, res = Normal results →
        ∀ x, x ∈ results → Sync.res_id x = i →
             Sync.res_status x = Sync.forbidden_owner_mismatch.
Proof.
  intros Ha Hb Hab. induction notes as [|raw rest IH]; intros acc w w' res Hw Hacc; simpl.
  - unfold ret. intros [= <- <-]. split; [exact Hw|]. now intros results [= <-].
  - unfold bind. destruct (Sync.push_note user raw w) as [[x|e] w1] eqn:E;
      destruct (push_note_foreign i r d a b user raw w w1 _ Ha Hb Hab Hw E) as [Hw1 Hx].
    + apply IH; [exact Hw1|]. intros y Hy. apply elem_of_app in Hy as [Hy|Hy]; [auto|].
      apply list_elem_of_singleton in Hy as ->. now apply Hx.
    + intros [= <- <-]. split; [exact Hw1 | discriminate].
Qed.

Lemma push_batch_foreign (i : string) (r : Row) (d : option Note) (a b : string)
    (user : User) (notes : list RawNote) (w : World) :
  row_uid r = Some a → user_uid user = Some b → a ≠ b →
  holds_record i r d w →
  holds_record i r d (push_batch user notes w).2
  ∧ refuses i (push_batch user notes w).1.
Proof.
  intros Ha Hb Hab Hw.
  unfold push_batch, Sync.push, try_catch, refuses. simpl.
  rewrite bind_ret. unfold bind.
  destruct (Sync.push_loop user notes [] w) as [[results|e] w'] eqn:E;
    destruct (push_loop_foreign i r d a b user notes Ha Hb Hab [] w w' _ Hw
                ltac:(intros x Hx; inversion Hx) E) as [Hw' Hres]; simpl.
  - split; [exact Hw'|]. intros results' [= <-]. now apply Hres.
  - split; [exact Hw'|]. discriminate.
Qed.



(** ** Computations that keep an invariant *)

Section Preserves.
Context (P : World → Prop).

Lemma preserves_ret {A} (a : A) : preserves P (ret a).
Proof. intros w Hw. exact Hw. Qed.

Lemma preserves_throw {A} (e : Exn) : preserves P (@throw A e).
Proof. intros w Hw. exact Hw. Qed.

Lemma preserves_read {A} (f : World → A) : preserves P (read f).
Proof. intros w Hw. exact Hw. Qed.

Lemma preserves_bind {A B} (m : Js A) (k : A → Js B) :
  preserves P m → (∀ a, preserves P (k a)) → preserves P (bind m k).
Proof.
  intros Hm Hk w Hw. unfold bind. specialize (Hm w Hw).
  destruct (m w) as [[a|e] w1]; simpl in *; [apply Hk, Hm | exact Hm].
Qed.

Lemma preserves_try {A} (m : Js A) (h : Exn → Js A) :
  preserves P m → (∀ e, preserves P (h e)) → preserves P (try_catch m h).
Proof.
  intros Hm Hh w Hw. unfold try_catch. specialize (Hm w Hw).
  destruct (m w) as [[a|e] w1]; simpl in *; [exact Hm | apply Hh, Hm].
Qed.

Lemma preserves_write (f : World → World) :
  (∀ w, P w → P (f w)) → preserves P (write f).
Proof. intros Hf w Hw. apply Hf, Hw. Qed.

Lemma preserves_io (faults : World → list bool) (rest : list bool → World → World)
    (e : Exn) :
  (∀ l w, P w → P (rest l w)) → preserves P (io_call faults rest e).
Proof.
  intros Hr w Hw. unfold io_call.
  destruct (faults w) as [|[] l]; simpl; auto.
Qed.

Lemma preserves_all2 (a b : Js unit) :
  preserves P a → preserves P b → preserves P (DualAdapter.Promise_all2 a b).
Proof.
  intros Ha Hb w Hw. unfold DualAdapter.Promise_all2. specialize (Ha w Hw).
  destruct (a w) as [ra w1]. simpl in Ha. specialize (Hb w1 Ha).
  destruct (b w1) as [rb w2]. destruct ra, rb; exact Hb.
Qed.

End Preserves.

Ltac keep_step :=
  match goal with
  | |- preserves _ (bind _ _) => apply preserves_bind; [|intros ?]
  | |- preserves _ (try_catch _ _) => apply preserves_try; [|intros ?]
  | |- preserves _ (DualAdapter.Promise_all2 _ _) => apply preserves_all2
  | |- preserves _ (ret _) => apply preserves_ret
  | |- preserves _ (throw _) => apply preserves_throw
  | |- preserves _ (read _) => apply preserves_read
  | |- preserves _ (nullish_or ?o _) => destruct o; simpl
  | |- preserves _ (match ?x with _ => _ end) => destruct x
  end.

Create HintDb keeps.

Ltac keep := repeat keep_step; eauto with keeps.

Lemma keyed_db_call : preserves remote_keyed db_call.
Proof. apply preserves_io. intros l w H. exact H. Qed.

Lemma keyed_fs_call : preserves remote_keyed fs_call.
Proof. apply preserves_io. intros l w H. exact H. Qed.

Lemma keyed_cloud_call : preserves remote_keyed cloud_call.
Proof. apply preserves_io. intros l w H. exact H. Qed.

Lemma keyed_Date_now : preserves remote_keyed Date_now.
Proof. intros w H. exact H. Qed.

Lemma keyed_nanoid : preserves remote_keyed nanoid.
Proof. intros w H. exact H. Qed.

#[local] Hint Resolve keyed_db_call keyed_fs_call keyed_cloud_call keyed_Date_now
  keyed_nanoid : keeps.

Lemma keyed_sqlite_get (i : string) : preserves remote_keyed (SqliteAdapter.get i).
Proof. unfold SqliteAdapter.get. keep. Qed.

Lemma keyed_sqlite_upsert (n : Note) : preserves remote_keyed (SqliteAdapter.upsert n).
Proof.
  pose proof (keyed_sqlite_get (id n)).
  unfold SqliteAdapter.upsert, SqliteAdapter.sql_update, SqliteAdapter.sql_insert.
  keep; apply preserves_write; intros w H; exact H.
Qed.

Lemma keyed_sqlite_find (f : Filters) : preserves remote_keyed (SqliteAdapter.find f).
Proof. unfold SqliteAdapter.find. keep. Qed.

Lemma keyed_file_upsert (n : Note) : preserves remote_keyed (FileAdapter.upsert n).
Proof.
  unfold FileAdapter.upsert. keep.
Qed.

Lemma keyed_doc_get (i : string) : preserves remote_keyed (Firestore.doc_get i).
Proof. unfold Firestore.doc_get. keep. Qed.

Lemma keyed_query (o : option string) : preserves remote_keyed (Firestore.query o).
Proof. unfold Firestore.query. keep. Qed.

Lemma keyed_doc_set (n : Note) : preserves remote_keyed (Firestore.doc_set n).
Proof.
  unfold Firestore.doc_set. keep. apply preserves_write.
  intros w Hr k m. unfold remote_doc. simpl.
  specialize (Hr k m). unfold remote_doc in Hr.
  destruct (firestore w) as [docs|]; simpl; [|discriminate].
  destruct (decide (id n = k)) as [<-|Hne].
  - rewrite lookup_insert_eq. now intros [= <-].
  - rewrite lookup_insert_ne by exact Hne. exact Hr.
Qed.

#[local] Hint Resolve keyed_sqlite_get keyed_sqlite_upsert keyed_sqlite_find
  keyed_file_upsert keyed_doc_get keyed_query keyed_doc_set : keeps.

Lemma keyed_cache_locally (n : Note) : preserves remote_keyed (DualAdapter.cache_locally n).
Proof. unfold DualAdapter.cache_locally. keep. Qed.

#[local] Hint Resolve keyed_cache_locally : keeps.

Lemma keyed_dual_get (i : string) : preserves remote_keyed (DualAdapter.get i).
Proof. unfold DualAdapter.get, DualAdapter.getFirestoreSafe. keep. Qed.

Lemma keyed_dual_upsert (n : Note) : preserves remote_keyed (DualAdapter.upsert n).
Proof. unfold DualAdapter.upsert, DualAdapter.getFirestoreSafe. keep. Qed.

Lemma keyed_merge_remote (S : gset string) (fr : list Note) :
  ∀ merged, preserves remote_keyed (DualAdapter.merge_remote S fr merged).
Proof.
  induction fr as [|rn fr IH]; intros merged; simpl; keep.
Qed.

#[local] Hint Resolve keyed_merge_remote : keeps.

Lemma keyed_dual_find (f : Filters) : preserves remote_keyed (DualAdapter.find f).
Proof. unfold DualAdapter.find, DualAdapter.getFirestoreSafe. keep. Qed.

#[local] Hint Resolve keyed_dual_get keyed_dual_upsert keyed_dual_find : keeps.

Lemma keyed_normalize (raw : RawNote) (u : option User) :
  preserves remote_keyed (Sync.normalizeNoteInput raw u).
Proof. unfold Sync.normalizeNoteInput. keep. Qed.

#[local] Hint Resolve keyed_normalize : keeps.

Lemma keyed_push_note (user : User) (raw : RawNote) :
  preserves remote_keyed (Sync.push_note user raw).
Proof. unfold Sync.push_note. keep. Qed.

#[local] Hint Resolve keyed_push_note : keeps.

Lemma keyed_push_loop (user : User) (notes : list RawNote) :
  ∀ results, preserves remote_keyed (Sync.push_loop user notes results).
Proof. induction notes as [|raw rest IH]; intros results; simpl; keep. Qed.

#[local] Hint Resolve keyed_push_loop : keeps.

Lemma keyed_push (req : Sync.PushRequest) : preserves remote_keyed (Sync.push req).
Proof. unfold Sync.push, Sync.the_user. cbv zeta. keep. Qed.

Lemma keyed_pull (req : Sync.PullRequest) : preserves remote_keyed (Sync.pull req).
Proof. unfold Sync.pull, Sync.the_user. cbv zeta. keep. Qed.

Lemma keyed_get_list (sod eod : string → option Z) (user : option User)
    (query : Notes.Query) :
  preserves remote_keyed (Notes.get_list sod eod user query).
Proof. unfold Notes.get_list. keep. Qed.

Lemma keyed_get_by_id (user : option User) (i : string) :
  preserves remote_keyed (Notes.get_by_id user i).
Proof. unfold Notes.get_by_id. keep. Qed.

Lemma keyed_post (user : option User) (body : RawNote) :
  preserves remote_keyed (Notes.post user body).
Proof. unfold Notes.post, Notes.normalizeNoteInput. keep. Qed.

Lemma keyed_put (user : option User) (i : string) (patch : Notes.Patch) :
  preserves remote_keyed (Notes.put user i patch).
Proof. unfold Notes.put. keep. Qed.

Lemma keyed_delete (user : option User) (i : string) :
  preserves remote_keyed (Notes.delete user i).
Proof. unfold Notes.delete. keep. Qed.

#[local] Hint Resolve keyed_push keyed_pull keyed_get_list keyed_get_by_id keyed_post
  keyed_put keyed_delete : keeps.

Lemma keyed_handle (verify : string → option User) (sod eod : string → option Z)
    (req : Server.Request) :
  preserves remote_keyed (Server.handle verify sod eod req).
Proof. unfold Server.handle, Server.dispatch. keep. Qed.

(** ** C6: a batch and its results *)

Lemma push_note_quiet (user : User) (raw : RawNote) (w : World) :
  sql_quiet w →
  ∃ x w', Sync.push_note user raw w = (Normal x, w')
          ∧ sql_quiet w'
          ∧ ∀ i, raw_id raw = Some i → Sync.res_id x = i.
Proof.
  intros Hq. unfold Sync.push_note.
  destruct (normalize_frame raw (Some user) w) as (note & w0 & Hn & (_ & _ & Hsf & _) & _ & Hid).
  rewrite (bind_normal _ _ _ _ _ Hn).
  assert (Hq0 : sql_quiet w0) by (unfold sql_quiet in *; congruence).
  destruct (dual_get_quiet (id note) w0 Hq0) as (w1 & Hget & Hq1 & _).
  rewrite (bind_normal _ _ _ _ _ Hget).
  destruct (dual_upsert_quiet note w1 Hq1) as (w2 & Hup & Hq2 & _).
  destruct (server_record w0 (id note)) as [ex|].
  - destruct (Sync.strict_ne (uid ex) (user_uid user)); [unfold ret; eauto|].
    destruct (Z.ltb (updatedAt ex) (updatedAt note)); [|unfold ret; eauto].
    rewrite (bind_normal _ _ _ _ _ Hup). unfold ret; eauto.
  - rewrite (bind_normal _ _ _ _ _ Hup). unfold ret; eauto.
Qed.

Lemma push_loop_quiet (user : User) (notes : list RawNote) :
  ∀ (acc : list Sync.PushResult) (w : World),
    sql_quiet w →
    ∃ results w',
      Sync.push_loop user notes acc w = (Normal (acc ++ results), w')
      ∧ Forall2 (fun raw x => ∀ i, raw_id raw = Some i → Sync.res_id x = i) notes results
      ∧ (results, w') = push_singly user notes w.
Proof.
  induction notes as [|raw rest IH]; intros acc w Hq; simpl.
  - exists [], w. unfold ret. rewrite app_nil_r. repeat split; constructor.
  - destruct (push_note_quiet user raw w Hq) as (x & w1 & Hx & Hq1 & Hid).
    rewrite (bind_normal _ _ _ _ _ Hx).
    destruct (IH (acc ++ [x]) w1 Hq1) as (results & w' & Hloop & Hids & Hsingly).
    exists (x :: results), w'. rewrite Hloop, <- app_assoc. split; [reflexivity|].
    split; [now constructor|].
    rewrite push_single, Hx. simpl. rewrite <- Hsingly. reflexivity.
Qed.

Lemma push_note_result_id (user : User) (raw : RawNote) (w w' : World)
    (x : Sync.PushResult) :
  Sync.push_note user raw w = (Normal x, w') →
  ∀ i, raw_id raw = Some i → Sync.res_id x = i.
Proof.
  unfold Sync.push_note.
  destruct (normalize_frame raw (Some user) w) as (note & w0 & Hn & _ & _ & Hid).
  rewrite (bind_normal _ _ _ _ _ Hn). unfold bind at 1.
  destruct (DualAdapter.get (id note) w0) as [[[ex|]|e] w1]; [| |discriminate].
  - destruct (Sync.strict_ne (uid ex) (user_uid user)).
    { unfold ret. intros [= <- <-]. exact Hid. }
    destruct (Z.ltb (updatedAt ex) (updatedAt note)).
    + unfold bind. destruct (DualAdapter.upsert note w1) as [[[]|e] w2]; [|discriminate].
      unfold ret. intros [= <- <-]. exact Hid.
    + unfold ret. intros [= <- <-]. exact Hid.
  - unfold bind. destruct (DualAdapter.upsert note w1) as [[[]|e] w2]; [|discriminate].
    unfold ret. intros [= <- <-]. exact Hid.
Qed.

Lemma dual_get_cause (i : string) (w : World) :
  (∃ e, (DualAdapter.get i w).1 = Throw e) ↔ (SqliteAdapter.get i w).1 = Throw SqlError.
Proof.
  unfold DualAdapter.get. unfold bind at 1.
  destruct (SqliteAdapter.get i w) as [r0 w0] eqn:E0.
  destruct (sqlite_get_frame _ _ _ _ E0) as [_ [->| ->]]; simpl.
  { split; eauto. }
  split; [|discriminate]. intros [e He]. exfalso. revert He.
  destruct (sqlite w !! i) as [row|]; simpl; [discriminate|].
  unfold DualAdapter.getFirestoreSafe. rewrite bind_read.
  destruct (firestore w0); simpl; [|discriminate].
  unfold try_catch, bind.
  destruct (Firestore.doc_get i w0) as [[[ex|]|e'] w1]; try discriminate.
  destruct (cache_locally_normal ex w1) as [w2 ->]. discriminate.
Qed.

Lemma dual_upsert_cause (n : Note) (w : World) :
  (∃ e, (DualAdapter.upsert n w).1 = Throw e) ↔ (SqliteAdapter.upsert n w).1 = Throw SqlError.
Proof.
  destruct (dual_upsert_frame n w) as (l & t & fl & d & cl & [[E H]|[E [H _]]]);
    rewrite E, H; simpl; split; eauto; try discriminate.
  intros [e He]. discriminate.
Qed.

(** The processing of a note throws exactly when SQLite cuts it short;
    what it throws then is the error of SQLite. *)
Lemma push_note_cut_short (user : User) (raw : RawNote) (w : World) :
  cut_short user raw w ↔ ∃ e, (Sync.push_note user raw w).1 = Throw e.
Proof.
  unfold cut_short, Sync.push_note.
  destruct (normalize_frame raw (Some user) w) as (note & w0 & Hn & _).
  rewrite (bind_normal _ _ _ _ _ Hn). split.
  - intros (note' & w0' & Hn' & H). rewrite Hn in Hn'. injection Hn' as <- <-.
    destruct H as [H|(existing & w2 & Hg & Hdec & Hup)].
    + apply dual_get_cause in H as [e He]. exists e. unfold bind.
      destruct (DualAdapter.get (id note) w0) as [[r|e'] w1]; [discriminate He|].
      simpl in *. congruence.
    + rewrite (bind_normal _ _ _ _ _ Hg).
      apply dual_upsert_cause in Hup as [e He]. exists e.
      destruct existing as [ex|].
      * destruct (Hdec ex eq_refl) as [-> Hlt]. apply Z.ltb_lt in Hlt. rewrite Hlt.
        unfold bind. destruct (DualAdapter.upsert note w2) as [[[]|e'] w3];
          [discriminate He | simpl in *; congruence].
      * unfold bind. destruct (DualAdapter.upsert note w2) as [[[]|e'] w3];
          [discriminate He | simpl in *; congruence].
  - intros [e He]. exists note, w0. split; [exact Hn|]. revert He. unfold bind at 1.
    destruct (DualAdapter.get (id note) w0) as [[existing|e'] w2] eqn:Eg.
    + intros He. right. exists existing, w2. split; [reflexivity|].
      assert (Hthrow : ∀ (s : Sync.Status),
                (bind (DualAdapter.upsert note) (fun _ => ret (Sync.mkResult (id note) s)) w2).1
                = Throw e → (SqliteAdapter.upsert note w2).1 = Throw SqlError).
      { intros s H. apply dual_upsert_cause. unfold bind in H.
        destruct (DualAdapter.upsert note w2) as [[[]|e''] w3]; [discriminate H | eauto]. }
      destruct existing as [ex|].
      * destruct (Sync.strict_ne (uid ex) (user_uid user)) eqn:Eo; [discriminate He|].
        destruct (Z.ltb (updatedAt ex) (updatedAt note)) eqn:Elt; [|discriminate He].
        split; [|exact (Hthrow _ He)].
        intros ex' [= <-]. split; [exact Eo | now apply Z.ltb_lt].
      * split; [intros ex H; discriminate H | exact (Hthrow _ He)].
    + intros _. left. apply dual_get_cause. exists e'. now rewrite Eg.
Qed.

Lemma push_note_throws_sql (user : User) (raw : RawNote) (w : World) (e : Exn) :
  (Sync.push_note user raw w).1 = Throw e → ¬ sql_quiet w.
Proof.
  intros He Hq. destruct (push_note_quiet user raw w Hq) as (x & w' & E & _).
  rewrite E in He. discriminate He.
Qed.

(** A note whose processing throws is not stored: the replica is as
    before, and so is every row of the table. *)
Lemma push_note_abort_stores (user : User) (raw : RawNote) (w : World) (e : Exn) :
  remote_keyed w →
  (Sync.push_note user raw w).1 = Throw e →
  firestore (Sync.push_note user raw w).2 = firestore w
  ∧ ∀ j r, sqlite w !! j = Some r → sqlite (Sync.push_note user raw w).2 !! j = Some r.
Proof.
  intros Hk He. destruct (Sync.push_note user raw w) as [res w'] eqn:E.
  simpl in He |- *. subst res. revert E. unfold Sync.push_note.
  destruct (normalize_frame raw (Some user) w) as (note & w0 & Hn & (Hs0 & Hf0 & _) & _).
  rewrite (bind_normal _ _ _ _ _ Hn).
  assert (Hk0 : remote_keyed w0) by (unfold remote_keyed, remote_doc in *; now rewrite Hf0).
  unfold bind at 1.
  destruct (DualAdapter.get (id note) w0) as [rg w1] eqn:Eg.
  destruct (dual_get_any _ _ _ _ Hk0 Eg) as (Hf1 & Hs1 & Hrow).
  assert (Hkeep : ∀ j r, sqlite w !! j = Some r → sqlite w1 !! j = Some r).
  { intros j r Hj. rewrite <- Hs0 in Hj.
    destruct (decide (j = id note)) as [->|Hne].
    - destruct (Hrow r Hj) as [-> _]. exact Hj.
    - now rewrite Hs1. }
  assert (Hup : ∀ (s : Sync.Status),
            bind (DualAdapter.upsert note) (fun _ => ret (Sync.mkResult (id note) s)) w1
            = (Throw e, w') →
            firestore w' = firestore w
            ∧ ∀ j r, sqlite w !! j = Some r → sqlite w' !! j = Some r).
  { intros s. unfold bind.
    destruct (dual_upsert_frame note w1) as (l & t & fl & d & cl & [[E _]|[E _]]);
      rewrite E; simpl; [|discriminate].
    intros [= _ <-]. simpl. split; [now rewrite Hf1 | exact Hkeep]. }
  destruct rg as [[ex|]|e'].
  - destruct (Sync.strict_ne (uid ex) (user_uid user)); [discriminate|].
    destruct (Z.ltb (updatedAt ex) (updatedAt note)); [exact (Hup _) | discriminate].
  - exact (Hup _).
  - intros [= _ <-]. split; [now rewrite Hf1 | exact Hkeep].
Qed.

Lemma push_batch_loop (user : User) (notes : list RawNote) (w : World) :
  push_batch user notes w
  = match Sync.push_loop user notes [] w with
    | (Normal results, w') => (Normal (Sync.PushOk results), w')
    | (Throw _, w') => (Normal Sync.PushServerError, w')
    end.
Proof.
  unfold push_batch, Sync.push, try_catch. simpl. rewrite bind_ret. unfold bind.
  destruct (Sync.push_loop user notes [] w) as [[results|e] w']; reflexivity.
Qed.

(** The loop of [/push], whatever the faults: it runs to its end, or it
    meets a first note whose processing throws. *)
Lemma push_loop_outcome (user : User) (notes : list RawNote) :
  ∀ (acc : list Sync.PushResult) (w : World),
    (∃ results w',
       Sync.push_loop user notes acc w = (Normal (acc ++ results), w')
       ∧ Forall2 (fun raw x => ∀ i, raw_id raw = Some i → Sync.res_id x = i) notes results
       ∧ (results, w') = push_singly user notes w)
    ∨ (∃ k raw results w1 e,
         notes !! k = Some raw
         ∧ Sync.push_loop user (take k notes) acc w = (Normal (acc ++ results), w1)
         ∧ List.length results = k
         ∧ (results, w1) = push_singly user (take k notes) w
         ∧ (Sync.push_note user raw w1).1 = Throw e
         ∧ Sync.push_loop user notes acc w = (Throw e, (Sync.push_note user raw w1).2)
         ∧ Sync.push_loop user (take (S k) notes) acc w
           = (Throw e, (Sync.push_note user raw w1).2)).
Proof.
  induction notes as [|raw rest IH]; intros acc w.
  - left. exists [], w. simpl. unfold ret. rewrite app_nil_r. repeat split; constructor.
  - destruct (Sync.push_note user raw w) as [[x|e] w1] eqn:Ex.
    + destruct (IH (acc ++ [x]) w1)
        as [(results & w' & Hloop & Hids & Hs)
           |(k & raw' & results & w2 & e & Hk & Hpre & Hlen & Hs & He & Hall & Hcut)].
      * left. exists (x :: results), w'. simpl.
        rewrite (bind_normal _ _ _ _ _ Ex), Hloop, <- app_assoc.
        split; [reflexivity|]. split.
        { constructor; [exact (push_note_result_id _ _ _ _ _ Ex) | exact Hids]. }
        rewrite push_single, Ex. simpl. now rewrite <- Hs.
      * right. exists (S k), raw', (x :: results), w2, e.
        split; [exact Hk|]. simpl.
        rewrite !(bind_normal _ _ _ _ _ Ex), Hpre, Hall, <- app_assoc.
        split; [reflexivity|]. split; [simpl; now rewrite Hlen|].
        split.
        { rewrite push_single, Ex. simpl. now rewrite <- Hs. }
        split; [exact He|]. split; [reflexivity|].
        destruct rest as [|r0 rest0]; [discriminate Hk|].
        exact Hcut.
    + right. exists 0%nat, raw, [], w, e. simpl.
      rewrite !(bind_throw _ _ _ _ _ Ex), Ex. unfold ret. rewrite app_nil_r.
      repeat split; reflexivity.
Qed.


(** What the refuting run leaves behind: the first note is stored, the
    third was never processed. *)
Example aborted_batch_state :
  (push_batch Runs.u1 [Runs.raw "n1" "A" 100; Runs.raw "n2" "B" 100; Runs.raw "n3" "C" 100]
     Runs.flaky).1 = Normal Sync.PushServerError
  ∧ local_record
      (push_batch Runs.u1 [Runs.raw "n1" "A" 100; Runs.raw "n2" "B" 100; Runs.raw "n3" "C" 100]
         Runs.flaky).2 "n1" = Some (Runs.note "n1" "u1" "A" 100 false)
  ∧ local_record
      (push_batch Runs.u1 [Runs.raw "n1" "A" 100; Runs.raw "n2" "B" 100; Runs.raw "n3" "C" 100]
         Runs.flaky).2 "n3" = None
  ∧ (push_batch Runs.u1 [Runs.raw "n3" "C" 100]
       (push_batch Runs.u1 [Runs.raw "n1" "A" 100; Runs.raw "n2" "B" 100] Runs.flaky).2).1
    = Normal (Sync.PushOk [Sync.mkResult "n3" Sync.created]).
Proof. vm_compute. repeat split. Qed.

(** A failure that does not end a batch: the SQLite statement that fails
    while the replica's record of [n1] is copied into the primary store
    is dropped, the copy is not made, and both notes are answered. *)
Example caching_failure_is_swallowed :
  (push_batch Runs.u1 [Runs.raw "n1" "A2" 200; Runs.raw "n2" "B" 100]
     (with_sql_faults [false; true] Runs.replica_only)).1
  = Normal (Sync.PushOk [Sync.mkResult "n1" Sync.updated; Sync.mkResult "n2" Sync.created])
  ∧ (DualAdapter.cache_locally (Runs.note "n1" "u1" "A" 100 false)
       (with_sql_faults [true] Runs.replica_only)).1 = Normal tt
  ∧ sqlite (DualAdapter.cache_locally (Runs.note "n1" "u1" "A" 100 false)
              (with_sql_faults [true] Runs.replica_only)).2 = ∅.
Proof. vm_compute. repeat split. Qed.



(** * Further properties of the adapters and the routes *)

(** ** The SQLite adapter: writing and reading back *)

(** X1: after an upsert, [get] of the note's id returns the note as the table
    keeps it (an empty owner becomes [null]; any other note comes back
    identical), and [get] of any other id answers as before. *)
Theorem sqlite_upsert_then_get (n : Note) (w : World) :
  sql_quiet w →
  (SqliteAdapter.get (id n) (SqliteAdapter.upsert n w).2).1
  = Normal (Some (SqliteAdapter.note_of_row (id n) (SqliteAdapter.row_of_note n)))
  ∧ (uid n ≠ Some EmptyString →
     (SqliteAdapter.get (id n) (SqliteAdapter.upsert n w).2).1 = Normal (Some n))
  ∧ ∀ j, j ≠ id n →
      (SqliteAdapter.get j (SqliteAdapter.upsert n w).2).1 = (SqliteAdapter.get j w).1.
Proof.
  intros Hq. rewrite (sqlite_upsert_quiet n w Hq). simpl.
  assert (Hq' : sql_faults
                  (with_sqlite (<[id n := SqliteAdapter.row_of_note n]> (sqlite w)) w) = [])
    by exact Hq.
  assert (Hget : ∀ j, SqliteAdapter.get j
                        (with_sqlite (<[id n := SqliteAdapter.row_of_note n]> (sqlite w)) w)
                      = (Normal (SqliteAdapter.note_of_row j
                                   <$> <[id n := SqliteAdapter.row_of_note n]> (sqlite w) !! j),
                         with_sqlite (<[id n := SqliteAdapter.row_of_note n]> (sqlite w)) w)).
  { intros j. apply (sqlite_get_quiet j _ Hq'). }
  split; [|split].
  - rewrite Hget. simpl. now rewrite lookup_insert_eq.
  - intros Hu. rewrite Hget. simpl. rewrite lookup_insert_eq. simpl. do 2 f_equal.
    destruct n as [i [u|] ? ? ? ? ? ? ? ?]; simpl in *; [|reflexivity].
    unfold SqliteAdapter.note_of_row, SqliteAdapter.row_of_note; simpl.
    destruct u; [congruence | reflexivity].
  - intros j Hj. rewrite Hget, (sqlite_get_quiet j w Hq). simpl.
    now rewrite lookup_insert_ne.
Qed.

Lemma sqlite_upsert_then_get_witness :
  sql_quiet (Runs.quiet None)
  ∧ (SqliteAdapter.get "n1"
       (SqliteAdapter.upsert (Runs.note "n1" "u1" "A" 100 false) (Runs.quiet None)).2).1
    = Normal (Some (Runs.note "n1" "u1" "A" 100 false)).
Proof.
  assert (H : sql_quiet (Runs.quiet None)) by reflexivity.
  split; [exact H|].
  apply (proj1 (proj2 (sqlite_upsert_then_get (Runs.note "n1" "u1" "A" 100 false)
                         (Runs.quiet None) H))).
  discriminate.
Defined.

(** ** The dual adapter: repeated writes and the errors it lets out *)

(** The fan-out upsert with what each tier holds afterwards. *)
Lemma dual_upsert_shape (n : Note) (w : World) :
  ∃ l t fl d cl,
    (t = files w ∨ t = <[id n := n]> (files w))
    ∧ (d = firestore w ∨ d = insert (id n) n <$> firestore w)
    ∧ (DualAdapter.upsert n w
       = (Throw SqlError, with_file_faults fl (with_files t (with_sql_faults l w)))
       ∨ DualAdapter.upsert n w
         = (Normal tt,
            with_cloud_faults cl (with_firestore d
              (with_file_faults fl (with_files t
                 (with_sqlite (<[id n := SqliteAdapter.row_of_note n]> (sqlite w))
                    (with_sql_faults l w))))))).
Proof.
  unfold DualAdapter.upsert, bind, DualAdapter.Promise_all2.
  destruct (SqliteAdapter.upsert n w) as [r w1] eqn:E.
  destruct (sqlite_upsert_frame _ _ _ _ E) as [l [[-> ->]|[-> ->]]].
  - destruct (file_upsert_frame n (with_sql_faults l w)) as (t & fl & -> & Ht).
    exists l, t, fl, (firestore w), (cloud_faults w). auto.
  - destruct (file_upsert_frame n
                (with_sqlite (<[id n := SqliteAdapter.row_of_note n]> (sqlite w))
                   (with_sql_faults l w))) as (t & fl & -> & Ht).
    unfold DualAdapter.getFirestoreSafe, read. simpl.
    destruct (firestore w) as [docs|] eqn:Ef; simpl.
    + unfold try_catch, Firestore.doc_set, bind, cloud_call, io_call. simpl.
      destruct (cloud_faults w) as [|[] cl] eqn:Ec; simpl.
      * exists l, t, fl, (Some (<[id n := n]> docs)), [].
        unfold write, ret. unfold_with. rewrite ?Ef, ?Ec; simpl. auto.
      * exists l, t, fl, (Some docs), cl.
        unfold write, ret. unfold_with. rewrite ?Ef, ?Ec; simpl. auto.
      * exists l, t, fl, (Some (<[id n := n]> docs)), cl.
        unfold write, ret. unfold_with. rewrite ?Ef, ?Ec; simpl. auto.
    + exists l, t, fl, None, (cloud_faults w).
      unfold ret. unfold_with. rewrite ?Ef. auto.
Qed.

(** Whatever faults occur, an upsert of a note leaves the table as it is
    when the table holds the note's row, the files as they are when the
    note's file holds the note, and the collection as it is when the
    note's document holds the note. *)
Lemma upsert_again_changes_nothing (n : Note) (w : World) :
  (sqlite w !! id n = Some (SqliteAdapter.row_of_note n) →
   sqlite (DualAdapter.upsert n w).2 = sqlite w)
  ∧ (files w !! id n = Some n → files (DualAdapter.upsert n w).2 = files w)
  ∧ (remote_doc w (id n) = Some n → firestore (DualAdapter.upsert n w).2 = firestore w).
Proof.
  destruct (dual_upsert_shape n w) as (l & t & fl & d & cl & Ht & Hd & [-> | ->]); simpl.
  - split; [auto|]. split; [|auto].
    intros Hf. destruct Ht as [->| ->]; [reflexivity | now apply insert_id].
  - split; [intros Hs; now apply insert_id|]. split.
    + intros Hf. destruct Ht as [->| ->]; [reflexivity | now apply insert_id].
    + unfold remote_doc. intros Hr. destruct Hd as [->| ->]; [reflexivity|].
      destruct (firestore w) as [docs|]; simpl; [|reflexivity].
      f_equal. now apply insert_id.
Qed.

(** X2: the fan-out upsert is idempotent: after an upsert of a note that met
    no fault, a second upsert of the same note changes neither the table,
    nor the files, nor the collection. *)
Theorem upsert_is_idempotent (n : Note) (w : World) :
  sql_quiet w → file_faults w = [] → cloud_faults w = [] →
  sqlite (DualAdapter.upsert n (DualAdapter.upsert n w).2).2 = sqlite (DualAdapter.upsert n w).2
  ∧ files (DualAdapter.upsert n (DualAdapter.upsert n w).2).2 = files (DualAdapter.upsert n w).2
  ∧ firestore (DualAdapter.upsert n (DualAdapter.upsert n w).2).2
    = firestore (DualAdapter.upsert n w).2.
Proof.
  intros Hq Hf Hc.
  assert (H1 : sqlite (DualAdapter.upsert n w).2 !! id n = Some (SqliteAdapter.row_of_note n)
               ∧ files (DualAdapter.upsert n w).2 !! id n = Some n
               ∧ (firestore w = None ∨ remote_doc (DualAdapter.upsert n w).2 (id n) = Some n)).
  { unfold DualAdapter.upsert at 1 2 3, bind, DualAdapter.Promise_all2.
    rewrite (sqlite_upsert_quiet n w Hq).
    unfold FileAdapter.upsert, try_catch, bind, fs_call, io_call. simpl. rewrite Hf.
    unfold write, DualAdapter.getFirestoreSafe, read. simpl.
    unfold remote_doc. destruct (firestore w) as [docs|] eqn:Ef; simpl.
    - unfold Firestore.doc_set, bind, cloud_call, io_call. simpl. rewrite Hc.
      unfold write. simpl. rewrite Ef. simpl.
      rewrite !lookup_insert_eq. auto.
    - unfold ret. simpl. rewrite !lookup_insert_eq. auto. }
  destruct H1 as (Hs & Hfl & Hr).
  destruct (upsert_again_changes_nothing n (DualAdapter.upsert n w).2) as (A & B & C).
  split; [auto|]. split; [auto|].
  destruct Hr as [Hnone|Hr]; [|auto].
  destruct (dual_upsert_shape n w) as (l & t & fl & d & cl & _ & Hd & [E | E]);
    rewrite E; simpl.
  - destruct (dual_upsert_shape n (with_file_faults fl (with_files t (with_sql_faults l w))))
      as (l2 & t2 & fl2 & d2 & cl2 & _ & Hd2 & [E2 | E2]); rewrite E2; simpl; auto.
    destruct Hd2 as [->| ->]; simpl; [reflexivity|]. now rewrite Hnone.
  - destruct Hd as [->| ->]; rewrite Hnone in *; simpl.
    + match goal with |- firestore (DualAdapter.upsert n ?W).2 = _ =>
        destruct (dual_upsert_shape n W) as (l2 & t2 & fl2 & d2 & cl2 & _ & Hd2 & [E2 | E2])
      end; rewrite E2; simpl; auto.
      destruct Hd2 as [->| ->]; simpl; reflexivity.
    + match goal with |- firestore (DualAdapter.upsert n ?W).2 = _ =>
        destruct (dual_upsert_shape n W) as (l2 & t2 & fl2 & d2 & cl2 & _ & Hd2 & [E2 | E2])
      end; rewrite E2; simpl; auto.
      destruct Hd2 as [->| ->]; simpl; reflexivity.
Qed.

Lemma upsert_is_idempotent_witness :
  sql_quiet (Runs.quiet (Some ∅))
  ∧ file_faults (Runs.quiet (Some ∅)) = []
  ∧ cloud_faults (Runs.quiet (Some ∅)) = []
  ∧ sqlite (DualAdapter.upsert (Runs.note "n1" "u1" "A" 100 false)
              (DualAdapter.upsert (Runs.note "n1" "u1" "A" 100 false)
                 (Runs.quiet (Some ∅))).2).2
    = sqlite (DualAdapter.upsert (Runs.note "n1" "u1" "A" 100 false) (Runs.quiet (Some ∅))).2.
Proof.
  assert (H1 : sql_quiet (Runs.quiet (Some ∅))) by reflexivity.
  assert (H2 : file_faults (Runs.quiet (Some ∅)) = []) by reflexivity.
  assert (H3 : cloud_faults (Runs.quiet (Some ∅)) = []) by reflexivity.
  repeat (split; [assumption|]).
  exact (proj1 (upsert_is_idempotent (Runs.note "n1" "u1" "A" 100 false)
                  (Runs.quiet (Some ∅)) H1 H2 H3)).
Defined.

Lemma caught_never_throws {A} (m : Js A) (a : A) (w : World) :
  ∃ x w', try_catch m (fun _ => ret a) w = (Normal x, w').
Proof. unfold try_catch, ret. destruct (m w) as [[x|e] w']; eauto. Qed.

Lemma dual_get_throw (i : string) (w : World) (e : Exn) :
  (DualAdapter.get i w).1 = Throw e → e = SqlError ∧ ¬ sql_quiet w.
Proof.
  intros H. split.
  - revert H. unfold DualAdapter.get. unfold bind at 1.
    destruct (SqliteAdapter.get i w) as [r0 w0] eqn:E0.
    apply sqlite_get_frame in E0 as [_ [->| ->]]; [simpl; congruence|].
    destruct (sqlite w !! i); simpl; [discriminate|].
    unfold DualAdapter.getFirestoreSafe. rewrite bind_read.
    destruct (negb _); [discriminate|].
    match goal with |- (try_catch ?m _ ?W).1 = _ → _ =>
      destruct (caught_never_throws m None W) as (x & w' & ->) end.
    discriminate.
  - intros Hq. destruct (dual_get_quiet i w Hq) as (w1 & E & _).
    rewrite E in H. discriminate.
Qed.

(** X3: the dual adapter lets no failure of the file mirror or of the remote
    replica out: [get], [upsert] and [find] either return or throw the
    error of a failed SQLite statement, and they return whenever no
    SQLite statement fails. *)
Theorem dual_adapter_absorbs_failures (w : World) (e : Exn) :
  (∀ i, (DualAdapter.get i w).1 = Throw e → e = SqlError ∧ ¬ sql_quiet w)
  ∧ (∀ n, (DualAdapter.upsert n w).1 = Throw e → e = SqlError ∧ ¬ sql_quiet w)
  ∧ (∀ f, (DualAdapter.find f w).1 = Throw e → e = SqlError ∧ ¬ sql_quiet w).
Proof.
  split; [|split].
  - intros i. apply dual_get_throw.
  - intros n H. split.
    + destruct (dual_upsert_frame n w) as (l & t & fl & d & cl & [[E _]|[E _]]);
        rewrite E in H; simpl in H; congruence.
    + intros Hq. destruct (dual_upsert_quiet n w Hq) as (w' & E & _).
      rewrite E in H. discriminate.
  - intros f H. destruct (find_exact f w) as [[E Hq]|E]; rewrite E in H.
    + split; [congruence | exact Hq].
    + discriminate.
Qed.

Lemma dual_adapter_absorbs_failures_witness :
  (DualAdapter.get "n1" (with_sql_faults [true] (Runs.quiet None))).1 = Throw SqlError
  ∧ ¬ sql_quiet (with_sql_faults [true] (Runs.quiet None)).
Proof.
  assert (H : (DualAdapter.get "n1" (with_sql_faults [true] (Runs.quiet None))).1
              = Throw SqlError) by reflexivity.
  split; [exact H|].
  exact (proj2 (proj1 (dual_adapter_absorbs_failures
                         (with_sql_faults [true] (Runs.quiet None)) SqlError) "n1" H)).
Defined.

(** ** Caching of what the replica holds *)

Lemma dual_get_quiet_hit (i : string) (ex : Note) (w : World) :
  sql_quiet w → sqlite w !! i = None → remote_record w i = Some ex →
  ∃ w1, DualAdapter.get i w = (Normal (Some ex), w1)
        ∧ sql_quiet w1
        ∧ firestore w1 = firestore w
        ∧ sqlite w1 = <[id ex := SqliteAdapter.row_of_note ex]> (sqlite w).
Proof.
  intros Hq El Hr. unfold DualAdapter.get.
  rewrite (bind_normal _ _ _ _ _ (sqlite_get_quiet i w Hq)). rewrite El. simpl.
  unfold DualAdapter.getFirestoreSafe, read, bind. simpl.
  unfold remote_record, remote_doc in Hr.
  destruct (firestore w) as [docs|] eqn:Ef; simpl.
  2:{ destruct (cloud_faults w) as [|[] ?]; discriminate. }
  unfold try_catch, Firestore.doc_get, bind, cloud_call, io_call.
  destruct (cloud_faults w) as [|[] cl] eqn:Ec; simpl; [| discriminate |].
  - unfold read. simpl. rewrite Ef, Hr.
    destruct (cache_locally_quiet ex w Hq) as (t & fl & ->). simpl.
    eexists. split; [reflexivity|]. simpl. auto.
  - unfold read. simpl. rewrite Ef, Hr.
    destruct (cache_locally_quiet ex (with_cloud_faults cl w) Hq) as (t & fl & ->). simpl.
    eexists. split; [reflexivity|]. simpl. auto.
Qed.

(** X4: read-through caching: when the primary store has no row for an id and
    the replica answers with a record, [get] returns that record and
    leaves its copy in the primary store; from then on [get] answers
    from the primary store alone, whatever becomes of the replica, and
    changes nothing. *)
Theorem get_caches_remote_record (i : string) (ex : Note) (w : World) :
  sql_quiet w →
  remote_keyed w →
  sqlite w !! i = None →
  remote_record w i = Some ex →
  (DualAdapter.get i w).1 = Normal (Some ex)
  ∧ ∀ d l,
      DualAdapter.get i (with_cloud_faults l (with_firestore d (DualAdapter.get i w).2))
      = (Normal (Some (SqliteAdapter.note_of_row i (SqliteAdapter.row_of_note ex))),
         with_cloud_faults l (with_firestore d (DualAdapter.get i w).2)).
Proof.
  intros Hq Hk El Hr.
  destruct (dual_get_quiet_hit i ex w Hq El Hr) as (w1 & E & Hq1 & Hf1 & Hs1).
  assert (Hid : id ex = i).
  { apply Hk. unfold remote_record in Hr. destruct (cloud_faults w) as [|[] ?]; congruence. }
  rewrite E. simpl. split; [reflexivity|]. intros d l.
  set (W := with_cloud_faults l (with_firestore d w1)).
  assert (HqW : sql_quiet W) by exact Hq1.
  assert (HsW : sqlite W !! i = Some (SqliteAdapter.row_of_note ex)).
  { unfold W. simpl. rewrite Hs1, Hid. apply lookup_insert_eq. }
  destruct (dual_get_quiet i W HqW) as (w2 & E2 & _ & _ & Hsame & _).
  rewrite E2. rewrite (Hsame ltac:(rewrite HsW; eauto)).
  unfold server_record, local_record. now rewrite HsW.
Qed.

Lemma get_caches_remote_record_witness :
  sql_quiet Runs.replica_only
  ∧ remote_keyed Runs.replica_only
  ∧ sqlite Runs.replica_only !! "n1" = None
  ∧ remote_record Runs.replica_only "n1" = Some (Runs.note "n1" "u1" "A" 100 false)
  ∧ (DualAdapter.get "n1" Runs.replica_only).1
    = Normal (Some (Runs.note "n1" "u1" "A" 100 false)).
Proof.
  assert (H1 : sql_quiet Runs.replica_only) by reflexivity.
  assert (H2 : remote_keyed Runs.replica_only).
  { intros k n. unfold remote_doc. simpl. intros H.
    apply lookup_singleton_Some in H as [<- <-]. reflexivity. }
  assert (H3 : sqlite Runs.replica_only !! "n1" = None) by reflexivity.
  assert (H4 : remote_record Runs.replica_only "n1"
               = Some (Runs.note "n1" "u1" "A" 100 false)) by (vm_compute; reflexivity).
  repeat (split; [assumption|]).
  exact (proj1 (get_caches_remote_record "n1" _ Runs.replica_only H1 H2 H3 H4)).
Defined.

Lemma merge_remote_quiet (S : gset string) (fr : list Note) :
  ∀ (merged : list Note) (w : World),
    sql_quiet w →
    ∃ w', DualAdapter.merge_remote S fr merged w
          = (Normal (merged ++ List.filter (fun rn => negb (bool_decide (id rn ∈ S))) fr), w')
          ∧ sql_quiet w'
          ∧ firestore w' = firestore w
          ∧ sqlite w'
            = cached (List.filter (fun rn => negb (bool_decide (id rn ∈ S))) fr) (sqlite w).
Proof.
  induction fr as [|rn fr IH]; intros merged w Hq; simpl.
  - exists w. unfold ret. rewrite app_nil_r. auto.
  - destruct (bool_decide (id rn ∈ S)); simpl.
    + apply IH, Hq.
    + destruct (cache_locally_quiet rn w Hq) as (t & fl & H1).
      rewrite (bind_normal _ _ _ _ _ H1).
      match goal with |- ∃ _, DualAdapter.merge_remote _ _ _ ?W = _ ∧ _ =>
        destruct (IH (merged ++ [rn]) W Hq) as (w2 & H2 & Hq2 & Hf2 & Hs2) end.
      exists w2. rewrite H2, <- app_assoc. simpl in *. auto.
Qed.

Lemma find_quiet_world (f : Filters) (w : World) :
  sql_quiet w → remote_answers w = true →
  ∃ r w', DualAdapter.find f w = (r, w')
          ∧ sqlite w' = cached (remote_only f w) (sqlite w)
          ∧ firestore w' = firestore w.
Proof.
  intros Hq Ha. unfold DualAdapter.find, SqliteAdapter.find.
  rewrite (bind_normal _ _ _ _ _ (bind_normal _ _ _ _ _ (db_call_quiet w Hq))).
  unfold DualAdapter.getFirestoreSafe. rewrite bind_read.
  unfold remote_answers in Ha.
  destruct (firestore w) as [docs|] eqn:Ef; [|discriminate]. simpl.
  assert (Hm : ∀ w1, sql_quiet w1 → firestore w1 = Some docs → sqlite w1 = sqlite w →
            ∃ w2, DualAdapter.merge_remote
                    (list_to_set (List.map id (SqliteAdapter.select
                                                 (SqliteAdapter.where_clauses f) (sqlite w))))
                    (List.filter (fun n => DualAdapter.matchesFilters n f)
                       (Firestore.narrowed (JsValue.truthy_string (f_uid f)) docs))
                    (SqliteAdapter.select (SqliteAdapter.where_clauses f) (sqlite w)) w1
                  = (Normal (merge_order f w), w2)
                  ∧ sqlite w2 = cached (remote_only f w) (sqlite w)
                  ∧ firestore w2 = firestore w).
  { intros w1 Hq1 Hf1 Hs1.
    destruct (merge_remote_quiet
                (list_to_set (List.map id (SqliteAdapter.select
                                             (SqliteAdapter.where_clauses f) (sqlite w))))
                (List.filter (fun n => DualAdapter.matchesFilters n f)
                   (Firestore.narrowed (JsValue.truthy_string (f_uid f)) docs))
                (SqliteAdapter.select (SqliteAdapter.where_clauses f) (sqlite w)) w1 Hq1)
      as (w2 & H2 & _ & Hf2 & Hs2).
    exists w2. unfold merge_order, remote_only, remote_matches, local_ids, local_matches.
    rewrite Ef. rewrite H2, Hs2, Hf2, Hs1, Hf1. auto. }
  unfold try_catch, Firestore.query. unfold bind at 1. unfold bind at 1.
  destruct (cloud_call_spec w) as [[Hc H]|[(cl & Hc & H)|(cl & Hc & H)]];
    rewrite Hc in Ha; try discriminate; rewrite H; unfold read; simpl; rewrite Ef.
  - destruct (Hm w Hq Ef eq_refl) as (w2 & H2 & Hs2 & Hf2).
    rewrite (bind_normal _ _ _ _ _ H2). unfold ret.
    eexists _, _. split; [reflexivity|]. split; [exact Hs2 | congruence].
  - destruct (Hm (with_cloud_faults cl w) Hq Ef eq_refl) as (w2 & H2 & Hs2 & Hf2).
    rewrite (bind_normal _ _ _ _ _ H2). unfold ret.
    eexists _, _. split; [reflexivity|]. split; [exact Hs2 | congruence].
Qed.

Lemma cached_lookup (l : list Note) :
  ∀ t : gmap string Row,
    NoDup (List.map id l) →
    (∀ rn, rn ∈ l → cached l t !! id rn = Some (SqliteAdapter.row_of_note rn))
    ∧ (∀ k, (∀ rn, rn ∈ l → id rn ≠ k) → cached l t !! k = t !! k).
Proof.
  induction l as [|x l IH]; intros t Hnd; simpl.
  - split; [intros rn H; inversion H | reflexivity].
  - apply NoDup_cons in Hnd as [Hx Hnd].
    destruct (IH (<[id x := SqliteAdapter.row_of_note x]> t) Hnd) as [Hin Hout].
    split.
    + intros rn Hrn. apply elem_of_cons in Hrn as [->|Hrn]; [|auto].
      unfold cached in *. simpl. rewrite Hout.
      * apply lookup_insert_eq.
      * intros rn Hrn E. apply Hx. rewrite <- E.
        apply list_elem_of_In, in_map, list_elem_of_In, Hrn.
    + intros k Hk. unfold cached in *. simpl. rewrite Hout.
      * apply lookup_insert_ne. apply Hk. left.
      * intros rn Hrn. apply Hk. now right.
Qed.

(** X5: a search writes into the primary store every remote note it merges:
    when no SQLite statement fails and the replica answers, each remote
    match whose id the local result lacks has its row in the table
    afterwards, whatever row the table held under that id before (a local
    record the filter did not return, a tombstone for one, is replaced),
    and no other row changes. *)
Theorem find_caches_remote_only (f : Filters) (w : World) :
  sql_quiet w →
  remote_answers w = true →
  remote_keyed w →
  (∀ rn, rn ∈ remote_only f w →
     sqlite (DualAdapter.find f w).2 !! id rn = Some (SqliteAdapter.row_of_note rn))
  ∧ (∀ k, (∀ rn, rn ∈ remote_only f w → id rn ≠ k) →
       sqlite (DualAdapter.find f w).2 !! k = sqlite w !! k)
  ∧ firestore (DualAdapter.find f w).2 = firestore w.
Proof.
  intros Hq Ha Hk. destruct (find_quiet_world f w Hq Ha) as (r & w' & E & Hs & Hf).
  rewrite E. simpl. rewrite Hs.
  assert (Hnd : NoDup (List.map id (remote_only f w))).
  { pose proof (merge_order_NoDup f w Hk) as H. unfold merge_order in H.
    rewrite List.map_app in H. apply NoDup_app in H as (_ & _ & H). exact H. }
  destruct (cached_lookup (remote_only f w) (sqlite w) Hnd) as [Hin Hout].
  auto.
Qed.

Lemma find_caches_remote_only_witness :
  sql_quiet Runs.stale_replica
  ∧ remote_answers Runs.stale_replica = true
  ∧ remote_keyed Runs.stale_replica
  ∧ Runs.note "n1" "u1" "A" 100 false ∈ remote_only Runs.mine Runs.stale_replica
  ∧ local_record Runs.stale_replica "n1" = Some (Runs.note "n1" "u1" "A" 200 true)
  ∧ sqlite (DualAdapter.find Runs.mine Runs.stale_replica).2 !! "n1"
    = Some (SqliteAdapter.row_of_note (Runs.note "n1" "u1" "A" 100 false)).
Proof.
  assert (H1 : sql_quiet Runs.stale_replica) by reflexivity.
  assert (H2 : remote_answers Runs.stale_replica = true) by reflexivity.
  assert (H3 : remote_keyed Runs.stale_replica).
  { intros k n. unfold remote_doc. simpl. intros H.
    apply lookup_singleton_Some in H as [<- <-]. reflexivity. }
  assert (H4 : Runs.note "n1" "u1" "A" 100 false ∈ remote_only Runs.mine Runs.stale_replica).
  { assert (E : remote_only Runs.mine Runs.stale_replica
                = [Runs.note "n1" "u1" "A" 100 false]) by (vm_compute; reflexivity).
    rewrite E. apply list_elem_of_here. }
  repeat (split; [assumption|]).
  split; [vm_compute; reflexivity|].
  exact (proj1 (find_caches_remote_only Runs.mine Runs.stale_replica H1 H2 H3) _ H4).
Defined.

(** ** The file adapter: reading back, searching, deleting *)

Lemma fs_call_quiet (w : World) : file_faults w = [] → fs_call w = (Normal tt, w).
Proof. intros H. unfold fs_call, io_call. now rewrite H. Qed.

Lemma fs_call_spec (w : World) :
  (file_faults w = [] ∧ fs_call w = (Normal tt, w))
  ∨ (∃ l, file_faults w = false :: l ∧ fs_call w = (Normal tt, with_file_faults l w))
  ∨ (∃ l, file_faults w = true :: l ∧ fs_call w = (Throw FileError, with_file_faults l w)).
Proof.
  unfold fs_call, io_call. destruct (file_faults w) as [|[] l]; eauto 6.
Qed.

Lemma file_get_quiet (i : string) (w : World) :
  file_faults w = [] → FileAdapter.get i w = (Normal (files w !! i), w).
Proof.
  intros H. unfold FileAdapter.get, try_catch.
  rewrite (bind_normal _ _ _ _ _ (fs_call_quiet w H)), bind_read.
  destruct (files w !! i); reflexivity.
Qed.

Lemma file_upsert_quiet (n : Note) (w : World) :
  file_faults w = [] →
  FileAdapter.upsert n w = (Normal tt, with_files (<[id n := n]> (files w)) w).
Proof.
  intros H. unfold FileAdapter.upsert, try_catch.
  now rewrite (bind_normal _ _ _ _ _ (fs_call_quiet w H)).
Qed.

(** X6: a note whose id is a plain file name, written to the file mirror
    when no file operation fails, is read back unchanged, and the files
    of the other such ids read as before. *)
Theorem file_upsert_then_get (n : Note) (w : World) :
  FileAdapter.plain_id (id n) = true →
  file_faults w = [] →
  (FileAdapter.get (id n) (FileAdapter.upsert n w).2).1 = Normal (Some n)
  ∧ ∀ j, FileAdapter.plain_id j = true → j ≠ id n →
      (FileAdapter.get j (FileAdapter.upsert n w).2).1 = (FileAdapter.get j w).1.
Proof.
  intros _ H. rewrite (file_upsert_quiet n w H). simpl.
  assert (H' : file_faults (with_files (<[id n := n]> (files w)) w) = []) by exact H.
  split.
  - rewrite (file_get_quiet _ _ H'). simpl. now rewrite lookup_insert_eq.
  - intros j _ Hj. rewrite (file_get_quiet _ _ H'), (file_get_quiet _ _ H). simpl.
    now rewrite lookup_insert_ne.
Qed.

Lemma file_upsert_then_get_witness :
  FileAdapter.plain_id "n1" = true
  ∧ file_faults (Runs.quiet None) = []
  ∧ (FileAdapter.get "n1"
       (FileAdapter.upsert (Runs.note "n1" "" "A" 100 false) (Runs.quiet None)).2).1
    = Normal (Some (Runs.note "n1" "" "A" 100 false)).
Proof.
  assert (H : file_faults (Runs.quiet None) = []) by reflexivity.
  split; [reflexivity|]. split; [exact H|].
  exact (proj1 (file_upsert_then_get (Runs.note "n1" "" "A" 100 false) (Runs.quiet None)
                  eq_refl H)).
Defined.

(** X7: the lookup of the file mirror never throws and never changes a file:
    it answers with the file's note, or with [null] when there is no such
    file or the read fails. *)
Theorem file_get_absorbs_failures (i : string) (w : World) :
  ∃ r, (FileAdapter.get i w).1 = Normal r
       ∧ (r = files w !! i ∨ (r = None ∧ ∃ l, file_faults w = true :: l))
       ∧ files (FileAdapter.get i w).2 = files w.
Proof.
  assert (E : ∃ r w', FileAdapter.get i w = (Normal r, w')
                      ∧ (r = files w !! i ∨ (r = None ∧ ∃ l, file_faults w = true :: l))
                      ∧ files w' = files w).
  { unfold FileAdapter.get, try_catch. unfold bind at 1.
    destruct (fs_call_spec w) as [[_ H]|[(l & Hl & H)|(l & Hl & H)]]; rewrite H.
    - rewrite bind_read. destruct (files w !! i); simpl;
        (eexists _, _; split; [reflexivity|]; split; [now left | reflexivity]).
    - rewrite bind_read. simpl. destruct (files w !! i); simpl;
        (eexists _, _; split; [reflexivity|]; split; [now left | reflexivity]).
    - simpl. eexists _, _; split; [reflexivity|]. split; [right; eauto | reflexivity]. }
  destruct E as (r & w' & E & Hr & Hf). exists r. rewrite E. auto.
Qed.

(** *** The passes of [find] and the predicate of the dual adapter *)

Lemma filter_true {A} (l : list A) : List.filter (fun _ => true) l = l.
Proof. induction l as [|x l IH]; simpl; congruence. Qed.

Lemma filter_filter {A} (p q : A → bool) (l : list A) :
  List.filter q (List.filter p l) = List.filter (fun x => p x && q x) l.
Proof.
  induction l as [|x l IH]; [reflexivity|]. simpl.
  destruct (p x); simpl; [destruct (q x)|]; congruence.
Qed.

Lemma when_filter {A} (o : option A) (p : A → Note → bool) (l : list Note) :
  FileAdapter.when o (fun a => List.filter (p a)) l
  = List.filter (fun n => match o with Some a => p a n | None => true end) l.
Proof. destruct o; simpl; [reflexivity|]. now rewrite filter_true. Qed.

Lemma guard_and (c r : bool) : (if c then false else r) = negb c && r.
Proof. now destruct c. Qed.

Lemma guard_option {A} (o : option A) (p : A → bool) :
  negb (match o with Some a => negb (p a) | None => false end)
  = match o with Some a => p a | None => true end.
Proof. destruct o; simpl; [apply negb_involutive | reflexivity]. Qed.

(** The chain of [filter] passes of the file adapter keeps exactly the
    notes [matchesFilters] accepts. *)
Lemma narrow_is_filter (f : Filters) (l : list Note) :
  FileAdapter.narrow f l = List.filter (fun n => DualAdapter.matchesFilters n f) l.
Proof.
  unfold FileAdapter.narrow. cbv zeta.
  rewrite !when_filter.
  assert (Ht : ∀ l0 : list Note,
             match f_tags f with
             | Some (t :: ts) =>
                 List.filter (fun n => forallb (JsValue.array_includes (tags n)) (t :: ts)) l0
             | _ => l0
             end
             = List.filter (fun n => match f_tags f with
                                     | Some (t :: ts) =>
                                         forallb (JsValue.array_includes (tags n)) (t :: ts)
                                     | _ => true
                                     end) l0).
  { intros l0. destruct (f_tags f) as [[|t ts]|]; now rewrite ?filter_true. }
  rewrite Ht, !filter_filter.
  apply List.filter_ext. intros n. unfold DualAdapter.matchesFilters.
  rewrite !guard_and, !guard_option.
  destruct (JsValue.truthy_number (f_updatedAfter f)) as [t|]; rewrite ?Z.ltb_antisym;
    destruct (f_includeDeleted f), (isDeleted n); simpl; rewrite <- ?andb_assoc; reflexivity.
Qed.

Lemma lookup_keys (m : gmap string Note) :
  omap (fun k => m !! k) (List.map fst (map_to_list m)) = List.map snd (map_to_list m).
Proof.
  assert (H : ∀ l : list (string * Note),
             (∀ kv, kv ∈ l → m !! kv.1 = Some kv.2) →
             omap (fun k => m !! k) (List.map fst l) = List.map snd l).
  { induction l as [|[k v] l IH]; intros Hl; [reflexivity|]. simpl.
    pose proof (Hl (k, v) (list_elem_of_here _ _)) as Hk. simpl in Hk.
    rewrite Hk. simpl. f_equal.
    apply IH. intros kv Hkv. apply Hl. now apply list_elem_of_further. }
  apply H. intros [k v] Hkv. now apply elem_of_map_to_list in Hkv.
Qed.

Lemma read_all_quiet (m : gmap string Note) (names : list string) :
  ∀ (notes : list Note) (w : World),
    file_faults w = [] → files w = m →
    FileAdapter.read_all names notes w = (Normal (notes ++ omap (fun k => m !! k) names), w).
Proof.
  induction names as [|k names IH]; intros notes w Hq Hm; simpl.
  - unfold ret. now rewrite app_nil_r.
  - unfold bind at 1, try_catch.
    rewrite (bind_normal _ _ _ _ _ (fs_call_quiet w Hq)), bind_read, Hm.
    destruct (m !! k) as [n|]; simpl.
    + rewrite (IH _ w Hq Hm). now rewrite <- app_assoc.
    + unfold ret. now rewrite (IH _ w Hq Hm).
Qed.

(** Whatever reads fail, the loop returns, with notes that files hold. *)
Lemma read_all_any (m : gmap string Note) (names : list string) :
  ∀ (notes : list Note) (w : World),
    files w = m →
    ∃ more l,
      FileAdapter.read_all names notes w = (Normal (notes ++ more), with_file_faults l w)
      ∧ ∀ n, n ∈ more → ∃ k, m !! k = Some n.
Proof.
  induction names as [|k names IH]; intros notes w Hm; simpl.
  - exists [], (file_faults w). unfold ret, with_file_faults.
    rewrite app_nil_r, world_eta. split; [reflexivity|]. intros n Hn. inversion Hn.
  - unfold bind at 1, try_catch. unfold bind at 1.
    destruct (fs_call_spec w) as [[_ H]|[(l & _ & H)|(l & _ & H)]]; rewrite H.
    + rewrite bind_read, Hm. destruct (m !! k) as [n|] eqn:Ek; simpl.
      * destruct (IH (notes ++ [n]) w Hm) as (more & l2 & E & Hmore).
        exists (n :: more), l2. rewrite E, <- app_assoc. split; [reflexivity|].
        intros x Hx. apply elem_of_cons in Hx as [->|Hx]; eauto.
      * destruct (IH notes w Hm) as (more & l2 & E & Hmore).
        exists more, l2. unfold ret. now rewrite E.
    + rewrite bind_read. simpl. rewrite Hm. destruct (m !! k) as [n|] eqn:Ek; simpl.
      * destruct (IH (notes ++ [n]) (with_file_faults l w) Hm) as (more & l2 & E & Hmore).
        exists (n :: more), l2. rewrite E, <- app_assoc. split; [reflexivity|].
        intros x Hx. apply elem_of_cons in Hx as [->|Hx]; eauto.
      * destruct (IH notes (with_file_faults l w) Hm) as (more & l2 & E & Hmore).
        exists more, l2. unfold ret. now rewrite E.
    + simpl. destruct (IH notes (with_file_faults l w) Hm) as (more & l2 & E & Hmore).
      exists more, l2. unfold ret. now rewrite E.
Qed.

Lemma file_sort_sorted (l : list Note) :
  StronglySorted (fun a b => updatedAt b ≤ updatedAt a) (sort FileAdapter.by_updatedAt_desc l).
Proof. apply merged_sorted. Qed.

(** X8: the search of the file mirror agrees with the filter predicate of the
    dual adapter.  When no file operation fails, it returns the notes of
    all files that [matchesFilters] accepts, newest first, and changes
    nothing.  Whatever fails, a list it returns is sorted by [updatedAt]
    descending and holds only notes that some file holds and that
    [matchesFilters] accepts; and it throws only when listing the
    directory fails. *)
Theorem file_find_agrees_with_matchesFilters (f : Filters) (w : World) :
  (file_faults w = [] →
   FileAdapter.find f w
   = (Normal (sort FileAdapter.by_updatedAt_desc
                (List.filter (fun n => DualAdapter.matchesFilters n f)
                   (List.map snd (map_to_list (files w))))), w))
  ∧ (∀ l, (FileAdapter.find f w).1 = Normal l →
       StronglySorted (fun a b => updatedAt b ≤ updatedAt a) l
       ∧ ∀ n, n ∈ l → (∃ k, files w !! k = Some n) ∧ DualAdapter.matchesFilters n f = true)
  ∧ (∀ e, (FileAdapter.find f w).1 = Throw e → ∃ l, file_faults w = true :: l).
Proof.
  split; [|split].
  - intros Hq. unfold FileAdapter.find.
    rewrite (bind_normal _ _ _ _ _ (fs_call_quiet w Hq)), bind_read.
    rewrite (bind_normal _ _ _ _ _ (read_all_quiet (files w) _ [] w Hq eq_refl)).
    unfold ret. simpl. now rewrite lookup_keys, narrow_is_filter.
  - intros l. unfold FileAdapter.find. unfold bind at 1.
    assert (Hany : ∀ w1, files w1 = files w →
              ∀ l, (bind (read (fun w0 => List.map fst (map_to_list (files w0))))
                      (fun names => bind (FileAdapter.read_all names [])
                         (fun notes => ret (sort FileAdapter.by_updatedAt_desc
                                              (FileAdapter.narrow f notes)))) w1).1 = Normal l →
              StronglySorted (fun a b => updatedAt b ≤ updatedAt a) l
              ∧ ∀ n, n ∈ l → (∃ k, files w !! k = Some n)
                             ∧ DualAdapter.matchesFilters n f = true).
    { intros w1 Hf l0. rewrite bind_read.
      destruct (read_all_any (files w) (List.map fst (map_to_list (files w1))) [] w1 Hf)
        as (more & fl & E & Hmore).
      rewrite (bind_normal _ _ _ _ _ E). unfold ret. simpl. intros [= <-].
      split; [apply file_sort_sorted|]. intros n Hn.
      rewrite narrow_is_filter in Hn.
      apply list_elem_of_In in Hn.
      apply (Permutation_in _ (merged_perm _)) in Hn.
      apply List.filter_In in Hn as [Hn Hm]. apply list_elem_of_In in Hn. auto. }
    destruct (fs_call_spec w) as [[_ H]|[(fl & _ & H)|(fl & _ & H)]]; rewrite H.
    + apply Hany. reflexivity.
    + apply Hany. reflexivity.
    + discriminate.
  - intros e. unfold FileAdapter.find. unfold bind at 1.
    destruct (fs_call_spec w) as [[_ H]|[(fl & _ & H)|(fl & Hfl & H)]]; rewrite H.
    + rewrite bind_read.
      destruct (read_all_any (files w) (List.map fst (map_to_list (files w))) [] w eq_refl)
        as (more & l2 & E & _).
      rewrite (bind_normal _ _ _ _ _ E). discriminate.
    + rewrite bind_read.
      destruct (read_all_any (files w) (List.map fst (map_to_list (files (with_file_faults fl w))))
                  [] (with_file_faults fl w) eq_refl) as (more & l2 & E & _).
      rewrite (bind_normal _ _ _ _ _ E). discriminate.
    + eauto.
Qed.

Lemma file_find_agrees_with_matchesFilters_witness :
  file_faults (with_files {[ "n1" := Runs.note "n1" "u1" "A" 100 false;
                             "n2" := Runs.note "n2" "u2" "B" 200 false ]} (Runs.quiet None)) = []
  ∧ (FileAdapter.find Runs.mine
       (with_files {[ "n1" := Runs.note "n1" "u1" "A" 100 false;
                      "n2" := Runs.note "n2" "u2" "B" 200 false ]} (Runs.quiet None))).1
    = Normal [Runs.note "n1" "u1" "A" 100 false].
Proof.
  split; [reflexivity|].
  rewrite (proj1 (file_find_agrees_with_matchesFilters Runs.mine
                    (with_files {[ "n1" := Runs.note "n1" "u1" "A" 100 false;
                                   "n2" := Runs.note "n2" "u2" "B" 200 false ]}
                       (Runs.quiet None))) eq_refl).
  vm_compute. reflexivity.
Defined.

(** X9: deleting the file of a note whose id is a plain file name: when no
    file operation fails, [deleteFile] returns, the lookup of the id
    answers [null] afterwards, the files of the other such ids are as
    before, and deleting once more changes nothing.  A missing file is
    not an error. *)
Theorem deleteFile_removes (i : string) (w : World) :
  FileAdapter.plain_id i = true →
  file_faults w = [] →
  FileAdapter.deleteFile i w = (Normal tt, (FileAdapter.deleteFile i w).2)
  ∧ files (FileAdapter.deleteFile i w).2 = delete i (files w)
  ∧ (FileAdapter.get i (FileAdapter.deleteFile i w).2).1 = Normal None
  ∧ (∀ j, FileAdapter.plain_id j = true → j ≠ i →
       (FileAdapter.get j (FileAdapter.deleteFile i w).2).1 = (FileAdapter.get j w).1)
  ∧ (files w !! i = None → FileAdapter.deleteFile i w = (Normal tt, w)).
Proof.
  intros _ Hq.
  assert (E : ∃ w', FileAdapter.deleteFile i w = (Normal tt, w')
                    ∧ file_faults w' = [] ∧ files w' = delete i (files w)
                    ∧ (files w !! i = None → w' = w)).
  { unfold FileAdapter.deleteFile.
    rewrite (bind_normal _ _ _ _ _ (fs_call_quiet w Hq)), bind_read.
    destruct (files w !! i) as [n|] eqn:Ei.
    - eexists. split; [reflexivity|]. simpl. split; [exact Hq|]. split; [reflexivity|].
      discriminate.
    - exists w. unfold ret. split; [reflexivity|]. split; [exact Hq|].
      split; [|reflexivity]. symmetry. now apply delete_id. }
  destruct E as (w' & E & Hq' & Hf & Hsame). rewrite E. simpl.
  split; [reflexivity|]. split; [exact Hf|].
  split; [|split].
  - rewrite (file_get_quiet _ _ Hq'). simpl. now rewrite Hf, lookup_delete_eq.
  - intros j _ Hj. rewrite (file_get_quiet _ _ Hq'), (file_get_quiet _ _ Hq). simpl.
    now rewrite Hf, lookup_delete_ne.
  - intros Hn. now rewrite (Hsame Hn).
Qed.

Lemma deleteFile_removes_witness :
  FileAdapter.plain_id "n1" = true
  ∧ file_faults (with_files {[ "n1" := Runs.note "n1" "u1" "A" 100 false ]} (Runs.quiet None)) = []
  ∧ (FileAdapter.get "n1"
       (FileAdapter.deleteFile "n1"
          (with_files {[ "n1" := Runs.note "n1" "u1" "A" 100 false ]} (Runs.quiet None))).2).1
    = Normal None.
Proof.
  split; [reflexivity|]. split; [reflexivity|].
  exact (proj1 (proj2 (proj2 (deleteFile_removes "n1"
           (with_files {[ "n1" := Runs.note "n1" "u1" "A" 100 false ]} (Runs.quiet None))
           eq_refl eq_refl)))).
Defined.

(** ** Tags sent as one comma-separated string *)

Lemma split_not_nil (sep : ascii) (s : string) : JsValue.split sep s ≠ [].
Proof.
  destruct s as [|c s]; simpl; [discriminate|].
  destruct (Ascii.eqb c sep); [discriminate|].
  destruct (JsValue.split sep s); discriminate.
Qed.

Lemma split_pieces (sep : ascii) (s x : string) :
  x ∈ JsValue.split sep s → mentions sep x = false.
Proof.
  revert x. induction s as [|c s IH]; intros x; simpl.
  - intros H. apply list_elem_of_singleton in H as ->. reflexivity.
  - destruct (Ascii.eqb c sep) eqn:E.
    + intros H. apply elem_of_cons in H as [->|H]; [reflexivity | auto].
    + destruct (JsValue.split sep s) as [|y ys] eqn:Es.
      * intros H. apply list_elem_of_singleton in H as ->. simpl. now rewrite E.
      * intros H. apply elem_of_cons in H as [->|H].
        -- simpl. rewrite E. simpl. apply IH. apply list_elem_of_here.
        -- apply IH. now apply list_elem_of_further.
Qed.

Lemma trimStart_mentions (c : ascii) (s : string) :
  mentions c s = false → mentions c (JsValue.trimStart s) = false.
Proof.
  induction s as [|d s IH]; simpl; [auto|].
  intros H. apply orb_false_iff in H as [Hd Hs].
  destruct (JsValue.is_space d); [auto|]. simpl. now rewrite Hd, Hs.
Qed.

Lemma trimEnd_mentions (c : ascii) (s : string) :
  mentions c s = false → mentions c (JsValue.trimEnd s) = false.
Proof.
  induction s as [|d s IH]; simpl; [auto|].
  intros H. apply orb_false_iff in H as [Hd Hs]. specialize (IH Hs).
  destruct (JsValue.trimEnd s) as [|e t].
  - destruct (JsValue.is_space d); simpl; [reflexivity | now rewrite Hd].
  - simpl in *. now rewrite Hd, IH.
Qed.

Lemma trimEnd_idem (s : string) : JsValue.trimEnd (JsValue.trimEnd s) = JsValue.trimEnd s.
Proof.
  induction s as [|c s IH]; simpl; [reflexivity|].
  destruct (JsValue.trimEnd s) as [|e t] eqn:E.
  - destruct (JsValue.is_space c) eqn:Ec; simpl; [reflexivity | now rewrite Ec].
  - change (JsValue.trimEnd (String c (String e t))) with
      (match JsValue.trimEnd (String e t) with
       | EmptyString => if JsValue.is_space c then EmptyString else String c EmptyString
       | u => String c u
       end).
    now rewrite IH.
Qed.

Lemma trimStart_of_trim (s : string) :
  JsValue.trimStart (JsValue.trim s) = JsValue.trim s.
Proof.
  unfold JsValue.trim. induction s as [|c s IH]; simpl; [reflexivity|].
  destruct (JsValue.is_space c) eqn:Ec; [exact IH|]. simpl.
  destruct (JsValue.trimEnd s) as [|e t]; rewrite ?Ec; simpl; rewrite ?Ec; reflexivity.
Qed.

Lemma trim_idem (s : string) : JsValue.trim (JsValue.trim s) = JsValue.trim s.
Proof.
  unfold JsValue.trim at 1. rewrite trimStart_of_trim.
  unfold JsValue.trim. apply trimEnd_idem.
Qed.

Lemma nonempty_true (s : string) : JsValue.nonempty s = true ↔ s ≠ EmptyString.
Proof. destruct s; simpl; split; congruence. Qed.

Lemma split_ascii (sep : ascii) (s x : string) :
  JsValue.ascii_text s = true → x ∈ JsValue.split sep s → JsValue.ascii_text x = true.
Proof.
  revert x. induction s as [|c s IH]; intros x Hs; simpl.
  - intros H. apply list_elem_of_singleton in H as ->. reflexivity.
  - simpl in Hs. apply andb_true_iff in Hs as [Hc Hs].
    destruct (Ascii.eqb c sep).
    + intros H. apply elem_of_cons in H as [->|H]; [reflexivity | auto].
    + destruct (JsValue.split sep s) as [|y ys] eqn:Es.
      * intros H. apply list_elem_of_singleton in H as ->. simpl. now rewrite Hc.
      * intros H. apply elem_of_cons in H as [->|H].
        -- simpl. rewrite Hc. simpl. apply (IH y Hs). apply list_elem_of_here.
        -- apply (IH x Hs). now apply list_elem_of_further.
Qed.

Lemma trimStart_ascii (s : string) :
  JsValue.ascii_text s = true → JsValue.ascii_text (JsValue.trimStart s) = true.
Proof.
  induction s as [|d s IH]; simpl; [auto|].
  intros H. destruct (JsValue.is_space d); [|exact H].
  apply andb_true_iff in H as [_ H]. auto.
Qed.

Lemma trimEnd_ascii (s : string) :
  JsValue.ascii_text s = true → JsValue.ascii_text (JsValue.trimEnd s) = true.
Proof.
  induction s as [|d s IH]; simpl; [auto|].
  intros H. apply andb_true_iff in H as [Hd Hs]. specialize (IH Hs).
  destruct (JsValue.trimEnd s) as [|e t].
  - destruct (JsValue.is_space d); simpl; [reflexivity | now rewrite Hd].
  - simpl in *. now rewrite Hd, IH.
Qed.

Lemma csv_tags_clean (s t : string) :
  JsValue.ascii_text s = true → t ∈ JsValue.csv_tags s → clean_tag t.
Proof.
  unfold JsValue.csv_tags. intros Hs H.
  apply list_elem_of_In, List.filter_In in H as [H Hne].
  apply List.in_map_iff in H as (x & <- & Hx). apply list_elem_of_In in Hx.
  split.
  { unfold JsValue.trim. apply trimEnd_ascii, trimStart_ascii.
    exact (split_ascii _ _ _ Hs Hx). }
  split; [now apply nonempty_true|]. split; [apply trim_idem|].
  unfold JsValue.trim. apply trimEnd_mentions, trimStart_mentions.
  exact (split_pieces _ _ _ Hx).
Qed.

Lemma split_plain (sep : ascii) (x : string) :
  mentions sep x = false → JsValue.split sep x = [x].
Proof.
  induction x as [|c x IH]; simpl; [reflexivity|].
  intros H. apply orb_false_iff in H as [Hc Hx]. now rewrite Hc, (IH Hx).
Qed.

Lemma split_append (sep : ascii) (x rest : string) :
  mentions sep x = false →
  JsValue.split sep (String.append x (String sep rest)) = x :: JsValue.split sep rest.
Proof.
  induction x as [|c x IH]; intros H.
  - rewrite append_nil. simpl. now rewrite Ascii.eqb_refl.
  - simpl in H. apply orb_false_iff in H as [Hc Hx].
    rewrite append_cons. simpl. now rewrite Hc, (IH Hx).
Qed.

Lemma split_join (sep : ascii) (x : string) (l : list string) :
  (∀ t, t ∈ x :: l → mentions sep t = false) →
  JsValue.split sep (join sep (x :: l)) = x :: l.
Proof.
  revert x. induction l as [|y l IH]; intros x H.
  - simpl. apply split_plain, H, list_elem_of_here.
  - change (join sep (x :: y :: l)) with (String.append x (String sep (join sep (y :: l)))).
    rewrite split_append by apply H, list_elem_of_here.
    f_equal. apply IH. intros t Ht. apply H. now apply list_elem_of_further.
Qed.

Lemma csv_tags_join (l : list string) :
  (∀ t, t ∈ l → clean_tag t) → JsValue.csv_tags (join JsValue.comma l) = l.
Proof.
  intros H. unfold JsValue.csv_tags. destruct l as [|x l]; [reflexivity|].
  rewrite split_join by (intros t Ht; apply (H t Ht)).
  generalize dependent (x :: l). clear. intros l H.
  induction l as [|y l IH]; [reflexivity|]. simpl.
  destruct (H y (list_elem_of_here _ _)) as (_ & Hne & Ht & _).
  rewrite Ht. apply nonempty_true in Hne. rewrite Hne. f_equal.
  apply IH. intros t Hin. apply H. now apply list_elem_of_further.
Qed.

(** X10: tags submitted as one string of ASCII text are stored in normal
    form: every tag of the normalised note is ASCII text, non-empty, has
    no white space at either end and holds no comma.  An empty string
    gives no tags. *)
Theorem scalar_tags_are_normalised (raw : RawNote) (u : option User) (s : string)
    (w : World) :
  raw_tags raw = TagsScalar s →
  JsValue.ascii_text s = true →
  ∃ note w', Sync.normalizeNoteInput raw u w = (Normal note, w')
             ∧ tags note = JsValue.csv_tags s
             ∧ ∀ t, t ∈ tags note → clean_tag t.
Proof.
  intros Hs Ha.
  assert (E : ∃ note w', Sync.normalizeNoteInput raw u w = (Normal note, w')
                         ∧ tags note = if JsValue.nonempty s then JsValue.csv_tags s else []).
  { unfold Sync.normalizeNoteInput, bind, nullish_or, nanoid, Date_now, ret.
    destruct (raw_id raw), (raw_createdAt raw), (raw_updatedAt raw); simpl;
      rewrite Hs; eauto. }
  destruct E as (note & w' & E & Ht). exists note, w'. split; [exact E|].
  assert (Ht' : tags note = JsValue.csv_tags s).
  { rewrite Ht. destruct s; reflexivity. }
  split; [exact Ht'|]. rewrite Ht'. intros t. now apply csv_tags_clean.
Qed.

Lemma scalar_tags_are_normalised_witness :
  raw_tags (mkRawNote (Some "n1") None None None (Some 1) (Some 2) None None
              (TagsScalar " work , ,home,") false)
  = TagsScalar " work , ,home,"
  ∧ JsValue.ascii_text " work , ,home," = true
  ∧ ∃ note w',
      Sync.normalizeNoteInput
        (mkRawNote (Some "n1") None None None (Some 1) (Some 2) None None
           (TagsScalar " work , ,home,") false) (Some Runs.u1) (Runs.quiet None)
      = (Normal note, w')
      ∧ tags note = ["work"; "home"].
Proof.
  split; [reflexivity|]. split; [reflexivity|].
  destruct (scalar_tags_are_normalised
              (mkRawNote (Some "n1") None None None (Some 1) (Some 2) None None
                 (TagsScalar " work , ,home,") false)
              (Some Runs.u1) " work , ,home," (Runs.quiet None) eq_refl eq_refl)
    as (note & w' & E & Ht & _).
  exists note, w'. split; [exact E|]. rewrite Ht. vm_compute. reflexivity.
Defined.

(** X11: tags in normal form (ASCII text, not empty, no white space at
    either end, no comma) survive the trip through one comma-separated
    string: a list of such tags, joined with commas and submitted as the
    [tags] field, is stored as the same list. *)
Theorem joined_tags_round_trip (raw : RawNote) (u : option User) (l : list string)
    (w : World) :
  raw_tags raw = TagsScalar (join JsValue.comma l) →
  (∀ t, t ∈ l → clean_tag t) →
  ∃ note w', Sync.normalizeNoteInput raw u w = (Normal note, w') ∧ tags note = l.
Proof.
  intros Hs Hl.
  assert (E : ∃ note w', Sync.normalizeNoteInput raw u w = (Normal note, w')
                         ∧ tags note = if JsValue.nonempty (join JsValue.comma l)
                                       then JsValue.csv_tags (join JsValue.comma l) else []).
  { unfold Sync.normalizeNoteInput, bind, nullish_or, nanoid, Date_now, ret.
    destruct (raw_id raw), (raw_createdAt raw), (raw_updatedAt raw); simpl;
      rewrite Hs; eauto. }
  destruct E as (note & w' & E & Ht). exists note, w'. split; [exact E|].
  rewrite Ht, (csv_tags_join l Hl).
  destruct (JsValue.nonempty (join JsValue.comma l)) eqn:En; [reflexivity|].
  destruct l as [|x l]; [reflexivity|].
  destruct (Hl x (list_elem_of_here _ _)) as (_ & Hne & _).
  destruct x; [congruence|]. destruct l; discriminate.
Qed.

Lemma joined_tags_round_trip_witness :
  raw_tags (mkRawNote (Some "n1") None None None (Some 1) (Some 2) None None
              (TagsScalar "work,home") false)
  = TagsScalar (join JsValue.comma ["work"; "home"])
  ∧ (∀ t, t ∈ ["work"; "home"] → clean_tag t)
  ∧ ∃ note w',
      Sync.normalizeNoteInput
        (mkRawNote (Some "n1") None None None (Some 1) (Some 2) None None
           (TagsScalar "work,home") false) (Some Runs.u1) (Runs.quiet None)
      = (Normal note, w')
      ∧ tags note = ["work"; "home"].
Proof.
  assert (H1 : raw_tags (mkRawNote (Some "n1") None None None (Some 1) (Some 2) None None
                           (TagsScalar "work,home") false)
               = TagsScalar (join JsValue.comma ["work"; "home"])) by reflexivity.
  assert (H2 : ∀ t, t ∈ ["work"; "home"] → clean_tag t).
  { intros t Ht. apply elem_of_cons in Ht as [->|Ht].
    - split; [reflexivity|]. split; [discriminate|]. split; reflexivity.
    - apply list_elem_of_singleton in Ht as ->.
      split; [reflexivity|]. split; [discriminate|]. split; reflexivity. }
  split; [exact H1|]. split; [exact H2|].
  exact (joined_tags_round_trip _ (Some Runs.u1) ["work"; "home"] (Runs.quiet None) H1 H2).
Defined.

(** ** The authorisation middleware *)

Lemma join_split (sep : ascii) (s : string) : join sep (JsValue.split sep s) = s.
Proof.
  induction s as [|c s IH]; [reflexivity|]. simpl.
  destruct (Ascii.eqb_spec c sep) as [->|Hne].
  - destruct (JsValue.split sep s) as [|y ys] eqn:E; [now apply split_not_nil in E|].
    change (join sep (EmptyString :: y :: ys))
      with (String.append EmptyString (String sep (join sep (y :: ys)))).
    now rewrite append_nil, IH.
  - destruct (JsValue.split sep s) as [|y ys] eqn:E; [now apply split_not_nil in E|].
    destruct ys as [|z zs].
    + simpl in *. now rewrite IH.
    + change (join sep (String c y :: z :: zs))
        with (String.append (String c y) (String sep (join sep (z :: zs)))).
      rewrite append_cons. f_equal. exact IH.
Qed.

Lemma truthy_string_Some (o : option string) (h : string) :
  JsValue.truthy_string o = Some h ↔ o = Some h ∧ h ≠ EmptyString.
Proof.
  destruct o as [[|c s]|]; simpl; split; try discriminate; try (intros [[=] _]; fail).
  - intros [[= <-] H]. congruence.
  - intros [= <-]. split; [reflexivity | discriminate].
  - intros [[= <-] _]. reflexivity.
Qed.

(** X12: the middleware lets a request through, with the decoded token as
    [req.user], exactly when the [Authorization] header is a scheme and a
    token separated by one space, neither holding a space, the scheme
    reading [bearer] in any letter case, and the token verifies.  Every
    other request is answered 401. *)
Theorem auth_accepts_bearer_tokens_only (verifyIdToken : string → option User)
    (header : option string) (user : User) :
  Auth.authMiddleware verifyIdToken header = Auth.Next user
  ↔ ∃ scheme token,
      header = Some (String.append scheme (String Auth.space token))
      ∧ mentions Auth.space scheme = false
      ∧ mentions Auth.space token = false
      ∧ JsValue.toLowerCase scheme = "bearer"
      ∧ verifyIdToken token = Some user.
Proof.
  unfold Auth.authMiddleware. split.
  - destruct (JsValue.truthy_string header) as [h|] eqn:Eh; [|discriminate].
    apply truthy_string_Some in Eh as [-> _].
    destruct (JsValue.split Auth.space h) as [|a [|b [|x xs]]] eqn:Es; try discriminate.
    destruct (String.eqb_spec (JsValue.toLowerCase a) "bearer") as [Ea|]; [|discriminate].
    destruct (verifyIdToken b) as [decoded|] eqn:Ev; [|discriminate].
    intros [= <-]. exists a, b.
    split; [f_equal; rewrite <- (join_split Auth.space h), Es; reflexivity|].
    split; [apply (split_pieces Auth.space h); rewrite Es; apply list_elem_of_here|].
    split; [apply (split_pieces Auth.space h); rewrite Es;
            apply list_elem_of_further, list_elem_of_here|].
    auto.
  - intros (a & b & -> & Ha & Hb & Hs & Hv).
    assert (Ht : JsValue.truthy_string (Some (String.append a (String Auth.space b)))
                 = Some (String.append a (String Auth.space b))).
    { apply truthy_string_Some. split; [reflexivity|].
      destruct a; [rewrite append_nil | rewrite append_cons]; discriminate. }
    rewrite Ht, (split_append _ _ _ Ha), (split_plain _ _ Hb), Hs, Hv. reflexivity.
Qed.

Lemma auth_accepts_bearer_tokens_only_witness :
  Auth.authMiddleware (fun t => if String.eqb t "tok" then Some Runs.u1 else None)
    (Some "BeArEr tok")
  = Auth.Next Runs.u1.
Proof.
  apply (proj2 (auth_accepts_bearer_tokens_only
                  (fun t => if String.eqb t "tok" then Some Runs.u1 else None)
                  (Some "BeArEr tok") Runs.u1)).
  exists "BeArEr", "tok". repeat split; reflexivity.
Defined.

(** ** The SQL search and the filter predicate *)

Lemma append_assoc (a b c : string) :
  String.append (String.append a b) c = String.append a (String.append b c).
Proof. induction a as [|x a IH]; [reflexivity|]. rewrite !append_cons. now rewrite IH. Qed.

Lemma like_percent (p s : string) :
  SqliteAdapter.like (String JsValue.percent p) s
  = if SqliteAdapter.like p s then true
    else match s with
         | EmptyString => false
         | String _ s' => SqliteAdapter.like (String JsValue.percent p) s'
         end.
Proof. destruct s; reflexivity. Qed.

Lemma like_char (c d : ascii) (p s : string) :
  c ≠ JsValue.percent →
  SqliteAdapter.like (String c p) (String d s)
  = if Ascii.eqb c JsValue.underscore then SqliteAdapter.like p s
    else if Ascii.eqb (JsValue.lower_char c) (JsValue.lower_char d)
         then SqliteAdapter.like p s else false.
Proof.
  intros H. simpl. destruct (Ascii.eqb_spec c JsValue.percent); [contradiction|].
  now destruct (Ascii.eqb c JsValue.underscore).
Qed.

(** [%] in front of a pattern lets the match start anywhere. *)
Lemma like_star (p pre s : string) :
  SqliteAdapter.like p s = true →
  SqliteAdapter.like (String JsValue.percent p) (String.append pre s) = true.
Proof.
  intros H. induction pre as [|c pre IH].
  - rewrite append_nil, like_percent. now rewrite H.
  - rewrite append_cons, like_percent.
    destruct (SqliteAdapter.like p (String c (String.append pre s))); [reflexivity | exact IH].
Qed.

Lemma like_percent_all (s : string) :
  SqliteAdapter.like (String JsValue.percent EmptyString) s = true.
Proof.
  induction s as [|c s IH]; rewrite like_percent; [reflexivity|]. simpl. exact IH.
Qed.

(** A text matches itself as a pattern, wildcards or not, and [%] after it
    lets anything follow. *)
Lemma like_literal (q post : string) :
  SqliteAdapter.like (String.append q (String JsValue.percent EmptyString))
    (String.append q post) = true.
Proof.
  induction q as [|c q IH].
  - rewrite !append_nil. apply like_percent_all.
  - rewrite !append_cons. destruct (Ascii.eqb_spec c JsValue.percent) as [->|Hne].
    + apply (like_star _ (String JsValue.percent EmptyString) _ IH).
    + rewrite (like_char _ _ _ _ Hne), Ascii.eqb_refl, IH.
      now destruct (Ascii.eqb c JsValue.underscore).
Qed.

Lemma like_contains (s q : string) :
  JsValue.includes s q = true →
  SqliteAdapter.like (String JsValue.percent (String.append q (String JsValue.percent EmptyString)))
    s = true.
Proof.
  intros H. apply includes_spec in H as (pre & post & ->).
  apply like_star, like_literal.
Qed.

Lemma json_join_contains (l : list string) (t : string) :
  t ∈ l →
  ∃ pre post,
    JsValue.json_join l = String.append pre (String.append (JsValue.json_string t) post).
Proof.
  induction l as [|x l IH]; [intros H; inversion H|].
  intros H. apply elem_of_cons in H as [->|H].
  - exists EmptyString. destruct l as [|y l].
    + exists EmptyString. simpl. rewrite append_nil.
      clear. induction (JsValue.json_string x) as [|c s IHs]; [reflexivity|].
      rewrite append_cons. now rewrite <- IHs.
    + exists (String JsValue.comma (JsValue.json_join (y :: l))). reflexivity.
  - destruct (IH H) as (pre & post & E).
    destruct l as [|y l]; [inversion H|].
    exists (String.append (JsValue.json_string x) (String JsValue.comma pre)), post.
    change (JsValue.json_join (x :: y :: l))
      with (String.append (JsValue.json_string x)
              (String JsValue.comma (JsValue.json_join (y :: l)))).
    rewrite E, append_assoc, append_cons. reflexivity.
Qed.

Lemma json_of_tags_contains (l : list string) (t : string) :
  t ∈ l → JsValue.includes (JsValue.json_of_tags l) (JsValue.json_string t) = true.
Proof.
  intros H. destruct (json_join_contains l t H) as (pre & post & E).
  apply includes_spec. unfold JsValue.json_of_tags. rewrite E.
  exists (String.append "[" pre), (String.append post "]").
  now rewrite !append_assoc.
Qed.

Lemma tag_pattern (t : string) :
  JsValue.json_escape t = t →
  SqliteAdapter.wrap (String "%" (String JsValue.dquote EmptyString)) t
    (String JsValue.dquote "%")
  = String JsValue.percent
      (String.append (JsValue.json_string t) (String JsValue.percent EmptyString)).
Proof.
  intros H. unfold SqliteAdapter.wrap, JsValue.json_string. rewrite H.
  rewrite !append_cons, append_nil. f_equal. f_equal.
  now rewrite append_assoc.
Qed.

(** On ASCII text SQLite's [LOWER] is JavaScript's [toLowerCase]. *)
Lemma LOWER_ascii (s : string) :
  JsValue.ascii_text s = true → SqliteAdapter.LOWER s = JsValue.toLowerCase s.
Proof.
  induction s as [|c s IH]; [reflexivity|]. simpl.
  intros H. apply andb_true_iff in H as [_ H]. now rewrite (IH H).
Qed.

(** X13: on ASCII text (the title and the body of the note, the text query
    of the filter) the SQL search of the primary store accepts every note
    the filter predicate of the dual adapter accepts: when
    [matchesFilters] holds of a note, the row of that note satisfies
    every condition [find] puts into its [WHERE] clause, provided the
    tags asked for are written in JSON as they are (no quote, backslash
    or control character).  The converse fails, on ASCII text already:
    [_] and [%] in a text query are wildcards of [LIKE] and plain
    characters for [includes]. *)
Theorem sql_accepts_what_matchesFilters_accepts (n : Note) (f : Filters) :
  (JsValue.ascii_text (title n) = true →
   JsValue.ascii_text (body n) = true →
   (∀ q, f_q f = Some q → JsValue.ascii_text q = true) →
   DualAdapter.matchesFilters n f = true →
   (∀ ts t, f_tags f = Some ts → t ∈ ts → JsValue.json_escape t = t) →
   forallb (SqliteAdapter.holds (SqliteAdapter.row_of_note n)) (SqliteAdapter.where_clauses f)
   = true)
  ∧ ∃ n' f',
      JsValue.ascii_text (title n') = true
      ∧ JsValue.ascii_text (body n') = true
      ∧ (∀ q, f_q f' = Some q → JsValue.ascii_text q = true)
      ∧ forallb (SqliteAdapter.holds (SqliteAdapter.row_of_note n'))
          (SqliteAdapter.where_clauses f') = true
      ∧ DualAdapter.matchesFilters n' f' = false.
Proof.
  split.
  2:{ exists (Runs.note "n1" "u1" "A" 100 false),
             (mkFilters false None (Some "_") None None None None None).
      split; [reflexivity|]. split; [reflexivity|].
      split; [intros q [= <-]; reflexivity|]. split; reflexivity. }
  intros Hat Hab _ Hm Hsafe. unfold DualAdapter.matchesFilters in Hm.
  rewrite !if_false_chain in Hm.
  destruct Hm as (Hdel & Huid & Hq & Haft & Hfrom & Hto & Htime & Htags).
  unfold SqliteAdapter.where_clauses. rewrite !forallb_app, !andb_true_iff.
  split; [|split; [|split; [|split; [|split; [|split; [|split]]]]]].
  - destruct (JsValue.truthy_string (f_uid f)) as [u|] eqn:Eu; [|reflexivity].
    apply negb_false_iff, bool_decide_eq_true in Huid.
    apply truthy_string_Some in Eu as [_ Hne].
    cbn [SqliteAdapter.opt_list forallb SqliteAdapter.holds SqliteAdapter.row_of_note row_uid].
    rewrite Huid. unfold JsValue.or_null. rewrite (truthy_nonempty u Hne).
    now rewrite String.eqb_refl.
  - destruct (f_includeDeleted f); [reflexivity|]. simpl in *.
    now rewrite Hdel.
  - destruct (JsValue.truthy_string (f_q f)) as [q|] eqn:Eq; [|reflexivity].
    apply negb_false_iff, orb_true_iff in Hq.
    cbn [SqliteAdapter.opt_list forallb SqliteAdapter.holds SqliteAdapter.row_of_note
         row_title row_body].
    rewrite andb_true_r, (LOWER_ascii _ Hat), (LOWER_ascii _ Hab). apply orb_true_iff.
    destruct Hq as [Hq|Hq]; [left | right]; exact (like_contains _ _ Hq).
  - destruct (JsValue.truthy_number (f_updatedAfter f)) as [t|]; [|reflexivity].
    rewrite or_zero_id in Haft. apply Z.leb_gt in Haft.
    cbn [SqliteAdapter.opt_list forallb SqliteAdapter.holds SqliteAdapter.row_of_note
         row_updatedAt].
    rewrite andb_true_r. now apply Z.ltb_lt.
  - destruct (JsValue.truthy_number (f_dateFrom f)) as [d|]; [|reflexivity].
    apply negb_false_iff in Hfrom.
    cbn [SqliteAdapter.opt_list forallb SqliteAdapter.holds SqliteAdapter.row_of_note row_date].
    rewrite andb_true_r. destruct (date n) as [v|]; [|discriminate Hfrom].
    simpl in Hfrom. destruct (Z.eqb v 0); [discriminate | exact Hfrom].
  - destruct (JsValue.truthy_number (f_dateTo f)) as [d|]; [|reflexivity].
    apply negb_false_iff in Hto.
    cbn [SqliteAdapter.opt_list forallb SqliteAdapter.holds SqliteAdapter.row_of_note row_date].
    rewrite andb_true_r. destruct (date n) as [v|]; [|discriminate Hto].
    simpl in Hto. destruct (Z.eqb v 0); [discriminate | exact Hto].
  - destruct (JsValue.truthy_string (f_time f)) as [s|]; [|reflexivity].
    apply negb_false_iff, bool_decide_eq_true in Htime.
    cbn [SqliteAdapter.opt_list forallb SqliteAdapter.holds SqliteAdapter.row_of_note row_time].
    rewrite Htime. now rewrite String.eqb_refl.
  - destruct (f_tags f) as [ts|] eqn:Et; [|reflexivity].
    cbn [SqliteAdapter.opt_list]. apply forallb_forall. intros c Hc.
    apply in_map_iff in Hc as (t & <- & Ht). apply list_elem_of_In in Ht.
    cbn [SqliteAdapter.holds SqliteAdapter.row_of_note row_tags].
    rewrite (tag_pattern t (Hsafe ts t eq_refl Ht)).
    apply like_contains, json_of_tags_contains.
    destruct ts as [|t0 ts]; [inversion Ht|].
    rewrite forallb_forall in Htags.
    apply array_includes_spec, Htags, list_elem_of_In, Ht.
Qed.

Lemma sql_accepts_what_matchesFilters_accepts_witness :
  DualAdapter.matchesFilters
    (mkNote "n1" (Some "u1") "Shopping list" "" 1 100 None None ["home"; "todo"] false)
    (mkFilters false (Some "u1") (Some "LIST") (Some 50) None None None (Some ["todo"])) = true
  ∧ JsValue.ascii_text "Shopping list" = true
  ∧ (∀ q, Some "LIST" = Some q → JsValue.ascii_text q = true)
  ∧ (∀ ts t, Some ["todo"] = Some ts → t ∈ ts → JsValue.json_escape t = t)
  ∧ forallb
      (SqliteAdapter.holds
         (SqliteAdapter.row_of_note
            (mkNote "n1" (Some "u1") "Shopping list" "" 1 100 None None ["home"; "todo"] false)))
      (SqliteAdapter.where_clauses
         (mkFilters false (Some "u1") (Some "LIST") (Some 50) None None None (Some ["todo"])))
    = true.
Proof.
  assert (H1 : DualAdapter.matchesFilters
                 (mkNote "n1" (Some "u1") "Shopping list" "" 1 100 None None
                    ["home"; "todo"] false)
                 (mkFilters false (Some "u1") (Some "LIST") (Some 50) None None None
                    (Some ["todo"])) = true) by reflexivity.
  assert (H2 : ∀ ts t, Some ["todo"] = Some ts → t ∈ ts → JsValue.json_escape t = t).
  { intros ts t [= <-] Ht. apply list_elem_of_singleton in Ht as ->. reflexivity. }
  assert (H3 : ∀ q, Some "LIST" = Some q → JsValue.ascii_text q = true)
    by (intros q [= <-]; reflexivity).
  split; [exact H1|]. split; [reflexivity|]. split; [exact H3|]. split; [exact H2|].
  exact (proj1 (sql_accepts_what_matchesFilters_accepts
                  (mkNote "n1" (Some "u1") "Shopping list" "" 1 100 None None
                     ["home"; "todo"] false)
                  (mkFilters false (Some "u1") (Some "LIST") (Some 50) None None None
                     (Some ["todo"])))
           eq_refl eq_refl H3 H1 H2).
Defined.

(** ** The routes of [/notes] *)

(** The lookup of an id the table holds a row for, whatever the faults. *)
Lemma dual_get_local (j : string) (row : Row) (w : World) :
  sqlite w !! j = Some row →
  ∃ l, (DualAdapter.get j w = (Throw SqlError, with_sql_faults l w) ∧ ¬ sql_quiet w)
       ∨ DualAdapter.get j w
         = (Normal (Some (SqliteAdapter.note_of_row j row)), with_sql_faults l w).
Proof.
  intros Hrow. unfold DualAdapter.get, SqliteAdapter.get.
  destruct (db_call_spec w) as [[Hq H]|[(l & Hq & H)|(l & Hq & H)]].
  - exists (sql_faults w). right.
    rewrite (bind_normal _ _ _ _ _ (bind_normal _ _ _ _ _ H)).
    unfold read. simpl. rewrite Hrow. simpl. unfold ret, with_sql_faults.
    now rewrite world_eta.
  - exists l. right.
    rewrite (bind_normal _ _ _ _ _ (bind_normal _ _ _ _ _ H)).
    unfold read. simpl. now rewrite Hrow.
  - exists l. left. split.
    + now rewrite (bind_throw _ _ _ _ _ (bind_throw _ _ _ _ _ H)).
    + unfold sql_quiet. congruence.
Qed.

Lemma strict_ne_foreign (o : option string) (c : string) :
  o ≠ Some c → Sync.strict_ne o (Some c) = true.
Proof.
  intros H. destruct (Sync.strict_ne o (Some c)) eqn:E; [reflexivity|].
  apply strict_ne_owner in E. contradiction.
Qed.

Lemma caller_uid (c : string) :
  c ≠ EmptyString → Notes.caller (Some (mkUser (Some c))) = Some c.
Proof. intros H. unfold Notes.caller. cbn [user_uid]. now apply truthy_nonempty. Qed.

(** X14: [GET /notes/:id] always answers, and it hands a note out only to its
    owner: the note of a 200 answer is owned by the caller.  When no
    SQLite statement fails it answers 404 when there is no server record
    of the id, 403 when the record is owned by somebody else, and the
    record itself otherwise, deleted or not. *)
Theorem get_by_id_serves_owner_only (user : option User) (i : string) (w : World) :
  (∃ r, (Notes.get_by_id user i w).1 = Normal r)
  ∧ (∀ n, (Notes.get_by_id user i w).1 = Normal (Notes.OkNote n) →
       ∃ c, user = Some (mkUser (Some c)) ∧ c ≠ EmptyString ∧ uid n = Some c)
  ∧ (sql_quiet w → ∀ c, Notes.caller user = Some c →
       (Notes.get_by_id user i w).1
       = Normal match server_record w i with
                | None => Notes.NotFound
                | Some n => if decide (uid n = Some c) then Notes.OkNote n else Notes.Forbidden
                end).
Proof.
  unfold Notes.get_by_id, try_catch.
  destruct (Notes.caller user) as [c|] eqn:Ec.
  2:{ unfold ret. simpl. split; [eauto|]. split; [discriminate|]. discriminate. }
  assert (Hu : user = Some (mkUser (Some c)) ∧ c ≠ EmptyString).
  { destruct user as [[[u|]]|]; try discriminate Ec. unfold Notes.caller in Ec.
    cbn [user_uid] in Ec. destruct u; [discriminate|]. injection Ec as <-.
    split; [reflexivity | discriminate]. }
  unfold bind.
  destruct (DualAdapter.get i w) as [[[n|]|e] w1] eqn:Eg; simpl.
  - destruct (Sync.strict_ne (uid n) (Some c)) eqn:Es; simpl.
    + split; [eauto|]. split; [discriminate|].
      intros Hq c' [= <-]. destruct (dual_get_quiet i w Hq) as (w2 & E2 & _).
      rewrite Eg in E2. injection E2 as <- _.
      destruct (decide (uid n = Some c)) as [Ho|Ho]; [|reflexivity].
      apply strict_ne_owner in Ho. congruence.
    + apply strict_ne_owner in Es. split; [eauto|]. split.
      * intros n' [= <-]. exists c. tauto.
      * intros Hq c' [= <-]. destruct (dual_get_quiet i w Hq) as (w2 & E2 & _).
        rewrite Eg in E2. injection E2 as <- _.
        destruct (decide (uid n = Some c)); [reflexivity | contradiction].
  - split; [eauto|]. split; [discriminate|].
    intros Hq c' _. destruct (dual_get_quiet i w Hq) as (w2 & E2 & _).
    rewrite Eg in E2. injection E2 as <- _. reflexivity.
  - split; [eauto|]. split; [discriminate|].
    intros Hq. destruct (dual_get_quiet i w Hq) as (w2 & E2 & _).
    rewrite Eg in E2. discriminate E2.
Qed.

Lemma get_by_id_serves_owner_only_witness :
  sql_quiet Runs.owned_by_u1
  ∧ Notes.caller (Some Runs.u2) = Some "u2"
  ∧ (Notes.get_by_id (Some Runs.u2) "n1" Runs.owned_by_u1).1 = Normal Notes.Forbidden.
Proof.
  assert (H1 : sql_quiet Runs.owned_by_u1) by reflexivity.
  assert (H2 : Notes.caller (Some Runs.u2) = Some "u2") by reflexivity.
  split; [exact H1|]. split; [exact H2|].
  rewrite (proj2 (proj2 (get_by_id_serves_owner_only (Some Runs.u2) "n1" Runs.owned_by_u1))
             H1 "u2" H2).
  vm_compute. reflexivity.
Defined.

(** X15: a record the primary store holds is out of reach of everybody but its
    owner through [GET /notes/:id], [PUT /notes/:id] and
    [DELETE /notes/:id]: for a caller who is not the owner (or for no
    caller at all) each of them answers 401, 403 or 500, whatever the
    body and whatever faults occur, and leaves the table, the files and
    the replica as they are. *)
Theorem notes_routes_refuse_non_owner (user : option User) (i : string) (row : Row)
    (patch : Notes.Patch) (w : World) :
  sqlite w !! i = Some row →
  (∀ c, Notes.caller user = Some c → row_uid row ≠ Some c) →
  (SqlOnly w (Notes.get_by_id user i w).2 ∧ denied (Notes.get_by_id user i w).1)
  ∧ (SqlOnly w (Notes.put user i patch w).2 ∧ denied (Notes.put user i patch w).1)
  ∧ (SqlOnly w (Notes.delete user i w).2 ∧ denied (Notes.delete user i w).1).
Proof.
  intros Hrow Hforeign. unfold Notes.get_by_id, Notes.put, Notes.delete, try_catch, denied.
  destruct (Notes.caller user) as [c|] eqn:Ec.
  2:{ unfold ret. simpl. repeat split; auto using SqlOnly_refl. }
  specialize (Hforeign c eq_refl).
  destruct (dual_get_local i row w Hrow) as (l & [[E _]|E]).
  - rewrite !(bind_throw _ _ _ _ _ E). unfold ret. simpl.
    repeat split; try (now exists l); auto.
  - rewrite !(bind_normal _ _ _ _ _ E).
    assert (Hs : Sync.strict_ne (uid (SqliteAdapter.note_of_row i row)) (Some c) = true)
      by (apply strict_ne_foreign; exact Hforeign).
    rewrite Hs. unfold ret. simpl.
    repeat split; try (now exists l); auto.
Qed.

Lemma notes_routes_refuse_non_owner_witness :
  sqlite Runs.owned_by_u1 !! "n1"
  = Some (SqliteAdapter.row_of_note (Runs.note "n1" "u1" "A" 100 false))
  ∧ (∀ c, Notes.caller (Some Runs.u2) = Some c →
       row_uid (SqliteAdapter.row_of_note (Runs.note "n1" "u1" "A" 100 false)) ≠ Some c)
  ∧ SqlOnly Runs.owned_by_u1 (Notes.delete (Some Runs.u2) "n1" Runs.owned_by_u1).2
  ∧ denied (Notes.delete (Some Runs.u2) "n1" Runs.owned_by_u1).1.
Proof.
  assert (H1 : sqlite Runs.owned_by_u1 !! "n1"
               = Some (SqliteAdapter.row_of_note (Runs.note "n1" "u1" "A" 100 false)))
    by (vm_compute; reflexivity).
  assert (H2 : ∀ c, Notes.caller (Some Runs.u2) = Some c →
                 row_uid (SqliteAdapter.row_of_note (Runs.note "n1" "u1" "A" 100 false))
                 ≠ Some c).
  { intros c [= <-]. discriminate. }
  split; [exact H1|]. split; [exact H2|].
  exact (proj2 (proj2 (notes_routes_refuse_non_owner (Some Runs.u2) "n1" _
                         (Notes.mkPatch None None None None None None None)
                         Runs.owned_by_u1 H1 H2))).
Defined.

(** X16: [POST /notes] checks no ownership: when no SQLite statement fails it
    answers 201 with a note owned by the caller and stores that note
    under its id, whatever record, of whichever owner, the store held
    under that id before; every other row stays as it is. *)
Theorem post_overwrites_any_record (c : string) (raw : RawNote) (w : World) :
  c ≠ EmptyString →
  sql_quiet w →
  ∃ n w',
    Notes.post (Some (mkUser (Some c))) raw w = (Normal (Notes.Created n), w')
    ∧ uid n = Some c
    ∧ (∀ i, raw_id raw = Some i → id n = i)
    ∧ local_record w' (id n) = Some n
    ∧ ∀ j, j ≠ id n → local_record w' j = local_record w j.
Proof.
  intros Hc Hq. unfold Notes.post, try_catch. rewrite (caller_uid c Hc).
  unfold Notes.normalizeNoteInput.
  destruct (normalize_frame raw (Some (mkUser (Some c))) w)
    as (n & w0 & Hn & (Hs0 & _ & Hq0 & _) & Hown & Hid).
  rewrite (bind_normal _ _ _ _ _ Hn).
  assert (Hq0' : sql_quiet w0) by (unfold sql_quiet; congruence).
  destruct (dual_upsert_quiet n w0 Hq0') as (w' & E & _ & Hs' & _).
  rewrite (bind_normal _ _ _ _ _ E). unfold ret.
  assert (Hu : uid n = Some c) by (rewrite Hown; reflexivity).
  exists n, w'. split; [reflexivity|]. split; [exact Hu|]. split; [exact Hid|].
  unfold local_record. rewrite Hs', Hs0. split.
  - rewrite lookup_insert_eq. simpl. f_equal. now apply (row_round_trip n c).
  - intros j Hj. now rewrite lookup_insert_ne.
Qed.

Lemma post_overwrites_any_record_witness :
  "u2" ≠ EmptyString
  ∧ sql_quiet Runs.owned_by_u1
  ∧ local_record Runs.owned_by_u1 "n1" = Some (Runs.note "n1" "u1" "A" 100 false)
  ∧ ∃ n w',
      Notes.post (Some Runs.u2) (Runs.raw "n1" "mine now" 5) Runs.owned_by_u1
      = (Normal (Notes.Created n), w')
      ∧ uid n = Some "u2" ∧ id n = "n1" ∧ local_record w' "n1" = Some n.
Proof.
  assert (H1 : "u2" ≠ EmptyString) by discriminate.
  assert (H2 : sql_quiet Runs.owned_by_u1) by reflexivity.
  split; [exact H1|]. split; [exact H2|]. split; [vm_compute; reflexivity|].
  destruct (post_overwrites_any_record "u2" (Runs.raw "n1" "mine now" 5) Runs.owned_by_u1
              H1 H2) as (n & w' & E & Hu & Hid & Hrec & _).
  exists n, w'. split; [exact E|]. split; [exact Hu|].
  assert (Hi : id n = "n1") by (apply Hid; reflexivity).
  split; [exact Hi|]. now rewrite <- Hi.
Defined.

Lemma local_record_id (w : World) (i : string) (ex : Note) :
  local_record w i = Some ex →
  id ex = i ∧ ∃ row, sqlite w !! i = Some row ∧ ex = SqliteAdapter.note_of_row i row.
Proof.
  unfold local_record. destruct (sqlite w !! i) as [row|]; [|discriminate].
  simpl. intros [= <-]. split; [reflexivity | eauto].
Qed.

(** The lookup and the clock reading that open [PUT] and [DELETE], for the
    owner of a record of the primary store. *)
Lemma owner_reaches_record (c i : string) (ex : Note) (w : World) :
  sql_quiet w → local_record w i = Some ex →
  DualAdapter.get i w = (Normal (Some ex), w).
Proof.
  intros Hq Hrec. destruct (local_record_id w i ex Hrec) as (_ & row & Hrow & _).
  destruct (dual_get_quiet i w Hq) as (w1 & E & _ & _ & Hsame & _).
  rewrite (Hsame ltac:(rewrite Hrow; eauto)) in E. rewrite E.
  unfold server_record. now rewrite Hrec.
Qed.

Lemma get_by_id_quiet_owner (c i : string) (n : Note) (w : World) :
  c ≠ EmptyString → sql_quiet w → local_record w i = Some n → uid n = Some c →
  (Notes.get_by_id (Some (mkUser (Some c))) i w).1 = Normal (Notes.OkNote n).
Proof.
  intros Hc Hq Hrec Hu. unfold Notes.get_by_id, try_catch. rewrite (caller_uid c Hc).
  rewrite (bind_normal _ _ _ _ _ (owner_reaches_record c i n w Hq Hrec)).
  now rewrite (proj2 (strict_ne_owner _ _) Hu).
Qed.

(** X17: [PUT /notes/:id] by the owner of a record of the primary store, when
    no SQLite statement fails: the answer and the stored record are the
    old record overlaid with the fields of the body, under the same id
    and owner, with the reading of the server's clock as [updatedAt],
    whatever [updatedAt] the old record had; no other row changes. *)
Theorem put_by_owner_merges (c i : string) (patch : Notes.Patch) (ex : Note) (w : World) :
  c ≠ EmptyString →
  sql_quiet w →
  local_record w i = Some ex →
  uid ex = Some c →
  ∃ w',
    Notes.put (Some (mkUser (Some c))) i patch w
    = (Normal (Notes.OkNote (Notes.merged ex patch i c (clock w (clock_reads w)))), w')
    ∧ local_record w' i = Some (Notes.merged ex patch i c (clock w (clock_reads w)))
    ∧ (∀ j, j ≠ i → local_record w' j = local_record w j)
    ∧ id (Notes.merged ex patch i c (clock w (clock_reads w))) = id ex
    ∧ uid (Notes.merged ex patch i c (clock w (clock_reads w))) = uid ex.
Proof.
  intros Hc Hq Hrec Hu. unfold Notes.put, try_catch. rewrite (caller_uid c Hc).
  rewrite (bind_normal _ _ _ _ _ (owner_reaches_record c i ex w Hq Hrec)).
  rewrite (proj2 (strict_ne_owner _ _) Hu).
  unfold bind at 1. unfold Date_now at 1.
  set (m := Notes.merged ex patch i c (clock w (clock_reads w))).
  destruct (dual_upsert_quiet m (with_clock_reads (S (clock_reads w)) w) Hq)
    as (w' & E & _ & Hs' & _).
  rewrite (bind_normal _ _ _ _ _ E). unfold ret. exists w'.
  split; [reflexivity|]. unfold local_record. rewrite Hs'. simpl.
  split; [|split; [|split]].
  - rewrite lookup_insert_eq. simpl. f_equal. now apply (row_round_trip m c).
  - intros j Hj. now rewrite lookup_insert_ne.
  - symmetry. apply (local_record_id w i ex Hrec).
  - now rewrite Hu.
Qed.

Lemma put_by_owner_merges_witness :
  "u1" ≠ EmptyString
  ∧ sql_quiet Runs.owned_by_u1
  ∧ local_record Runs.owned_by_u1 "n1" = Some (Runs.note "n1" "u1" "A" 100 false)
  ∧ uid (Runs.note "n1" "u1" "A" 100 false) = Some "u1"
  ∧ ∃ w',
      Notes.put (Some Runs.u1) "n1"
        (Notes.mkPatch (Some "B") None None None None None None) Runs.owned_by_u1
      = (Normal (Notes.OkNote (Runs.note "n1" "u1" "B" 1000 false)), w').
Proof.
  assert (H1 : "u1" ≠ EmptyString) by discriminate.
  assert (H2 : sql_quiet Runs.owned_by_u1) by reflexivity.
  assert (H3 : local_record Runs.owned_by_u1 "n1" = Some (Runs.note "n1" "u1" "A" 100 false))
    by (vm_compute; reflexivity).
  assert (H4 : uid (Runs.note "n1" "u1" "A" 100 false) = Some "u1") by reflexivity.
  repeat (split; [assumption|]).
  destruct (put_by_owner_merges "u1" "n1"
              (Notes.mkPatch (Some "B") None None None None None None)
              (Runs.note "n1" "u1" "A" 100 false) Runs.owned_by_u1 H1 H2 H3 H4)
    as (w' & E & _).
  exists w'. exact E.
Defined.

(** X18: [DELETE /notes/:id] by the owner of a record of the primary store,
    when no SQLite statement fails, deletes softly: the row stays, marked
    deleted and stamped with the reading of the server's clock, with every
    other field as before.  Afterwards a search of the table that does not
    ask for deleted notes never lists the id, [GET /notes/:id] still
    serves the marked record to its owner, and the owner's pull from any
    [lastSync] below the stamp (or from 0) returns the marked record. *)
Theorem delete_marks_and_keeps (c i : string) (ex : Note) (w : World) :
  c ≠ EmptyString →
  sql_quiet w →
  local_record w i = Some ex →
  uid ex = Some c →
  ∃ w',
    Notes.delete (Some (mkUser (Some c))) i w = (Normal Notes.OkTrue, w')
    ∧ local_record w' i = Some (Notes.tombstone ex (clock w (clock_reads w)))
    ∧ (∀ j, j ≠ i → local_record w' j = local_record w j)
    ∧ (∀ f, f_includeDeleted f = false →
         ∃ l, (SqliteAdapter.find f w').1 = Normal l ∧ ∀ n, n ∈ l → id n ≠ i)
    ∧ (Notes.get_by_id (Some (mkUser (Some c))) i w').1
      = Normal (Notes.OkNote (Notes.tombstone ex (clock w (clock_reads w))))
    ∧ (∀ o, Sync.default (JsValue.truthy_number o) 0 = 0
            ∨ Sync.default (JsValue.truthy_number o) 0 < clock w (clock_reads w) →
         ∃ l, (Sync.pull (Sync.mkPullRequest (Some (mkUser (Some c))) o) w').1
              = Normal (Sync.PullOk l)
              ∧ Notes.tombstone ex (clock w (clock_reads w)) ∈ l).
Proof.
  intros Hc Hq Hrec Hu.
  destruct (local_record_id w i ex Hrec) as (Hid & _).
  set (tomb := Notes.tombstone ex (clock w (clock_reads w))).
  assert (E : ∃ w', Notes.delete (Some (mkUser (Some c))) i w = (Normal Notes.OkTrue, w')
                    ∧ sql_quiet w'
                    ∧ sqlite w' = <[i := SqliteAdapter.row_of_note tomb]> (sqlite w)).
  { unfold Notes.delete, try_catch. rewrite (caller_uid c Hc).
    rewrite (bind_normal _ _ _ _ _ (owner_reaches_record c i ex w Hq Hrec)).
    rewrite (proj2 (strict_ne_owner _ _) Hu).
    unfold bind at 1. unfold Date_now at 1. fold tomb.
    destruct (dual_upsert_quiet tomb (with_clock_reads (S (clock_reads w)) w) Hq)
      as (w' & E & Hq' & Hs' & _).
    rewrite (bind_normal _ _ _ _ _ E). unfold ret. exists w'.
    split; [reflexivity|]. split; [exact Hq'|]. rewrite Hs'. simpl. now rewrite Hid. }
  destruct E as (w' & E & Hq' & Hs'). exists w'. split; [exact E|].
  assert (Hrt : SqliteAdapter.note_of_row i (SqliteAdapter.row_of_note tomb) = tomb).
  { rewrite <- Hid. apply (row_round_trip tomb c); [exact Hu | exact Hc]. }
  assert (Hrec' : local_record w' i = Some tomb).
  { unfold local_record. rewrite Hs', lookup_insert_eq. simpl. now rewrite Hrt. }
  split; [exact Hrec'|]. split; [|split; [|split]].
  - intros j Hj. unfold local_record. rewrite Hs'. now rewrite lookup_insert_ne.
  - intros f Hf. exists (local_matches f w'). split.
    + unfold SqliteAdapter.find.
      now rewrite (bind_normal _ _ _ _ _ (db_call_quiet w' Hq')).
    + intros n Hn Hi. unfold local_matches in Hn.
      apply elem_of_select in Hn as (r & Hr & _ & Hconds).
      rewrite Hi, Hs', lookup_insert_eq in Hr. injection Hr as <-.
      unfold SqliteAdapter.where_clauses in Hconds. rewrite Hf in Hconds.
      rewrite forallb_app in Hconds. apply andb_true_iff in Hconds as [_ Hconds].
      simpl in Hconds. discriminate Hconds.
  - apply (get_by_id_quiet_owner c i tomb w' Hc Hq' Hrec' Hu).
  - intros o Ht. rewrite pull_as_find. simpl.
    set (t := Sync.default (JsValue.truthy_number o) 0) in *.
    destruct (find_exact (pull_filters (Some c) t) w') as [[_ Hnq]|H]; [contradiction|].
    rewrite H. eexists. split; [reflexivity|].
    assert (Hloc : tomb ∈ local_matches (pull_filters (Some c) t) w').
    { apply (local_matches_pull w' c t tomb Hc). change (id tomb) with (id ex).
      rewrite Hid. auto. }
    destruct (remote_answers w'); [|exact Hloc].
    rewrite merged_perm. unfold merge_order. apply elem_of_app. now left.
Qed.

Lemma delete_marks_and_keeps_witness :
  "u1" ≠ EmptyString
  ∧ sql_quiet Runs.owned_by_u1
  ∧ local_record Runs.owned_by_u1 "n1" = Some (Runs.note "n1" "u1" "A" 100 false)
  ∧ uid (Runs.note "n1" "u1" "A" 100 false) = Some "u1"
  ∧ ∃ w',
      Notes.delete (Some Runs.u1) "n1" Runs.owned_by_u1 = (Normal Notes.OkTrue, w')
      ∧ local_record w' "n1" = Some (Runs.note "n1" "u1" "A" 1000 true).
Proof.
  assert (H1 : "u1" ≠ EmptyString) by discriminate.
  assert (H2 : sql_quiet Runs.owned_by_u1) by reflexivity.
  assert (H3 : local_record Runs.owned_by_u1 "n1" = Some (Runs.note "n1" "u1" "A" 100 false))
    by (vm_compute; reflexivity).
  assert (H4 : uid (Runs.note "n1" "u1" "A" 100 false) = Some "u1") by reflexivity.
  repeat (split; [assumption|]).
  destruct (delete_marks_and_keeps "u1" "n1" (Runs.note "n1" "u1" "A" 100 false)
              Runs.owned_by_u1 H1 H2 H3 H4) as (w' & E & Hrec & _).
  exists w'. split; [exact E | exact Hrec].
Defined.

(** ** Pushing, pushing again, pulling *)

(** The first push of a complete note of the caller. *)
Lemma push_created (w : World) (c : string) (x : Note) :
  c ≠ EmptyString → sql_quiet w → uid x = Some c → server_record w (id x) = None →
  ∃ w1, push_batch (mkUser (Some c)) [raw_of_note x] w
        = (Normal (Sync.PushOk [Sync.mkResult (id x) Sync.created]), w1)
        ∧ sql_quiet w1
        ∧ sqlite w1 !! id x = Some (SqliteAdapter.row_of_note x).
Proof.
  intros Hc Hq Hu Hnone. rewrite push_single. unfold Sync.push_note.
  rewrite (bind_normal _ _ _ _ _ (normalize_complete x c w Hu)).
  destruct (dual_get_quiet (id x) w Hq) as (w1 & Hget & Hq1 & _).
  rewrite Hnone in Hget. rewrite (bind_normal _ _ _ _ _ Hget).
  destruct (dual_upsert_quiet x w1 Hq1) as (w2 & Hup & Hq2 & Hs2 & _).
  rewrite (bind_normal _ _ _ _ _ Hup). simpl. exists w2.
  split; [reflexivity|]. split; [exact Hq2|]. rewrite Hs2. apply lookup_insert_eq.
Qed.

(** A push of the note the primary store already holds. *)
Lemma push_same (w : World) (c : string) (x : Note) :
  c ≠ EmptyString → sql_quiet w → uid x = Some c →
  sqlite w !! id x = Some (SqliteAdapter.row_of_note x) →
  push_batch (mkUser (Some c)) [raw_of_note x] w
  = (Normal (Sync.PushOk [Sync.mkResult (id x) Sync.skipped_server_newer]), w).
Proof.
  intros Hc Hq Hu Hrow. rewrite push_single. unfold Sync.push_note.
  rewrite (bind_normal _ _ _ _ _ (normalize_complete x c w Hu)).
  assert (Hrec : local_record w (id x) = Some x).
  { unfold local_record. rewrite Hrow. simpl. now rewrite (row_round_trip x c Hu Hc). }
  rewrite (bind_normal _ _ _ _ _ (owner_reaches_record c (id x) x w Hq Hrec)).
  cbn [user_uid]. rewrite (proj2 (strict_ne_owner _ _) Hu), Z.ltb_irrefl. reflexivity.
Qed.



(** Every note a search with the filter of [/pull] returns is owned by
    the caller. *)
Lemma pull_result_owned (c : string) (t : Z) (w : World) (l : list Note) :
  c ≠ EmptyString →
  (DualAdapter.find (pull_filters (Some c) t) w).1 = Normal l →
  ∀ n, n ∈ l → uid n = Some c.
Proof.
  intros Hc Hl n Hn.
  destruct (find_result (pull_filters (Some c) t) w) as [[H _]|[H|H]];
    rewrite H in Hl; [discriminate| |]; injection Hl as <-.
  - apply (local_matches_pull w c t n Hc) in Hn. tauto.
  - rewrite merged_perm in Hn. unfold merge_order in Hn.
    apply elem_of_app in Hn as [Hn|Hn].
    + apply (local_matches_pull w c t n Hc) in Hn. tauto.
    + unfold remote_only in Hn. apply list_elem_of_In, filter_In in Hn as [Hn _].
      apply list_elem_of_In, (remote_matches_pull w c t n Hc) in Hn. tauto.
Qed.

(** X20: what is pushed comes back: after a push that created a note of the
    caller, the caller's pull from any [lastSync] below the note's
    [updatedAt] (or from 0) returns the note as it was pushed, and no
    pull by another caller returns it. *)
Theorem pushed_note_is_pulled (w : World) (c : string) (x : Note) (o : option Z) :
  c ≠ EmptyString →
  sql_quiet w →
  uid x = Some c →
  server_record w (id x) = None →
  Sync.default (JsValue.truthy_number o) 0 = 0
  ∨ Sync.default (JsValue.truthy_number o) 0 < updatedAt x →
  (∃ l, (Sync.pull (Sync.mkPullRequest (Some (mkUser (Some c))) o)
           (push_batch (mkUser (Some c)) [raw_of_note x] w).2).1
        = Normal (Sync.PullOk l)
        ∧ x ∈ l)
  ∧ ∀ c' o' l',
      c' ≠ EmptyString → c' ≠ c →
      (Sync.pull (Sync.mkPullRequest (Some (mkUser (Some c'))) o')
         (push_batch (mkUser (Some c)) [raw_of_note x] w).2).1
      = Normal (Sync.PullOk l') →
      x ∉ l'.
Proof.
  intros Hc Hq Hu Hnone Ht.
  destruct (push_created w c x Hc Hq Hu Hnone) as (w1 & E & Hq1 & Hrow).
  rewrite E. simpl. split.
  - rewrite pull_as_find. simpl.
    set (t := Sync.default (JsValue.truthy_number o) 0) in *.
    destruct (find_exact (pull_filters (Some c) t) w1) as [[_ Hnq]|H]; [contradiction|].
    rewrite H. eexists. split; [reflexivity|].
    assert (Hloc : x ∈ local_matches (pull_filters (Some c) t) w1).
    { apply (local_matches_pull w1 c t x Hc). split; [|auto].
      unfold local_record. rewrite Hrow. simpl. now rewrite (row_round_trip x c Hu Hc). }
    destruct (remote_answers w1); [|exact Hloc].
    rewrite merged_perm. unfold merge_order. apply elem_of_app. now left.
  - intros c' o' l' Hc' Hne. rewrite pull_as_find. simpl.
    destruct (DualAdapter.find
                (pull_filters (Some c') (Sync.default (JsValue.truthy_number o') 0)) w1)
      as [[l|e] w2] eqn:Ef; simpl; [|discriminate].
    intros [= <-] Hin.
    assert (Hown : uid x = Some c').
    { eapply (pull_result_owned c' _ w1 l Hc'); [now rewrite Ef | exact Hin]. }
    congruence.
Qed.

Lemma pushed_note_is_pulled_witness :
  "u1" ≠ EmptyString
  ∧ sql_quiet (Runs.quiet None)
  ∧ uid (Runs.note "n1" "u1" "A" 100 false) = Some "u1"
  ∧ server_record (Runs.quiet None) "n1" = None
  ∧ (Sync.default (JsValue.truthy_number (Some 50)) 0 = 0
     ∨ Sync.default (JsValue.truthy_number (Some 50)) 0
       < updatedAt (Runs.note "n1" "u1" "A" 100 false))
  ∧ ∃ l, (Sync.pull (Sync.mkPullRequest (Some Runs.u1) (Some 50))
            (push_batch Runs.u1 [raw_of_note (Runs.note "n1" "u1" "A" 100 false)]
               (Runs.quiet None)).2).1
         = Normal (Sync.PullOk l)
         ∧ Runs.note "n1" "u1" "A" 100 false ∈ l.
Proof.
  assert (H1 : "u1" ≠ EmptyString) by discriminate.
  assert (H2 : sql_quiet (Runs.quiet None)) by reflexivity.
  assert (H3 : uid (Runs.note "n1" "u1" "A" 100 false) = Some "u1") by reflexivity.
  assert (H4 : server_record (Runs.quiet None) (id (Runs.note "n1" "u1" "A" 100 false)) = None)
    by reflexivity.
  assert (H5 : Sync.default (JsValue.truthy_number (Some 50)) 0 = 0
               ∨ Sync.default (JsValue.truthy_number (Some 50)) 0
                 < updatedAt (Runs.note "n1" "u1" "A" 100 false)) by (right; reflexivity).
  repeat (split; [assumption|]).
  exact (proj1 (pushed_note_is_pulled (Runs.quiet None) "u1"
                  (Runs.note "n1" "u1" "A" 100 false) (Some 50) H1 H2 H3 H4 H5)).
Defined.

(** ** [GET /notes] *)

Lemma where_clauses_owner (f : Filters) (c : string) (r : Row) :
  JsValue.truthy_string (f_uid f) = Some c →
  forallb (SqliteAdapter.holds r) (SqliteAdapter.where_clauses f) = true →
  row_uid r = Some c ∧ (f_includeDeleted f = false → row_isDeleted r = false).
Proof.
  intros Hu H. unfold SqliteAdapter.where_clauses in H. rewrite Hu in H.
  rewrite !forallb_app in H. apply andb_true_iff in H as [H1 H2].
  apply andb_true_iff in H2 as [H2 _]. split.
  - simpl in H1. destruct (row_uid r) as [v|]; [|discriminate].
    rewrite andb_true_r in H1. apply String.eqb_eq in H1. now subst.
  - intros Hd. rewrite Hd in H2. simpl in H2. rewrite andb_true_r in H2.
    now apply negb_true_iff in H2.
Qed.

Lemma matches_owner (n : Note) (f : Filters) (c : string) :
  JsValue.truthy_string (f_uid f) = Some c →
  DualAdapter.matchesFilters n f = true →
  uid n = Some c ∧ (f_includeDeleted f = false → isDeleted n = false).
Proof.
  intros Hu H. unfold DualAdapter.matchesFilters in H. rewrite Hu in H.
  rewrite !if_false_chain in H. destruct H as (Hd & Ho & _). split.
  - now apply negb_false_iff, bool_decide_eq_true in Ho.
  - intros Hi. rewrite Hi in Hd. exact Hd.
Qed.

(** A search with an owner in its filter returns notes of that owner
    only, and no deleted note unless the filter asks for them. *)
Lemma find_owner (f : Filters) (c : string) (w : World) (l : list Note) :
  JsValue.truthy_string (f_uid f) = Some c →
  (DualAdapter.find f w).1 = Normal l →
  ∀ n, n ∈ l → uid n = Some c ∧ (f_includeDeleted f = false → isDeleted n = false).
Proof.
  intros Hu Hl n Hn.
  assert (Hloc : ∀ m, m ∈ local_matches f w →
            uid m = Some c ∧ (f_includeDeleted f = false → isDeleted m = false)).
  { intros m Hm. unfold local_matches in Hm.
    apply elem_of_select in Hm as (r & _ & -> & Hc).
    exact (where_clauses_owner f c r Hu Hc). }
  destruct (find_result f w) as [[H _]|[H|H]];
    rewrite H in Hl; [discriminate| |]; injection Hl as <-; [auto|].
  rewrite merged_perm in Hn. unfold merge_order in Hn.
  apply elem_of_app in Hn as [Hn|Hn]; [auto|].
  unfold remote_only, remote_matches in Hn.
  apply list_elem_of_In, filter_In in Hn as [Hn _].
  apply filter_In in Hn as [_ Hn]. exact (matches_owner n f c Hu Hn).
Qed.

Lemma find_sorted (f : Filters) (w : World) (l : list Note) :
  (DualAdapter.find f w).1 = Normal l →
  StronglySorted (fun a b => updatedAt b ≤ updatedAt a) l.
Proof.
  intros Hl. destruct (find_result f w) as [[H _]|[H|H]];
    rewrite H in Hl; [discriminate| |]; injection Hl as <-.
  - apply select_sorted.
  - apply merged_sorted.
Qed.

(** X21: [GET /notes] always answers, and a 200 answer lists notes of the
    caller only, newest first, and no deleted note unless the query says
    [includeDeleted=1] or [includeDeleted=true], whatever the other
    parameters of the query are and whatever faults occur. *)
Theorem list_serves_own_notes (start_of_day end_of_day : string → option Z)
    (user : option User) (query : Notes.Query) (w : World) :
  (∃ r, (Notes.get_list start_of_day end_of_day user query w).1 = Normal r)
  ∧ ∀ l, (Notes.get_list start_of_day end_of_day user query w).1
         = Normal (Notes.OkNotes l) →
      ∃ c, Notes.caller user = Some c
           ∧ StronglySorted (fun a b => updatedAt b ≤ updatedAt a) l
           ∧ ∀ n, n ∈ l →
               uid n = Some c
               ∧ (isDeleted n = true →
                  Notes.q_includeDeleted query = Some "1"
                  ∨ Notes.q_includeDeleted query = Some "true").
Proof.
  unfold Notes.get_list, try_catch.
  destruct (Notes.caller user) as [c|] eqn:Ec.
  2:{ unfold ret. simpl. split; [eauto | discriminate]. }
  assert (Hc : JsValue.truthy_string (Some c) = Some c).
  { destruct user as [[[u|]]|]; try discriminate Ec. unfold Notes.caller in Ec.
    cbn [user_uid] in Ec. destruct u; [discriminate|]. now injection Ec as <-. }
  unfold bind.
  destruct (DualAdapter.find (Notes.filters_of start_of_day end_of_day query c) w)
    as [[l|e] w1] eqn:Ef; simpl; (split; [eauto|]); [|discriminate].
  intros l' [= <-]. exists c. split; [reflexivity|].
  split.
  { apply (find_sorted (Notes.filters_of start_of_day end_of_day query c) w).
    now rewrite Ef. }
  intros n Hn.
  destruct (find_owner (Notes.filters_of start_of_day end_of_day query c) c w l Hc
              ltac:(now rewrite Ef) n Hn) as [Hu Hd].
  split; [exact Hu|]. intros Hdel.
  unfold Notes.filters_of in Hd. cbn [f_includeDeleted] in Hd.
  destruct (Notes.q_includeDeleted query) as [v|];
    [|rewrite Hd in Hdel; [discriminate | reflexivity]].
  destruct (String.eqb_spec v "1") as [E|_]; [left; now rewrite E|].
  destruct (String.eqb_spec v "true") as [E|_]; [right; now rewrite E|].
  rewrite Hd in Hdel; [discriminate | reflexivity].
Qed.

Lemma list_serves_own_notes_witness :
  (Notes.get_list (fun _ => None) (fun _ => None) (Some Runs.u1)
     (Notes.mkQuery None None None None None None None) Runs.stale_replica).1
  = Normal (Notes.OkNotes [Runs.note "n1" "u1" "A" 100 false])
  ∧ ∃ c, Notes.caller (Some Runs.u1) = Some c
         ∧ ∀ n, n ∈ [Runs.note "n1" "u1" "A" 100 false] → uid n = Some c.
Proof.
  assert (H : (Notes.get_list (fun _ => None) (fun _ => None) (Some Runs.u1)
                 (Notes.mkQuery None None None None None None None) Runs.stale_replica).1
              = Normal (Notes.OkNotes [Runs.note "n1" "u1" "A" 100 false]))
    by (vm_compute; reflexivity).
  split; [exact H|].
  destruct (proj2 (list_serves_own_notes (fun _ => None) (fun _ => None) (Some Runs.u1)
                     (Notes.mkQuery None None None None None None None) Runs.stale_replica)
              _ H) as (c & Hc & _ & Hall).
  exists c. split; [exact Hc|]. intros n Hn. exact (proj1 (Hall n Hn)).
Defined.

(** ** The dual adapter without Firestore *)

(** X22: when the admin SDK is not initialised the dual adapter works on the
    local tiers alone: [get] and [find] are the ones of the SQLite
    adapter, in what they answer and in what they leave behind, and
    [upsert] makes no remote call. *)
Theorem without_firestore_local_only (w : World) :
  firestore w = None →
  (∀ i, DualAdapter.get i w = SqliteAdapter.get i w)
  ∧ (∀ f, DualAdapter.find f w = SqliteAdapter.find f w)
  ∧ (∀ n, firestore (DualAdapter.upsert n w).2 = None
          ∧ cloud_faults (DualAdapter.upsert n w).2 = cloud_faults w).
Proof.
  intros Hf. split; [|split].
  - intros i. unfold DualAdapter.get, bind.
    destruct (SqliteAdapter.get i w) as [r w1] eqn:E.
    destruct (sqlite_get_frame i w w1 r E) as [[l ->] _].
    destruct r as [[n|]|e]; try reflexivity.
    unfold DualAdapter.getFirestoreSafe, read. simpl. now rewrite Hf.
  - intros f. unfold DualAdapter.find, bind.
    destruct (SqliteAdapter.find f w) as [r w1] eqn:E.
    destruct (sqlite_find_frame f w w1 r E) as [[l ->] _].
    destruct r as [ns|e]; [|reflexivity].
    unfold DualAdapter.getFirestoreSafe, read. simpl. now rewrite Hf.
  - intros n.
    destruct (dual_upsert_shape n w) as (l & t & fl & d & cl & _ & Hd & [E|E]);
      rewrite E; simpl; [now rewrite Hf|].
    assert (Hdn : d = None) by (destruct Hd as [->| ->]; now rewrite Hf).
    split; [exact Hdn|].
    revert E. unfold DualAdapter.upsert, bind.
    destruct (DualAdapter.Promise_all2 (SqliteAdapter.upsert n) (FileAdapter.upsert n) w)
      as [[[]|e] w1] eqn:Ep; [|discriminate].
    assert (Hw1 : firestore w1 = None ∧ cloud_faults w1 = cloud_faults w).
    { revert Ep. unfold DualAdapter.Promise_all2.
      destruct (SqliteAdapter.upsert n w) as [ra wa] eqn:Ea.
      destruct (sqlite_upsert_frame _ _ _ _ Ea) as [la [[-> ->]|[-> ->]]];
        match goal with |- context [FileAdapter.upsert n ?W] =>
          destruct (file_upsert_frame n W) as (t0 & fl0 & -> & _) end;
        intros [= <-]; simpl; auto. }
    destruct Hw1 as [Hf1 Hc1].
    unfold DualAdapter.getFirestoreSafe, read. simpl. rewrite Hf1. simpl.
    unfold ret. intros [= H]. rewrite <- Hc1.
    apply (f_equal cloud_faults) in H. simpl in H. now rewrite H.
Qed.

Lemma without_firestore_local_only_witness :
  firestore Runs.owned_by_u1 = None
  ∧ DualAdapter.get "n1" Runs.owned_by_u1 = SqliteAdapter.get "n1" Runs.owned_by_u1.
Proof.
  split; [reflexivity|].
  exact (proj1 (without_firestore_local_only Runs.owned_by_u1 eq_refl) "n1").
Defined.

(** ** Invariants: the replica stays keyed by id *)



(** ** Invariants: without faults the three tiers stay in step *)

Section Steady.
Context (P : World → Prop).

Lemma steady_ret {A} (a : A) (Q : A → Prop) : Q a → steady P (ret a) Q.
Proof. intros Ha w Hw. exists a, w. auto. Qed.

Lemma steady_read {A} (f : World → A) (Q : A → Prop) :
  (∀ w, P w → Q (f w)) → steady P (read f) Q.
Proof. intros H w Hw. exists (f w), w. auto. Qed.

Lemma steady_bind {A B} (m : Js A) (k : A → Js B) (Q1 : A → Prop) (Q2 : B → Prop) :
  steady P m Q1 → (∀ a, Q1 a → steady P (k a) Q2) → steady P (bind m k) Q2.
Proof.
  intros Hm Hk w Hw. destruct (Hm w Hw) as (a & w1 & E & Hw1 & Ha).
  destruct (Hk a Ha w1 Hw1) as (b & w2 & E2 & Hw2 & Hb).
  exists b, w2. rewrite (bind_normal _ _ _ _ _ E). auto.
Qed.

Lemma steady_try {A} (m : Js A) (h : Exn → Js A) (Q : A → Prop) :
  steady P m Q → steady P (try_catch m h) Q.
Proof.
  intros Hm w Hw. destruct (Hm w Hw) as (a & w1 & E & H).
  exists a, w1. unfold try_catch. rewrite E. auto.
Qed.

End Steady.

Lemma in_step_lift {A} (m : Js A) (Q : A → Prop) :
  (∀ docs, steady (mirrors docs) m Q) → steady in_step m Q.
Proof.
  intros H w [docs Hw]. destruct (H docs w Hw) as (a & w' & E & Hw' & Ha).
  exists a, w'. split; [exact E|]. split; [now exists docs | exact Ha].
Qed.

Lemma mirrors_sqlite_get (docs : gmap string Note) (i : string) :
  steady (mirrors docs) (SqliteAdapter.get i) (fun r => r = None → docs !! i = None).
Proof.
  intros w Hw. destruct Hw as (Hs & Hrest). exists (SqliteAdapter.note_of_row i <$> sqlite w !! i), w.
  split; [apply sqlite_get_quiet, Hs|]. split; [split; assumption|].
  destruct Hrest as (_ & _ & _ & _ & -> & _). rewrite lookup_fmap.
  destruct (docs !! i); [discriminate | reflexivity].
Qed.

Lemma mirrors_doc_get (docs : gmap string Note) (i : string) :
  steady (mirrors docs) (Firestore.doc_get i) (fun r => r = docs !! i).
Proof.
  intros w Hw. exists (docs !! i), w. split; [|auto].
  destruct Hw as (_ & _ & Hc & Hf & _).
  unfold Firestore.doc_get, bind, cloud_call, io_call, read. now rewrite Hc, Hf.
Qed.

Lemma mirrors_query (docs : gmap string Note) (o : option string) :
  steady (mirrors docs) (Firestore.query o) (fun l => l = Firestore.narrowed o docs).
Proof.
  intros w Hw. exists (Firestore.narrowed o docs), w. split; [|auto].
  destruct Hw as (_ & _ & Hc & Hf & _).
  unfold Firestore.query, bind, cloud_call, io_call, read. now rewrite Hc, Hf.
Qed.

(** Caching a note the replica holds writes what the table and the files
    hold already. *)
Lemma mirrors_cache (docs : gmap string Note) (n : Note) :
  docs !! id n = Some n →
  steady (mirrors docs) (DualAdapter.cache_locally n) (fun _ => True).
Proof.
  intros Hn w (Hs & Hf & Hc & Hfs & Hfl & Hsq & Hk).
  unfold DualAdapter.cache_locally, try_catch.
  rewrite (bind_normal _ _ _ _ _ (sqlite_upsert_quiet n w Hs)).
  rewrite (file_upsert_quiet n
             (with_sqlite (<[id n := SqliteAdapter.row_of_note n]> (sqlite w)) w) Hf).
  eexists _, _. split; [reflexivity|]. split; [|exact I].
  unfold mirrors. simpl. split; [exact Hs|]. split; [exact Hf|]. split; [exact Hc|].
  split; [exact Hfs|]. split; [|split; [|exact Hk]].
  - rewrite Hfl. now apply insert_id.
  - rewrite Hsq. apply insert_id. now rewrite lookup_fmap, Hn.
Qed.

Lemma mirrors_dual_get (docs : gmap string Note) (i : string) :
  steady (mirrors docs) (DualAdapter.get i) (fun _ => True).
Proof.
  unfold DualAdapter.get.
  eapply steady_bind; [apply mirrors_sqlite_get|]. intros [n|] Hn.
  - now apply steady_ret.
  - specialize (Hn eq_refl).
    apply (steady_bind _ _ _ (fun b => b = true)).
    { unfold DualAdapter.getFirestoreSafe. apply steady_read.
      intros w (_ & _ & _ & -> & _). reflexivity. }
    intros b ->. simpl. apply steady_try.
    eapply steady_bind; [apply mirrors_doc_get|]. intros snap ->. rewrite Hn.
    now apply steady_ret.
Qed.

Lemma mirrors_merge (docs : gmap string Note) (S : gset string) (fr : list Note) :
  (∀ rn, rn ∈ fr → docs !! id rn = Some rn) →
  ∀ merged, steady (mirrors docs) (DualAdapter.merge_remote S fr merged) (fun _ => True).
Proof.
  induction fr as [|rn fr IH]; intros Hfr merged; simpl.
  - now apply steady_ret.
  - assert (Hrest : ∀ x, x ∈ fr → docs !! id x = Some x)
      by (intros x Hx; apply Hfr; now apply list_elem_of_further).
    destruct (bool_decide (id rn ∈ S)); [now apply IH|].
    eapply steady_bind; [apply mirrors_cache, Hfr, list_elem_of_here|].
    intros _ _. now apply IH.
Qed.

Lemma mirrors_dual_find (docs : gmap string Note) (f : Filters) :
  steady (mirrors docs) (DualAdapter.find f) (fun _ => True).
Proof.
  intros w Hw. assert (Hk : ∀ k n, docs !! k = Some n → id n = k) by apply Hw.
  revert w Hw. change (steady (mirrors docs) (DualAdapter.find f) (fun _ => True)).
  unfold DualAdapter.find.
  apply (steady_bind _ _ _ (fun _ => True)).
  { intros w Hw. exists (local_matches f w), w. split; [|auto].
    unfold SqliteAdapter.find.
    rewrite (bind_normal _ _ _ _ _ (db_call_quiet w (proj1 Hw))). reflexivity. }
  intros localNotes _.
  apply (steady_bind _ _ _ (fun b => b = true)).
  { unfold DualAdapter.getFirestoreSafe. apply steady_read.
    intros w (_ & _ & _ & -> & _). reflexivity. }
  intros b ->. simpl. apply steady_try.
  eapply steady_bind; [apply mirrors_query|]. intros remoteNotes ->. cbv zeta.
  apply (steady_bind _ _ _ (fun _ => True)); [|intros; now apply steady_ret].
  apply mirrors_merge. intros rn Hrn.
  apply list_elem_of_In, filter_In in Hrn as [Hrn _].
  unfold Firestore.narrowed in Hrn. apply filter_In in Hrn as [Hrn _].
  apply in_map_iff in Hrn as ([k n] & <- & Hin). simpl.
  apply list_elem_of_In, elem_of_map_to_list in Hin.
  now rewrite (Hk k n Hin).
Qed.

(** The fan-out upsert writes the note into all three tiers. *)
Lemma mirrors_dual_upsert (docs : gmap string Note) (n : Note) (w : World) :
  mirrors docs w →
  ∃ w', DualAdapter.upsert n w = (Normal tt, w') ∧ mirrors (<[id n := n]> docs) w'.
Proof.
  intros (Hs & Hf & Hc & Hfs & Hfl & Hsq & Hk).
  unfold DualAdapter.upsert, DualAdapter.Promise_all2. unfold bind at 1.
  rewrite (sqlite_upsert_quiet n w Hs).
  rewrite (file_upsert_quiet n
             (with_sqlite (<[id n := SqliteAdapter.row_of_note n]> (sqlite w)) w) Hf).
  unfold DualAdapter.getFirestoreSafe. rewrite bind_read. simpl. rewrite Hfs. simpl.
  unfold try_catch, Firestore.doc_set, bind, cloud_call, io_call. simpl. rewrite Hc.
  unfold write. simpl. eexists. split; [reflexivity|].
  unfold mirrors. simpl. rewrite Hfs, Hfl, Hsq. simpl.
  split; [exact Hs|]. split; [exact Hf|]. split; [exact Hc|].
  split; [reflexivity|]. split; [reflexivity|]. split; [now rewrite fmap_insert|].
  intros k m. destruct (decide (id n = k)) as [<-|Hne].
  - rewrite lookup_insert_eq. now intros [= <-].
  - rewrite lookup_insert_ne by exact Hne. apply Hk.
Qed.

Lemma in_step_dual_get (i : string) : steady in_step (DualAdapter.get i) (fun _ => True).
Proof. apply in_step_lift. intros docs. apply mirrors_dual_get. Qed.

Lemma in_step_dual_find (f : Filters) : steady in_step (DualAdapter.find f) (fun _ => True).
Proof. apply in_step_lift. intros docs. apply mirrors_dual_find. Qed.

Lemma in_step_dual_upsert (n : Note) : steady in_step (DualAdapter.upsert n) (fun _ => True).
Proof.
  intros w [docs Hw]. destruct (mirrors_dual_upsert docs n w Hw) as (w' & E & Hw').
  exists tt, w'. split; [exact E|]. split; [now exists (<[id n := n]> docs) | exact I].
Qed.

Lemma in_step_Date_now : steady in_step Date_now (fun _ => True).
Proof. intros w [docs Hw]. eexists _, _. split; [reflexivity|]. split; [now exists docs | exact I]. Qed.

Lemma in_step_nanoid : steady in_step nanoid (fun _ => True).
Proof. intros w [docs Hw]. eexists _, _. split; [reflexivity|]. split; [now exists docs | exact I]. Qed.

Create HintDb stays.

#[local] Hint Resolve in_step_dual_get in_step_dual_find in_step_dual_upsert
  in_step_Date_now in_step_nanoid : stays.

Ltac stay_step :=
  match goal with
  | |- steady _ (bind _ _) _ => apply (steady_bind _ _ _ (fun _ => True)); [|intros ? _]
  | |- steady _ (try_catch _ _) _ => apply steady_try
  | |- steady _ (ret _) _ => apply steady_ret
  | |- steady _ (nullish_or ?o _) _ => destruct o; simpl
  | |- steady _ (match ?x with _ => _ end) _ => destruct x
  end.

Ltac stay := repeat stay_step; eauto with stays; try discriminate; try exact I.

Lemma in_step_normalize (raw : RawNote) (u : option User) :
  steady in_step (Sync.normalizeNoteInput raw u) (fun _ => True).
Proof. unfold Sync.normalizeNoteInput. stay. Qed.

#[local] Hint Resolve in_step_normalize : stays.

Lemma in_step_push_note (user : User) (raw : RawNote) :
  steady in_step (Sync.push_note user raw) (fun _ => True).
Proof. unfold Sync.push_note. stay. Qed.

#[local] Hint Resolve in_step_push_note : stays.

Lemma in_step_push_loop (user : User) (notes : list RawNote) :
  ∀ results, steady in_step (Sync.push_loop user notes results) (fun _ => True).
Proof. induction notes as [|raw rest IH]; intros results; simpl; stay. Qed.

#[local] Hint Resolve in_step_push_loop : stays.

Lemma in_step_push (user : User) (notes : Sync.NotesField) :
  steady in_step (Sync.push (Sync.mkPushRequest (Some user) notes))
    (fun a => a ≠ Sync.PushServerError).
Proof. unfold Sync.push, Sync.the_user. simpl. stay. Qed.

Lemma in_step_pull (user : User) (o : option Z) :
  steady in_step (Sync.pull (Sync.mkPullRequest (Some user) o))
    (fun a => a ≠ Sync.PullServerError).
Proof. unfold Sync.pull, Sync.the_user. simpl. stay. Qed.

Lemma in_step_get_list (sod eod : string → option Z) (user : option User)
    (query : Notes.Query) :
  steady in_step (Notes.get_list sod eod user query) (fun a => a ≠ Notes.ServerError).
Proof. unfold Notes.get_list. stay. Qed.

Lemma in_step_get_by_id (user : option User) (i : string) :
  steady in_step (Notes.get_by_id user i) (fun a => a ≠ Notes.ServerError).
Proof. unfold Notes.get_by_id. stay. Qed.

Lemma in_step_post (user : option User) (body : RawNote) :
  steady in_step (Notes.post user body) (fun a => a ≠ Notes.ServerError).
Proof. unfold Notes.post, Notes.normalizeNoteInput. stay. Qed.

Lemma in_step_put (user : option User) (i : string) (patch : Notes.Patch) :
  steady in_step (Notes.put user i patch) (fun a => a ≠ Notes.ServerError).
Proof. unfold Notes.put. stay. Qed.

Lemma in_step_delete (user : option User) (i : string) :
  steady in_step (Notes.delete user i) (fun a => a ≠ Notes.ServerError).
Proof. unfold Notes.delete. stay. Qed.

Lemma in_step_handle (verify : string → option User) (sod eod : string → option Z)
    (req : Server.Request) :
  steady in_step (Server.handle verify sod eod req)
    (fun x => x ≠ Server.NotesAnswer Notes.ServerError
              ∧ x ≠ Server.PushAnswer Sync.PushServerError
              ∧ x ≠ Server.PullAnswer Sync.PullServerError).
Proof.
  unfold Server.handle.
  destruct (Auth.authMiddleware verify (Server.authorization req)) as [user| | |];
    try (apply steady_ret; repeat split; discriminate).
  unfold Server.dispatch. destruct (Server.route req).
  - eapply steady_bind; [apply in_step_get_list|].
    intros a Ha. apply steady_ret. repeat split; congruence.
  - eapply steady_bind; [apply in_step_get_by_id|].
    intros a Ha. apply steady_ret. repeat split; congruence.
  - eapply steady_bind; [apply in_step_post|].
    intros a Ha. apply steady_ret. repeat split; congruence.
  - eapply steady_bind; [apply in_step_put|].
    intros a Ha. apply steady_ret. repeat split; congruence.
  - eapply steady_bind; [apply in_step_delete|].
    intros a Ha. apply steady_ret. repeat split; congruence.
  - eapply steady_bind; [apply in_step_push|].
    intros a Ha. apply steady_ret. repeat split; congruence.
  - eapply steady_bind; [apply in_step_pull|].
    intros a Ha. apply steady_ret. repeat split; congruence.
Qed.


